(** * Document-structure reconstruction: caption/footnote merging and
      heading-level inference

    A shallow embedding of
      - [lazyllm/tools/rag/transform/parser/caption.py] (CaptionFootnoteParser)
      - [lazyllm/tools/rag/transform/parser/layout.py]  (LayoutNodeParser)
    together with the properties stated about them.

    Python [str] values are sequences of Unicode code points, modelled as
    [list N].  [DocNode] objects are mutable and shared by reference, so a
    node list is a list of addresses into a store. *)

From Stdlib Require Import NArith ZArith String Ascii Lia.
From stdpp Require Import gmap list sorting.

Local Open Scope N_scope.

(** ** Python strings *)

Module PyStr.

Definition str := list N.

(** Bytes of a Rocq string literal, read as UTF-8, give the code points. *)
Fixpoint bytes_of (s : string) : list N :=
  match s with
  | EmptyString => []
  | String a r => N_of_ascii a :: bytes_of r
  end.

Fixpoint utf8_decode (bs : list N) : str :=
  match bs with
  | [] => []
  | b :: r =>
      if b <? 128 then b :: utf8_decode r
      else if b <? 224 then
        match r with
        | c1 :: r1 => ((b - 192) * 64 + (c1 - 128)) :: utf8_decode r1
        | _ => []
        end
      else if b <? 240 then
        match r with
        | c1 :: c2 :: r2 =>
            ((b - 224) * 4096 + (c1 - 128) * 64 + (c2 - 128)) :: utf8_decode r2
        | _ => []
        end
      else
        match r with
        | c1 :: c2 :: c3 :: r3 =>
            ((b - 240) * 262144 + (c1 - 128) * 4096 + (c2 - 128) * 64 + (c3 - 128))
              :: utf8_decode r3
        | _ => []
        end
  end.

Definition u (s : string) : str := utf8_decode (bytes_of s).

Definition str_eqb (a b : str) : bool := bool_decide (a = b).

Definition NL : N := 10.

(** [str.isspace] per character, which is also [\s] of the [re] module on
    [str] patterns. *)
Definition is_space (c : N) : bool :=
  ((9 <=? c) && (c <=? 13)) || ((28 <=? c) && (c <=? 32))
  || (c =? 133) || (c =? 160) || (c =? 5760)
  || ((8192 <=? c) && (c <=? 8202)) || (c =? 8232) || (c =? 8233)
  || (c =? 8239) || (c =? 8287) || (c =? 12288).

(** Unicode category Nd, which is [\d] of the [re] module on [str]
    patterns: each entry is the code point of a digit zero, followed by the
    nine other digits of its script (the mathematical digits fill one run of
    fifty). *)
Definition decimal_zeros : list N :=
  [48; 1632; 1776; 1984; 2406; 2534; 2662; 2790; 2918; 3046; 3174; 3302;
   3430; 3558; 3664; 3792; 3872; 4160; 4240; 6112; 6160; 6470; 6608; 6784;
   6800; 6992; 7088; 7232; 7248; 42528; 43216; 43264; 43472; 43504; 43600;
   44016; 65296; 66720; 68912; 69734; 69872; 69942; 70096; 70384; 70736;
   70864; 71248; 71360; 71472; 71904; 72016; 72784; 73040; 73120; 92768;
   92864; 93008; 120782; 120792; 120802; 120812; 120822; 123200; 123632;
   125264; 130032].

Definition is_decimal (c : N) : bool :=
  existsb (fun z => (z <=? c) && (c <=? z + 9)) decimal_zeros.

Fixpoint lstrip (s : str) : str :=
  match s with
  | c :: s' => if is_space c then lstrip s' else s
  | [] => []
  end.
Definition rstrip (s : str) : str := rev (lstrip (rev s)).
(** [s.strip()] *)
Definition strip (s : str) : str := rstrip (lstrip s).

(** [s.startswith(p)] *)
Fixpoint startswith (s p : str) : bool :=
  match p, s with
  | [], _ => true
  | c :: p', d :: s' => (c =? d) && startswith s' p'
  | _ :: _, [] => false
  end.

(** [p in s] *)
Fixpoint contains (s p : str) : bool :=
  startswith s p ||
  match s with
  | [] => false
  | _ :: s' => contains s' p
  end.

(** [s.split('\n')]: never empty. *)
Fixpoint split_nl (s : str) : list str :=
  match s with
  | [] => [[]]
  | c :: s' =>
      if c =? NL then [] :: split_nl s'
      else match split_nl s' with
           | l :: ls => (c :: l) :: ls
           | [] => [[c]]
           end
  end.

(** [sep.join(parts)] *)
Fixpoint join (sep : str) (parts : list str) : str :=
  match parts with
  | [] => []
  | [p] => p
  | p :: ps => p ++ sep ++ join sep ps
  end.

(** The simple lower-case mapping used by the [re] module under
    [IGNORECASE].  Only the code points whose image is an ASCII letter are
    tabulated (A-Z, U+0130, U+212A); every other cased code point and its
    image lie outside the ASCII and CJK literals of the pattern tables, so
    leaving them fixed does not change any comparison with a table entry. *)
Definition sre_lower (c : N) : N :=
  if (65 <=? c) && (c <=? 90) then c + 32
  else if c =? 304 then 105
  else if c =? 8490 then 107
  else c.

(** [s.lower()], as far as containment of the (lower-case ASCII or CJK)
    style keywords is concerned: U+0130 lowers to "i" followed by a
    combining dot, U+212A to "k". *)
Fixpoint lower (s : str) : str :=
  match s with
  | [] => []
  | c :: s' =>
      (if (65 <=? c) && (c <=? 90) then [c + 32]
       else if c =? 304 then [105; 775]
       else if c =? 8490 then [107]
       else [c]) ++ lower s'
  end.

End PyStr.
Export PyStr.

(** ** Regular expressions

    The fragment of Python's [re] used by the two parsers, with the
    backtracking order of the [re] module (first alternative first, greedy
    repetitions longest first, lazy ones shortest first), so that the
    captured groups are those Python reports. *)

Module Re.

Inductive citem :=
  | CChar (c : N)             (* a literal member of a bracket set *)
  | CRange (lo hi : N)        (* lo-hi *)
  | CDigit                    (* \d *)
  | CSpace.                   (* \s *)

Inductive regex :=
  | Eps
  | Lit (c : N)                                   (* one literal character *)
  | Any                                           (* .  (no DOTALL) *)
  | Set_ (neg : bool) (items : list citem)        (* [...] and [^...], \d, \s *)
  | Seq (r1 r2 : regex)
  | Alt (r1 r2 : regex)                           (* r1|r2 *)
  | Rep (greedy : bool) (lo : nat) (hi : option nat) (r : regex)
                                                  (* r{lo,hi}; [*] [+] [?] and the lazy forms *)
  | Group (i : nat) (r : regex)                   (* i-th capturing group *)
  | Bol                                           (* ^ *)
  | Eol.                                          (* $ *)

Definition in_item (x : N) (it : citem) : bool :=
  match it with
  | CChar c => x =? c
  | CRange lo hi => (lo <=? x) && (x <=? hi)
  | CDigit => is_decimal x
  | CSpace => is_space x
  end.

(** A literal under IGNORECASE: equal after lowering, or one of the two
    extra equivalences the [re] module attaches to ASCII letters
    (i with U+0131, s with U+017F). *)
Definition lit_match (ic : bool) (c x : N) : bool :=
  if ic then
    (sre_lower x =? sre_lower c)
    || ((sre_lower c =? 105) && (x =? 305))
    || ((sre_lower c =? 115) && (x =? 383))
  else x =? c.

Definition set_match (ic : bool) (neg : bool) (items : list citem) (x : N) : bool :=
  let y := if ic then sre_lower x else x in
  xorb neg (existsb (in_item y) items).

(** Captured groups, most recent binding first. *)
Definition caps := list (nat * str).

Fixpoint group (c : caps) (i : nat) : option str :=
  match c with
  | [] => None
  | (j, s) :: c' => if Nat.eqb i j then Some s else group c' i
  end.

Definition orelse {A} (a b : option A) : option A :=
  match a with Some _ => a | None => b end.

Section Matcher.
Context {R : Type}.
(** A matcher takes the rest of the subject and the groups so far, and a
    continuation for what follows in the pattern. *)
Definition matcher := str -> caps -> (str -> caps -> option R) -> option R.

(** Repetition.  [fuel] bounds the number of further iterations; an
    iteration must consume input (every repeated body in the pattern
    tables consumes at least one character). *)
Fixpoint rep_loop (body : matcher) (greedy : bool) (lo : nat) (hi : option nat)
    (fuel cnt : nat) (s : str) (c : caps) (k : str -> caps -> option R) : option R :=
  let stop := if Nat.leb lo cnt then k s c else None in
  let more :=
    match fuel with
    | O => None
    | S fuel' =>
        if match hi with Some h => Nat.leb h cnt | None => false end then None
        else body s c (fun s' c' =>
               if Nat.ltb (length s') (length s)
               then rep_loop body greedy lo hi fuel' (S cnt) s' c' k
               else None)
    end in
  if greedy then orelse more stop else orelse stop more.

(** [n0] is the length of the whole subject: [^] holds where nothing has
    been consumed; [$] holds at the end and before a final newline. *)
Fixpoint m (ic : bool) (n0 : nat) (r : regex) : matcher :=
  fun s c k =>
  match r with
  | Eps => k s c
  | Lit a =>
      match s with
      | x :: s' => if lit_match ic a x then k s' c else None
      | [] => None
      end
  | Any =>
      match s with
      | x :: s' => if x =? NL then None else k s' c
      | [] => None
      end
  | Set_ neg items =>
      match s with
      | x :: s' => if set_match ic neg items x then k s' c else None
      | [] => None
      end
  | Seq r1 r2 => m ic n0 r1 s c (fun s' c' => m ic n0 r2 s' c' k)
  | Alt r1 r2 => orelse (m ic n0 r1 s c k) (m ic n0 r2 s c k)
  | Rep g lo hi r' => rep_loop (m ic n0 r') g lo hi (S (length s)) 0 s c k
  | Group i r' =>
      m ic n0 r' s c (fun s' c' =>
        k s' ((i, take (length s - length s') s) :: c'))
  | Bol => if Nat.eqb (length s) n0 then k s c else None
  | Eol =>
      match s with
      | [] => k s c
      | [x] => if x =? NL then k s c else None
      | _ => None
      end
  end.
End Matcher.

(** A match object: what is left of the subject after the match, and the
    groups. *)
Definition mobj := (str * caps)%type.

(** [re.match(r, s)] *)
Definition re_match (ic : bool) (r : regex) (s : str) : option mobj :=
  m ic (length s) r s [] (fun s' c => Some (s', c)).

(** Leftmost match starting in the suffix [s] of a subject of length [n0]:
    the characters skipped, then the match. *)
Fixpoint search_from (ic : bool) (n0 : nat) (r : regex) (s : str)
  : option (str * str * mobj) :=
  match m ic n0 r s [] (fun s' c => Some (s', c)) with
  | Some mo => Some ([], take (length s - length (fst mo)) s, mo)
  | None =>
      match s with
      | [] => None
      | x :: s' =>
          match search_from ic n0 r s' with
          | Some (skipped, matched, mo) => Some (x :: skipped, matched, mo)
          | None => None
          end
      end
  end.

(** Truth value of an optional match object. *)
Definition is_Some_b {A} (o : option A) : bool :=
  match o with Some _ => true | None => false end.

(** [re.search(r, s)] as a truth value. *)
Definition re_search (ic : bool) (r : regex) (s : str) : bool :=
  is_Some_b (search_from ic (length s) r s).

(** [re.split(r, s)] and [re.sub(r, '', s)], for patterns without groups
    whose matches are never empty: cut at the successive leftmost matches. *)
Fixpoint split_fuel (fuel : nat) (ic : bool) (n0 : nat) (r : regex) (s : str)
  : list str :=
  match fuel with
  | O => [s]
  | S fuel' =>
      match search_from ic n0 r s with
      | Some (skipped, matched, (rest, _)) =>
          if Nat.ltb (length rest) (length s)
          then skipped :: split_fuel fuel' ic n0 r rest
          else [s]
      | None => [s]
      end
  end.

Definition re_split (r : regex) (s : str) : list str :=
  split_fuel (length s) false (length s) r s.

Definition re_sub_empty (r : regex) (s : str) : str :=
  concat (re_split r s).

(** Shorthands for writing patterns. *)
Definition star (r : regex) := Rep true 0 None r.
Definition plus (r : regex) := Rep true 1 None r.
Definition opt (r : regex) := Rep true 0 (Some 1%nat) r.
Definition lazy_star (r : regex) := Rep false 0 None r.
Definition times (lo hi : nat) (r : regex) := Rep true lo (Some hi) r.

Fixpoint seqs (rs : list regex) : regex :=
  match rs with
  | [] => Eps
  | [r] => r
  | r :: rs' => Seq r (seqs rs')
  end.

Fixpoint alts (rs : list regex) : regex :=
  match rs with
  | [] => Set_ false []
  | [r] => r
  | r :: rs' => Alt r (alts rs')
  end.

(** A run of literal characters. *)
Definition lits (s : str) : regex := seqs (map Lit s).

Definition chars (s : str) : list citem := map CChar s.

Definition ws : regex := Set_ false [CSpace].        (* \s *)
Definition digit : regex := Set_ false [CDigit].     (* \d *)

End Re.
Export Re.

(** ** What a pattern matches

    The words a pattern can match, independently of the search order of
    the matcher.  [lang ic n0 r w rest] reads: in a subject of length [n0],
    [r] can match [w] when [rest] is what follows [w] in the subject. *)

Module ReSem.

(** Repetition: [cnt] iterations done, then the words of the further
    iterations, each of them non-empty. *)
Inductive iter (P : str -> str -> Prop) (lo : nat) (hi : option nat)
  : nat -> str -> str -> Prop :=
  | iter_stop cnt rest :
      (lo <= cnt)%nat -> iter P lo hi cnt [] rest
  | iter_more cnt w w' rest :
      (forall h, hi = Some h -> (cnt < h)%nat) ->
      w <> [] -> P w (w' ++ rest) ->
      iter P lo hi (S cnt) w' rest ->
      iter P lo hi cnt (w ++ w') rest.

Fixpoint lang (ic : bool) (n0 : nat) (r : regex) (w rest : str) : Prop :=
  match r with
  | Eps => w = []
  | Lit a => exists x, w = [x] /\ lit_match ic a x = true
  | Any => exists x, w = [x] /\ (x =? NL) = false
  | Set_ neg items => exists x, w = [x] /\ set_match ic neg items x = true
  | Seq r1 r2 =>
      exists w1 w2, w = w1 ++ w2 /\ lang ic n0 r1 w1 (w2 ++ rest) /\ lang ic n0 r2 w2 rest
  | Alt r1 r2 => lang ic n0 r1 w rest \/ lang ic n0 r2 w rest
  | Rep _ lo hi r' => iter (lang ic n0 r') lo hi 0 w rest
  | Group _ r' => lang ic n0 r' w rest
  | Bol => w = [] /\ length rest = n0
  | Eol => w = [] /\ (rest = [] \/ rest = [NL])
  end.

(** The capturing groups that occur in a pattern. *)
Fixpoint groups_of (r : regex) : list nat :=
  match r with
  | Seq r1 r2 | Alt r1 r2 => groups_of r1 ++ groups_of r2
  | Rep _ _ _ r' => groups_of r'
  | Group i r' => i :: groups_of r'
  | _ => []
  end.

End ReSem.
Export ReSem.

(** ** Document nodes *)

Module Node.

(** [DocNode.metadata] is a dict; the keys the two parsers read or write are
    the fields below ([None] is an absent key).  [md_style_name] stands for
    [metadata.get('style_dict', {}).get('style_name', '')]: [None] covers an
    absent entry and one on which that expression raises, which the parsers
    treat alike. *)
Record Metadata := mkMetadata {
  md_type : option str;
  md_index : option Z;
  md_text_level : option Z;
  md_file_name : option str;
  md_style_name : option str;
  md_image_path : option str;
  md_image_caption : option str;
  md_table_caption : option str;
  md_equation_caption : option str;
  md_footnote : option str;
  md_image_footnote : option str;
  md_table_footnote : option str;
  md_equation_footnote : option str;
}.

Record DocNode := mkDocNode {
  text : str;
  metadata : Metadata;
  global_metadata : list (str * str);
}.

Definition set_index (v : Z) (md : Metadata) : Metadata :=
  mkMetadata (md_type md) (Some v) (md_text_level md) (md_file_name md)
    (md_style_name md) (md_image_path md) (md_image_caption md)
    (md_table_caption md) (md_equation_caption md) (md_footnote md)
    (md_image_footnote md) (md_table_footnote md) (md_equation_footnote md).

Definition set_text_level (v : Z) (md : Metadata) : Metadata :=
  mkMetadata (md_type md) (md_index md) (Some v) (md_file_name md)
    (md_style_name md) (md_image_path md) (md_image_caption md)
    (md_table_caption md) (md_equation_caption md) (md_footnote md)
    (md_image_footnote md) (md_table_footnote md) (md_equation_footnote md).

Definition set_caption (ty : str) (v : str) (md : Metadata) : Metadata :=
  mkMetadata (md_type md) (md_index md) (md_text_level md) (md_file_name md)
    (md_style_name md) (md_image_path md)
    (if str_eqb ty (u "image") then Some v else md_image_caption md)
    (if str_eqb ty (u "table") then Some v else md_table_caption md)
    (if str_eqb ty (u "equation") then Some v else md_equation_caption md)
    (md_footnote md)
    (md_image_footnote md) (md_table_footnote md) (md_equation_footnote md).

Definition set_footnote (ty : str) (v : str) (md : Metadata) : Metadata :=
  mkMetadata (md_type md) (md_index md) (md_text_level md) (md_file_name md)
    (md_style_name md) (md_image_path md) (md_image_caption md)
    (md_table_caption md) (md_equation_caption md) (Some v)
    (if str_eqb ty (u "image") then Some v else md_image_footnote md)
    (if str_eqb ty (u "table") then Some v else md_table_footnote md)
    (if str_eqb ty (u "equation") then Some v else md_equation_footnote md).

Definition with_metadata (f : Metadata -> Metadata) (n : DocNode) : DocNode :=
  mkDocNode (text n) (f (metadata n)) (global_metadata n).

Definition empty_metadata : Metadata :=
  mkMetadata None None None None None None None None None None None None None.

(** ** The object store

    A node list holds references; the objects live in a store indexed by
    address.  A new object is allocated at the end. *)
Abbreviation addr := nat.
Abbreviation store := (list DocNode).

Definition null_node : DocNode := mkDocNode [] empty_metadata [].

Definition deref (h : store) (a : addr) : DocNode := default null_node (h !! a).

(** [node.metadata[...] = ...] on the object at [a]. *)
Definition update (h : store) (a : addr) (f : Metadata -> Metadata) : store :=
  alter (with_metadata f) a h.

Definition alloc (h : store) (n : DocNode) : store * addr := (h ++ [n], length h).

(** All references point into the store. *)
Definition valid (h : store) (refs : list addr) : Prop :=
  Forall (fun a => (a < length h)%nat) refs.

End Node.
Export Node.

(** ** caption.py: CaptionFootnoteParser *)

Module Caption.

(** The single character of a one-character literal. *)
Definition ch (s : string) : N := hd 0 (u s).

Record TypeConfig := mkTypeConfig {
  patterns : list regex;
  content_keywords : list str;
  style_exclude : list str;
  style_keywords : list str;
}.

(** [\s*\d+[\.\-\d]*], the tail shared by the numbering patterns. *)
Definition number_tail : regex :=
  seqs [star ws; plus digit; star (Set_ false [CChar (ch "."); CChar (ch "-"); CDigit])].

Definition image_config : TypeConfig :=
  mkTypeConfig
    [ Seq (lits (u "图")) number_tail;
      Seq (lits (u "Figure")) number_tail;
      Seq (lits (u "Fig.")) number_tail ]
    [u "图"; u "figure"; u "fig"]
    [u "表"; u "table"; u "tab"; u "公式"; u "equation"; u "eq"]
    [u "图"; u "figure"; u "caption"; u "图题"; u "图标题"; u "figure caption"; u "题注"].

Definition table_config : TypeConfig :=
  mkTypeConfig
    [ Seq (lits (u "表")) number_tail;
      Seq (lits (u "Table")) number_tail;
      Seq (lits (u "Tab.")) number_tail ]
    [u "表"; u "table"; u "tab"]
    [u "图"; u "figure"; u "fig"; u "公式"; u "equation"; u "eq"]
    [u "表"; u "table"; u "caption"; u "表题"; u "表标题"; u "table caption"; u "题注"].

Definition equation_config : TypeConfig :=
  mkTypeConfig
    [ Seq (lits (u "公式")) number_tail;
      Seq (lits (u "Equation")) number_tail;
      Seq (lits (u "Eq.")) number_tail ]
    [u "公式"; u "equation"; u "eq"]
    [u "表"; u "table"; u "tab"; u "图"; u "figure"; u "fig"]
    [u "公式"; u "equation"; u "caption"; u "公式题"; u "equation caption"; u "题注"].

Definition TYPE_CONFIG : list (str * TypeConfig) :=
  [ (u "image", image_config); (u "table", table_config);
    (u "equation", equation_config) ].

Fixpoint dict_get {V} (d : list (str * V)) (key : str) : option V :=
  match d with
  | [] => None
  | (k', v) :: d' => if str_eqb key k' then Some v else dict_get d' key
  end.

(** [TYPE_CONFIG.get(t, TYPE_CONFIG['table'])] *)
Definition get_config (t : str) : TypeConfig :=
  default table_config (dict_get TYPE_CONFIG t).

(** [node.text.strip() if node.text else ''] *)
Definition content_of (node : DocNode) : str :=
  match text node with
  | [] => []
  | _ => strip (text node)
  end.

Definition type_is (node : DocNode) (t : str) : bool :=
  match md_type (metadata node) with
  | Some ty => str_eqb ty t
  | None => false
  end.

Definition _is_caption (node : DocNode) (target_type : str) : bool :=
  if negb (type_is node (u "text")) then false
  else
    let content := content_of node in
    match content with
    | [] => false
    | _ =>
        let config := get_config target_type in
        let by_content :=
          existsb (fun pattern => re_search true pattern content) (patterns config) in
        match md_style_name (metadata node) with
        | Some sn =>
            let style_name := lower sn in
            if existsb (fun keyword => contains style_name keyword) (style_exclude config)
            then false
            else if existsb (fun keyword => contains style_name keyword) (style_keywords config)
            then true
            else by_content
        | None => by_content
        end
    end.

Definition start_patterns : list regex :=
  let colon := Set_ false [CChar (ch "："); CChar (ch ":")] in
  [ seqs [lits (u "注"); star ws; colon; star ws];
    seqs [lits (u "Note"); star ws; colon; star ws];
    seqs [lits (u "说明"); star ws; colon; star ws] ].

Definition marker_patterns : list regex :=
  [ Set_ false (chars (u "*★☆※"));
    Set_ false (chars (u "①②③④⑤⑥⑦⑧⑨⑩"));
    seqs [Lit (ch "["); plus digit; Lit (ch "]")];
    seqs [Lit (ch "("); plus digit; Lit (ch ")")] ].

Definition footnote_style_keywords : list str :=
  [u "footnote"; u "脚注"; u "尾注"; u "note"; u "说明"].

Definition _is_footnote (node : DocNode) : bool :=
  if negb (type_is node (u "text")) then false
  else
    let content := content_of node in
    match content with
    | [] => false
    | _ =>
        let by_content :=
          existsb (fun pattern => re_search true pattern content) start_patterns
          || existsb (fun pattern => re_search false pattern content) marker_patterns in
        match md_style_name (metadata node) with
        | Some sn =>
            let style_name := lower sn in
            if existsb (fun keyword => contains style_name keyword) footnote_style_keywords
            then true
            else by_content
        | None => by_content
        end
    end.

(** *** First pass: which neighbours each anchor claims *)

Definition is_anchor_type (t : str) : bool :=
  str_eqb t (u "image") || str_eqb t (u "table") || str_eqb t (u "equation").

(** The two scoring loops of the tie-break. *)
Definition keyword_score (config : TypeConfig) (content : str) : nat :=
  fold_left (fun score keyword =>
               if startswith content keyword then (score + 2)%nat else score)
            (content_keywords config) 0%nat.

Definition pattern_score (config : TypeConfig) (content : str) (score0 : nat) : nat :=
  fold_left (fun score pattern =>
               if is_Some_b (re_match true pattern content)
               then (score + 3)%nat else score)
            (patterns config) score0.

Definition caption_score (node_type : str) (cand : DocNode) : nat :=
  let config := get_config node_type in
  let content := content_of cand in
  pattern_score config content (keyword_score config content).

(** State of the first pass: [merge_info] and [merged_indices]. *)
Definition plan_state := (gmap nat (option nat * option nat) * gset nat)%type.

Definition prev_caption (nodes : list DocNode) (merged_indices : gset nat)
    (i : nat) (node_type : str) : option nat :=
  if Nat.ltb 0 i then
    match nodes !! (i - 1)%nat with
    | Some prev_node =>
        if type_is prev_node (u "text")
           && bool_decide ((i - 1)%nat ∉ merged_indices)
           && _is_caption prev_node node_type
        then Some (i - 1)%nat else None
    | None => None
    end
  else None.

Definition next_caption (nodes : list DocNode) (merged_indices : gset nat)
    (i : nat) (node_type : str) : option nat :=
  if Nat.ltb (i + 1) (length nodes) then
    match nodes !! (i + 1)%nat with
    | Some next_node =>
        if type_is next_node (u "text")
           && bool_decide ((i + 1)%nat ∉ merged_indices)
           && _is_caption next_node node_type
        then Some (i + 1)%nat else None
    | None => None
    end
  else None.

Definition choose_caption (nodes : list DocNode) (node_type : str)
    (prev_caption_idx next_caption_idx : option nat) : option nat :=
  match prev_caption_idx, next_caption_idx with
  | Some p, Some n =>
      let prev_score := caption_score node_type (default null_node (nodes !! p)) in
      let next_score := caption_score node_type (default null_node (nodes !! n)) in
      if Nat.leb next_score prev_score then Some p else Some n
  | Some p, None => Some p
  | None, Some n => Some n
  | None, None => None
  end.

Definition find_footnote (nodes : list DocNode) (merged_indices : gset nat)
    (i : nat) (caption_idx : option nat) : option nat :=
  let check_start :=
    match caption_idx with
    | Some c => if Nat.ltb i c then (c + 1)%nat else (i + 1)%nat
    | None => (i + 1)%nat
    end in
  if Nat.ltb check_start (length nodes) then
    match nodes !! check_start with
    | Some check_node =>
        if type_is check_node (u "text")
           && bool_decide (check_start ∉ merged_indices)
           && _is_footnote check_node
        then Some check_start else None
    | None => None
    end
  else None.

Definition add_opt (o : option nat) (s : gset nat) : gset nat :=
  match o with
  | Some x => {[x]} ∪ s
  | None => s
  end.

(** One iteration of the first loop, for the node at index [i]. *)
Definition plan_step (nodes : list DocNode) (i : nat) (node : DocNode)
    (st : plan_state) : plan_state :=
  let '(merge_info, merged_indices) := st in
  let node_type := default [] (md_type (metadata node)) in
  if negb (is_anchor_type node_type) then st
  else
    let prev_caption_idx := prev_caption nodes merged_indices i node_type in
    let next_caption_idx := next_caption nodes merged_indices i node_type in
    let caption_idx := choose_caption nodes node_type prev_caption_idx next_caption_idx in
    let footnote_idx := find_footnote nodes merged_indices i caption_idx in
    let merge_info' :=
      match caption_idx, footnote_idx with
      | None, None => merge_info
      | _, _ => <[i := (caption_idx, footnote_idx)]> merge_info
      end in
    (merge_info', add_opt footnote_idx (add_opt caption_idx merged_indices)).

(** [for i, node in enumerate(nodes)], from index [i] on. *)
Fixpoint plan_loop (nodes : list DocNode) (i : nat) (todo : list DocNode)
    (st : plan_state) : plan_state :=
  match todo with
  | [] => st
  | node :: todo' => plan_loop nodes (S i) todo' (plan_step nodes i node st)
  end.

Definition plan (nodes : list DocNode) : plan_state :=
  plan_loop nodes 0 nodes (∅, ∅).

(** *** Second pass: building the result *)

Definition opt_text (o : option DocNode) : str :=
  match o with
  | Some n => content_of n
  | None => []
  end.

Definition nonempty (s : str) : bool :=
  match s with [] => false | _ => true end.

Definition _merge_caption_footnote (save_image : bool) (node : DocNode)
    (caption_node footnote_node : option DocNode) : DocNode :=
  let caption_text := opt_text caption_node in
  let footnote_text := opt_text footnote_node in
  let node_type := default [] (md_type (metadata node)) in
  let md1 :=
    if nonempty caption_text then set_caption node_type caption_text (metadata node)
    else metadata node in
  let new_metadata :=
    if nonempty footnote_text then set_footnote node_type footnote_text md1
    else md1 in
  let text_parts0 : list str :=
    if type_is node (u "image") then
      if save_image then
        let image_path := default [] (md_image_path (metadata node)) in
        if nonempty caption_text
        then [u "![" ++ caption_text ++ u "](" ++ image_path ++ u ")"]
        else [u "![](" ++ image_path ++ u ")"]
      else if nonempty caption_text then [caption_text] else []
    else
      (if nonempty caption_text then [caption_text] else [])
      ++ (if nonempty (text node) then [text node] else []) in
  let text_parts :=
    text_parts0 ++ (if nonempty footnote_text then [footnote_text] else []) in
  mkDocNode (join [NL] text_parts) new_metadata (global_metadata node).

(** [nodes[j]] for an optional index. *)
Definition node_at (h : store) (refs : list addr) (j : option nat) : option DocNode :=
  match j with
  | Some j' => Some (deref h (default 0%nat (refs !! j')))
  | None => None
  end.

(** The second loop, from index [i] on; [result] is the list built so far. *)
Fixpoint merge_loop (save_image : bool) (refs : list addr) (st : plan_state)
    (i : nat) (todo : list addr) (h : store) (result : list addr)
  : store * list addr :=
  match todo with
  | [] => (h, result)
  | a :: todo' =>
      if bool_decide (i ∈ st.2) then merge_loop save_image refs st (S i) todo' h result
      else
        let '(h1, out) :=
          match st.1 !! i with
          | Some (caption_idx, footnote_idx) =>
              alloc h (_merge_caption_footnote save_image (deref h a)
                         (node_at h refs caption_idx) (node_at h refs footnote_idx))
          | None => (h, a)
          end in
        let result' := result ++ [out] in
        let h2 := update h1 out (set_index (Z.of_nat (length result') - 1)) in
        merge_loop save_image refs st (S i) todo' h2 result'
  end.

Definition _parse_nodes (save_image : bool) (h : store) (refs : list addr)
  : store * list addr :=
  match refs with
  | [] => (h, refs)
  | _ =>
      let st := plan (map (deref h) refs) in
      merge_loop save_image refs st 0 refs h []
  end.

(** [forward] *)
Definition forward (save_image : bool) (h : store) (refs : list addr)
  : store * list addr :=
  _parse_nodes save_image h refs.

End Caption.

(** ** layout.py: LayoutNodeParser *)

Module Layout.

Import Caption.

Definition DOT : regex := Set_ false (chars (u ".．")).
Definition CN_NUM : regex :=
  Set_ false (chars (u "一二三四五六七八九十百千万零壹贰叁肆伍陆柒捌玖拾佰仟")).
Definition AR_NUM : regex :=
  Set_ false [CRange (ch "0") (ch "9"); CRange (ch "０") (ch "９")].
Definition LETTER : regex :=
  Set_ false [CRange (ch "a") (ch "z"); CRange (ch "A") (ch "Z")].
Definition SEP_LOOSE : regex := opt ws.
Definition SEP_STRICT : regex := ws.
Definition INVALID_FOLLOW : regex :=
  Set_ true (CDigit :: chars (u ")）]】}")).

(** The content pattern: optional white space, then a group made of one
    character allowed to follow a label and the rest of the line.  The
    group is the [g]-th of the pattern it ends. *)
Definition CONTENT_PATTERN (g : nat) : regex :=
  Seq (star ws) (Group g (Seq INVALID_FOLLOW (star Any))).

(** [^(\s*第\s*{CN_NUM}+\s*([...]))] *)
Definition normal_template (marks : str) : regex :=
  Seq Bol (Group 1 (seqs [star ws; Lit (ch "第"); star ws; plus CN_NUM; star ws;
                          Group 2 (Set_ false (chars marks))])).

Definition NORMAL_TEMPLATES : list (regex * Z) :=
  [ (normal_template (u "篇卷章"), 1%Z);
    (normal_template (u "节"), 2%Z);
    (normal_template (u "条"), 3%Z) ].

Definition LETTER_NUMBER_PATTERN : regex :=
  Seq Bol (Group 1 (seqs [star ws; LETTER; DOT; plus AR_NUM;
                          star (Seq DOT (plus AR_NUM))])).

Definition year_month_day (year month day : regex) : regex :=
  seqs [year; Lit (ch "年"); month; Lit (ch "月"); day; Lit (ch "日")].

Definition western_date : regex :=
  year_month_day (times 4 4 digit) (times 1 2 digit) (times 1 2 digit).

Definition cn_digit : regex := Set_ false (chars (u "一二三四五六七八九十")).

Definition native_date : regex :=
  year_month_day (times 4 4 (Set_ false (chars (u "零○0０〇ＯΟ一二三四五六七八九十"))))
                 (times 1 2 cn_digit) (times 1 3 cn_digit).

(** [.{0,100}?\s*\n\s*(date)\s*\n?$] *)
Definition trailing_date (date : regex) : regex :=
  seqs [Rep false 0 (Some 100%nat) Any; star ws; Lit NL; star ws; Group 1 date;
        star ws; opt (Lit NL); Eol].

(** [^\s*(date)\s*$] *)
Definition lone_date (date : regex) : regex :=
  seqs [Bol; star ws; Group 1 date; star ws; Eol].

Definition date_sep : regex := Set_ false (chars (u ".．-")).

Definition TIME_PATTERNS : list regex :=
  [ trailing_date western_date;
    lone_date western_date;
    trailing_date native_date;
    lone_date native_date;
    lone_date (seqs [times 4 4 digit; date_sep; times 1 2 digit; date_sep;
                     times 1 2 digit]) ].

Definition TOC_PATTERNS : list regex :=
  [ seqs [star Any; Set_ false (chars (u ".．·")); star ws; plus digit; star ws; Eol];
    seqs [Bol; star ws;
          alts [AR_NUM; plus (Set_ false (chars (u "IVX"))); lits (u "附录"); CN_NUM];
          lazy_star Any; plus ws; plus digit; star ws; Eol];
    seqs [Bol; star ws; Lit (ch "《"); lazy_star Any; Lit (ch "》"); lazy_star Any;
          plus ws; plus digit; star ws; Eol] ].

Definition _generate_normal_patterns_with_level : list (regex * Z) :=
  map (fun '(template, level) => (Seq template (CONTENT_PATTERN 3), level))
      NORMAL_TEMPLATES.

(** [num_block * n], the [j]-th copy holding group [g0 + j]. *)
Fixpoint repeat_part (g0 n : nat) : list regex :=
  match n with
  | O => []
  | S n' => Group g0 (seqs [DOT; star ws; times 1 3 AR_NUM]) :: repeat_part (S g0) n'
  end.

Definition number_pattern (level : nat) : regex :=
  match level with
  | 1%nat =>
      Seq (Seq Bol (Group 1 (seqs [star ws; times 1 2 AR_NUM; DOT; SEP_LOOSE])))
          (CONTENT_PATTERN 2)
  | _ =>
      Seq (Seq Bol (Group 1 (seqs ([star ws; times 1 2 AR_NUM]
                                   ++ repeat_part 2 (level - 1) ++ [SEP_LOOSE]))))
          (CONTENT_PATTERN (level + 1))
  end.

Definition _generate_number_patterns_with_level (max_level : nat) : list (regex * Z) :=
  rev (map (fun level => (number_pattern level, Z.of_nat level)) (seq 1 max_level)).

Definition _generate_letter_number_patterns : list regex :=
  [seqs [LETTER_NUMBER_PATTERN; SEP_LOOSE; CONTENT_PATTERN 2]].

Definition NORMAL_PATTERNS_WITH_LEVEL := _generate_normal_patterns_with_level.
Definition NUMBER_PATTERNS_WITH_LEVEL := _generate_number_patterns_with_level 4.
Definition NUMBER_PATTERNS := map fst NUMBER_PATTERNS_WITH_LEVEL.
Definition LETTER_PATTERNS := _generate_letter_number_patterns.

(** [_match] on a node: the first pattern matching the stripped text. *)
Fixpoint _match (node : DocNode) (pats : list regex) : option mobj :=
  match pats with
  | [] => None
  | pattern :: pats' =>
      match re_match false pattern (strip (text node)) with
      | Some mo => Some mo
      | None => _match node pats'
      end
  end.

(** First pattern of a levelled table that matches. *)
Fixpoint first_level (pats : list (regex * Z)) (line : str) : option Z :=
  match pats with
  | [] => None
  | (pattern, level) :: pats' =>
      if is_Some_b (re_match false pattern line) then Some level
      else first_level pats' line
  end.

(** The level computed from a match of the letter pattern. *)
Definition letter_level (mo : mobj) : Z :=
  let index_str := strip (default [] (group mo.2 1)) in
  let index_str := re_sub_empty (Seq DOT Eol) index_str in
  let segments := re_split DOT index_str in
  Z.of_nat (length (filter (fun s => nonempty (strip s) = true) segments)).

Fixpoint first_letter (pats : list regex) (line : str) : option Z :=
  match pats with
  | [] => None
  | pattern :: pats' =>
      match re_match false pattern line with
      | Some mo => Some (letter_level mo)
      | None => first_letter pats' line
      end
  end.

Definition _calculate_level_by_regex (txt : str) : Z :=
  match txt with
  | [] => 0%Z
  | _ =>
      let txt := strip txt in
      let first_line := strip (hd [] (split_nl txt)) in
      match first_level NUMBER_PATTERNS_WITH_LEVEL first_line with
      | Some level => level
      | None =>
          match first_letter LETTER_PATTERNS first_line with
          | Some level => level
          | None =>
              match first_level NORMAL_PATTERNS_WITH_LEVEL first_line with
              | Some level => level
              | None => 0%Z
              end
          end
      end
  end.

(** [int(node.metadata.get("text_level", 0))] *)
Definition text_level_of (node : DocNode) : Z :=
  default 0%Z (md_text_level (metadata node)).

(** The body of the loop of [_parse_nodes] for one node object. *)
Definition parse_node (h : store) (a : addr) : store :=
  let node := deref h a in
  if (1 <? text_level_of node)%Z then h
  else if is_Some_b (_match node (TIME_PATTERNS ++ TOC_PATTERNS))
  then update h a (set_text_level 0)
  else if (text_level_of node =? 1)%Z && type_is node (u "text") then
    let regex_level := _calculate_level_by_regex (text node) in
    if (0 <? regex_level)%Z then update h a (set_text_level regex_level) else h
  else h.

Fixpoint parse_loop (todo : list addr) (h : store) (result : list addr)
  : store * list addr :=
  match todo with
  | [] => (h, result)
  | a :: todo' => parse_loop todo' (parse_node h a) (result ++ [a])
  end.

Definition _parse_nodes (h : store) (nodes : list addr) : store * list addr :=
  parse_loop nodes h [].

Fixpoint reset_loop (index : nat) (todo : list addr) (h : store) (result : list addr)
  : store * list addr :=
  match todo with
  | [] => (h, result)
  | a :: todo' =>
      reset_loop (S index) todo' (update h a (set_index (Z.of_nat index))) (result ++ [a])
  end.

Definition _reset_node_index (h : store) (nodes : list addr) : store * list addr :=
  reset_loop 0 nodes h [].

(** [sorted(l, key=...)]: a stable sort. *)
Section Sorted.
Context {A K : Type} (leb : K -> K -> bool) (key : A -> K).

Fixpoint insert_sorted (x : A) (l : list A) : list A :=
  match l with
  | [] => [x]
  | y :: l' => if leb (key x) (key y) then x :: l else y :: insert_sorted x l'
  end.

Definition sorted (l : list A) : list A := foldr insert_sorted [] l.
End Sorted.

(** [itertools.groupby]: maximal runs of equal keys. *)
Fixpoint groupby {A K} (eqb : K -> K -> bool) (key : A -> K) (l : list A)
  : list (list A) :=
  match l with
  | [] => []
  | x :: l' =>
      match groupby eqb key l' with
      | (y :: g) :: gs =>
          if eqb (key x) (key y) then (x :: y :: g) :: gs else [x] :: (y :: g) :: gs
      | _ => [[x]]
      end
  end.

(** Order of Python strings: by code points, a prefix first. *)
Fixpoint str_leb (a b : str) : bool :=
  match a, b with
  | [], _ => true
  | _ :: _, [] => false
  | x :: a', y :: b' => (x <? y) || ((x =? y) && str_leb a' b')
  end.

Definition file_name_of (h : store) (a : addr) : str :=
  default [] (md_file_name (metadata (deref h a))).

Definition index_of (h : store) (a : addr) : Z :=
  default 0%Z (md_index (metadata (deref h a))).

(** One group of [forward]: sort by index, parse, collect. *)
Definition forward_group (acc : store * list addr) (group : list addr)
  : store * list addr :=
  let '(h, result_nodes) := acc in
  let grouped_nodes := sorted Z.leb (index_of h) group in
  let '(h', _parsed_nodes) := _parse_nodes h grouped_nodes in
  (h', result_nodes ++ _parsed_nodes).

Definition forward (h : store) (document : list addr) : store * list addr :=
  let nodes := sorted str_leb (file_name_of h) document in
  let groups := groupby str_eqb (file_name_of h) nodes in
  let '(h', result_nodes) := fold_left forward_group groups (h, []) in
  _reset_node_index h' result_nodes.

End Layout.

(** ** Vocabulary of the statements *)

Module Terms.

Import Caption.

(** What one anchor claims. *)
Abbreviation claim := (option nat * option nat)%type.

(** Index [x] is consumed by an anchor whose recorded pair is [e]. *)
Definition claims (x : nat) (e : claim) : Prop := e.1 = Some x \/ e.2 = Some x.

Definition captions_merged (merge_info : gmap nat claim) : nat :=
  length (filter (fun kv : nat * claim => is_Some kv.2.1) (map_to_list merge_info)).

Definition footnotes_merged (merge_info : gmap nat claim) : nat :=
  length (filter (fun kv : nat * claim => is_Some kv.2.2) (map_to_list merge_info)).

(** The state of the first pass when it reaches index [i]. *)
Definition state_before (nodes : list DocNode) (i : nat) : plan_state :=
  plan_loop nodes 0 (take i nodes) (∅, ∅).

(** Input indices, in order, that no anchor has claimed. *)
Definition kept_indices (st : plan_state) (n : nat) : list nat :=
  filter (fun k => k ∉ st.2) (seq 0 n).

(** Where an output block comes from: the input object itself, or a
    merged node allocated during the run on a store that had [n0] objects. *)
Definition origin (n0 : nat) (refs : list addr) (st : plan_state) (k : nat) (a : addr)
  : Prop :=
  match st.1 !! k with
  | None => refs !! k = Some a
  | Some _ => (n0 <= a)%nat
  end.

(** The [index] entries of a node list read 0, 1, 2, ... *)
Definition positions_dense (h : store) (out : list addr) : Prop :=
  forall k a, out !! k = Some a ->
    md_index (metadata (deref h a)) = Some (Z.of_nat k).

(** Position of the last occurrence of [b] in a node list. *)
Fixpoint last_pos (b : addr) (l : list addr) : option nat :=
  match l with
  | [] => None
  | a :: l' =>
      match last_pos b l' with
      | Some k => Some (S k)
      | None => if decide (a = b) then Some 0%nat else None
      end
  end.

(** The score of a caption candidate as a count: two points for each
    content keyword the content starts with, three for each numbering
    pattern that matches at its start. *)
Definition score_by_count (config : TypeConfig) (content : str) : nat :=
  (2 * length (filter (fun keyword => startswith content keyword = true)
                      (content_keywords config))
   + 3 * length (filter (fun pattern => is_Some_b (re_match true pattern content) = true)
                        (patterns config)))%nat.

(** The score as the specification words it: two points if the content
    starts with a content keyword, three if it matches a numbering pattern
    at its start. *)
Definition score_as_specified (config : TypeConfig) (content : str) : nat :=
  ((if existsb (fun keyword => startswith content keyword) (content_keywords config)
    then 2 else 0)
   + (if existsb (fun pattern => is_Some_b (re_match true pattern content))
                 (patterns config)
      then 3 else 0))%nat.

(** *** Numbering labels, in words

    The shape of a numbering label and of what may follow it, written
    without patterns. *)

Definition is_ar_digit (c : N) : bool :=
  ((48 <=? c) && (c <=? 57)) || ((65296 <=? c) && (c <=? 65305)).

Definition is_dot (c : N) : bool := (c =? 46) || (c =? 65294).

Definition is_letter (c : N) : bool :=
  ((97 <=? c) && (c <=? 122)) || ((65 <=? c) && (c <=? 90)).

(** Neither a decimal digit nor a closing bracket. *)
Definition may_follow (c : N) : bool :=
  negb (is_decimal c) && negb (existsb (N.eqb c) (u ")）]】}")).

Definition spaces (s : str) : Prop := Forall (fun c => is_space c = true) s.

Definition digit_run (s : str) : Prop := Forall (fun c => is_ar_digit c = true) s.

Definition digits (lo hi : nat) (s : str) : Prop :=
  digit_run s /\ (lo <= length s <= hi)%nat.

Definition opt_space (s : str) : Prop := spaces s /\ (length s <= 1)%nat.

(** A dot, optional white space, one to three digits. *)
Definition numeric_group (g : str) : Prop :=
  exists d sp ds, g = d :: sp ++ ds /\ is_dot d = true /\ spaces sp /\ digits 1 3 ds.

(** The label of decimal numbering of a given depth: one or two digits,
    then a dot alone at depth 1, or [depth - 1] numeric groups. *)
Definition decimal_label (depth : nat) (label : str) : Prop :=
  exists sp first tail sep,
    label = sp ++ first ++ tail ++ sep /\
    spaces sp /\ digits 1 2 first /\ opt_space sep /\
    match depth with
    | 1%nat => exists d, tail = [d] /\ is_dot d = true
    | _ => exists groups, tail = concat groups /\ length groups = (depth - 1)%nat /\
                          Forall numeric_group groups
    end.

(** After the label: optional white space, then a character that may
    follow. *)
Definition content_follows (rest : str) : Prop :=
  exists sp c rest', rest = sp ++ c :: rest' /\ spaces sp /\ may_follow c = true.

(** After the label: the end of the line, or a character that may follow. *)
Definition end_or_content (rest : str) : Prop :=
  rest = [] \/ exists c rest', rest = c :: rest' /\ may_follow c = true.

Definition decimal_heading (follow : str -> Prop) (depth : nat) (line : str) : Prop :=
  exists label rest, line = label ++ rest /\ decimal_label depth label /\ follow rest.

(** [d] is the deepest of the depths 1 to 4 that has [P]. *)
Definition deepest (P : nat -> Prop) (d : nat) : Prop :=
  (1 <= d <= 4)%nat /\ P d /\ forall d', (d < d' <= 4)%nat -> ~ P d'.

(** A dot and one or more digits. *)
Definition dotted_number (g : str) : Prop :=
  exists d ds, g = d :: ds /\ is_dot d = true /\ digit_run ds /\ ds <> [].

(** A letter label with [n] numeric groups. *)
Definition letter_label (n : nat) (label : str) : Prop :=
  exists sp l groups,
    label = sp ++ l :: concat groups /\
    spaces sp /\ is_letter l = true /\
    length groups = n /\ (1 <= n)%nat /\ Forall dotted_number groups.

Definition letter_heading (follow : str -> Prop) (line : str) : Prop :=
  exists n label rest, line = label ++ rest /\ letter_label n label /\ follow rest.

(** The pieces of a string between its dots. *)
Fixpoint split_dots (s : str) : list str :=
  match s with
  | [] => [[]]
  | c :: s' =>
      if is_dot c then [] :: split_dots s'
      else match split_dots s' with
           | l :: ls => (c :: l) :: ls
           | [] => [[c]]
           end
  end.

(** Number of non-empty pieces between the dots of a label. *)
Definition segment_count (label : str) : nat :=
  length (filter (fun s => s <> []) (split_dots label)).

(** The first line of a block of text, as the level computation reads it. *)
Definition first_line (txt : str) : str := strip (hd [] (split_nl (strip txt))).

(** *** Ordinal headings, in words *)

(** A Chinese numeral of the ordinal patterns. *)
Definition is_cn_num (c : N) : bool :=
  existsb (N.eqb c) (u "一二三四五六七八九十百千万零壹贰叁肆伍陆柒捌玖拾佰仟").

(** The ordinal sign, one or more Chinese numerals and one of [marks], with
    optional white space before each. *)
Definition ordinal_label (marks : str) (label : str) : Prop :=
  exists sp1 sp2 nums sp3 mark,
    label = sp1 ++ ch "第" :: sp2 ++ nums ++ sp3 ++ [mark] /\
    spaces sp1 /\ spaces sp2 /\ spaces sp3 /\
    Forall (fun c => is_cn_num c = true) nums /\ nums <> [] /\
    existsb (N.eqb mark) marks = true.

Definition ordinal_heading (marks : str) (line : str) : Prop :=
  exists label rest, line = label ++ rest /\ ordinal_label marks label
                     /\ content_follows rest.

(** *** What a run may change in a node *)

(** Two nodes that differ at most in their [index]. *)
Definition same_but_index (n n' : DocNode) : Prop :=
  text n' = text n /\ global_metadata n' = global_metadata n /\
  set_index 0 (metadata n') = set_index 0 (metadata n).

(** Two nodes that differ at most in their [text_level] and [index]. *)
Definition same_but_level_and_index (n n' : DocNode) : Prop :=
  text n' = text n /\ global_metadata n' = global_metadata n /\
  set_text_level 0 (set_index 0 (metadata n'))
  = set_text_level 0 (set_index 0 (metadata n)).

(** The [text_level] entry that one visit of the loop of
    [LayoutNodeParser._parse_nodes] leaves on a node. *)
Definition level_after (n : DocNode) : option Z :=
  if (1 <? Layout.text_level_of n)%Z then md_text_level (metadata n)
  else if is_Some_b (Layout._match n (Layout.TIME_PATTERNS ++ Layout.TOC_PATTERNS))
  then Some 0%Z
  else if (Layout.text_level_of n =? 1)%Z && type_is n (u "text") then
    let regex_level := Layout._calculate_level_by_regex (text n) in
    if (0 <? regex_level)%Z then Some regex_level else md_text_level (metadata n)
  else md_text_level (metadata n).

(** The block that the second pass of [CaptionFootnoteParser._parse_nodes]
    emits for input index [k], before its [index] is written: the merged
    node of an anchor with an entry in [merge_info], the input node itself
    otherwise. *)
Definition emitted (save_image : bool) (h : store) (refs : list addr)
    (st : plan_state) (k : nat) : DocNode :=
  let node := deref h (default 0%nat (refs !! k)) in
  match st.1 !! k with
  | Some (caption_idx, footnote_idx) =>
      _merge_caption_footnote save_image node
        (node_at h refs caption_idx) (node_at h refs footnote_idx)
  | None => node
  end.

(** The order of the output of [LayoutNodeParser.forward]: by file name,
    and by [index] within one file. *)
Definition file_then_index (h : store) (a b : addr) : Prop :=
  Layout.str_leb (Layout.file_name_of h a) (Layout.file_name_of h b) = true
  /\ (Layout.file_name_of h a = Layout.file_name_of h b ->
      (Layout.index_of h a <= Layout.index_of h b)%Z).

(** Equal up to the case of letters, as the [re] module compares literal
    characters under IGNORECASE. *)
Definition same_letters (a b : str) : Prop :=
  Forall2 (fun c x => lit_match true c x = true) a b.

End Terms.
Export Terms.

(** ** Invariants of the loops *)

Module Invariants.

Import Caption.

(** A text node at [x] that is still free. *)
Definition free_text (nodes : list DocNode) (cl : gset nat) (x : nat) : Prop :=
  x ∉ cl /\ (x < length nodes)%nat /\
  exists n, nodes !! x = Some n /\ type_is n (u "text") = true.

(** What one iteration records for an anchor at [i]. *)
Definition step_claim (nodes : list DocNode) (cl : gset nat) (i : nat)
    (c f : option nat) : Prop :=
  (forall x, c = Some x ->
     ((x + 1 = i)%nat \/ x = (i + 1)%nat) /\ free_text nodes cl x)
  /\ (forall y, f = Some y ->
        (y = (i + 1)%nat \/ (y = (i + 2)%nat /\ c = Some (i + 1)%nat))
        /\ free_text nodes cl y /\ c <> Some y).

(** An entry of [merge_info] keyed by [j]: a caption next to its anchor, a
    footnote one or two places after it, both in range, never the same
    index, and an anchor at [j]. *)
Definition entry_ok (nodes : list DocNode) (j : nat) (e : claim) : Prop :=
  (forall x, e.1 = Some x ->
     ((x + 1 = j)%nat \/ x = (j + 1)%nat) /\ (x < length nodes)%nat)
  /\ (forall y, e.2 = Some y ->
        (y = (j + 1)%nat \/ (y = (j + 2)%nat /\ e.1 = Some (j + 1)%nat))
        /\ (y < length nodes)%nat /\ e.1 <> Some y)
  /\ e <> (None, None)
  /\ exists node, nodes !! j = Some node
       /\ is_anchor_type (default [] (md_type (metadata node))) = true.

(** The invariant of the first loop on reaching index [i]: entries are
    keyed by indices already visited and are well formed; [merged_indices]
    is exactly what the entries claim; no index is claimed by two anchors;
    what is claimed is a text node. *)
Definition plan_inv (nodes : list DocNode) (i : nat) (st : plan_state) : Prop :=
  (forall j e, st.1 !! j = Some e -> (j < i)%nat /\ entry_ok nodes j e)
  /\ (forall x, x ∈ st.2 <-> exists j e, st.1 !! j = Some e /\ claims x e)
  /\ (forall j1 j2 e1 e2 x,
        st.1 !! j1 = Some e1 -> st.1 !! j2 = Some e2 ->
        claims x e1 -> claims x e2 -> j1 = j2)
  /\ (forall x, x ∈ st.2 ->
        exists n, nodes !! x = Some n /\ type_is n (u "text") = true).

Definition count_inv (nodes : list DocNode) (i : nat) (st : plan_state) : Prop :=
  plan_inv nodes i st
  /\ size st.2 = (captions_merged st.1 + footnotes_merged st.1)%nat.

(** One emitted block: the store after it and its address. *)
Definition emit (save_image : bool) (refs : list addr) (st : plan_state)
    (i : nat) (a : addr) (h : store) : store * addr :=
  match st.1 !! i with
  | Some (caption_idx, footnote_idx) =>
      alloc h (_merge_caption_footnote save_image (deref h a)
                 (node_at h refs caption_idx) (node_at h refs footnote_idx))
  | None => (h, a)
  end.

(** The result built so far: numbered 0, 1, ..., made of distinct objects,
    each an input object already visited or a node allocated by the run. *)
Definition dense_inv (refs : list addr) (n0 : nat) (i : nat) (h : store)
    (result : list addr) : Prop :=
  positions_dense h result
  /\ NoDup result
  /\ (n0 <= length h)%nat
  /\ forall a, a ∈ result ->
       (a < length h)%nat
       /\ ((n0 <= a)%nat \/ exists k, (k < i)%nat /\ refs !! k = Some a).

(** Every object of the result carries the position of its last
    occurrence. *)
Definition last_inv (n0 : nat) (h : store) (result : list addr) : Prop :=
  (n0 <= length h)%nat
  /\ forall a k, last_pos a result = Some k ->
       (a < length h)%nat
       /\ md_index (metadata (deref h a)) = Some (Z.of_nat k).

(** What a matcher that succeeds has done: consumed a word of [P], then
    called its continuation, with the groups outside [gs] untouched. *)
Definition sound_for {R : Type} (body : @matcher R) (P : str -> str -> Prop)
    (gs : list nat) : Prop :=
  forall s c k res, body s c k = Some res ->
    exists w rest c', s = w ++ rest /\ P w rest /\ k rest c' = Some res /\
      (forall i, i ∉ gs -> group c' i = group c i).

(** A matcher succeeds on every word of [P] whose continuation succeeds. *)
Definition complete_for {R : Type} (body : @matcher R) (P : str -> str -> Prop) : Prop :=
  forall w rest c k, P w rest -> (forall c', is_Some (k rest c')) ->
    is_Some (body (w ++ rest) c k).

(** A later store: nothing removed, and the objects of [h] changed at most
    in their [index]. *)
Definition extends_but_index (h h' : store) : Prop :=
  (length h <= length h')%nat
  /\ forall b, (b < length h)%nat -> same_but_index (deref h b) (deref h' b).

(** What the first pass has recorded qualifies: the caption passed
    [_is_caption] for the type of the anchor, the footnote passed
    [_is_footnote]. *)
Definition entry_qualifies (nodes : list DocNode) (j : nat) (e : claim) : Prop :=
  exists node, nodes !! j = Some node
    /\ (forall x, e.1 = Some x ->
          exists n, nodes !! x = Some n
            /\ _is_caption n (default [] (md_type (metadata node))) = true)
    /\ (forall y, e.2 = Some y ->
          exists n, nodes !! y = Some n /\ _is_footnote n = true).

(** The order in which [LayoutNodeParser.forward] visits and returns the
    blocks: sorted by file name, cut into runs of one file name, each run
    sorted by [index]. *)
Definition visit_order (h : store) (document : list addr) : list addr :=
  concat (map (Layout.sorted Z.leb (Layout.index_of h))
              (Layout.groupby str_eqb (Layout.file_name_of h)
                 (Layout.sorted Layout.str_leb (Layout.file_name_of h) document))).

End Invariants.
Export Invariants.

(** ** Sample documents *)

Module Samples.

Definition node_of (ty : string) (content : string) (level : option Z)
    (path : option str) : DocNode :=
  mkDocNode (u content)
    (mkMetadata (Some (u ty)) None level None None path
                None None None None None None None)
    [].

Definition txt (content : string) : DocNode := node_of "text" content None None.
Definition heading (content : string) (level : Z) : DocNode :=
  node_of "text" content (Some level) None.
Definition img (path : string) : DocNode := node_of "image" "" None (Some (u path)).
Definition tbl (content : string) : DocNode := node_of "table" content None None.

(** A figure with its caption before it and body text after it. *)
Definition h_cat : store :=
  [txt "Figure 1. A cat"; img "a.png"; txt "plain body text"].

(** A table with a caption before it and a note after it. *)
Definition h_tbl : store :=
  [txt "Table 1 Results"; tbl "a|b"; txt "注：数据来源于年度报告"].

(** Two caption-like lines before one figure. *)
Definition h_two : store :=
  [txt "Figure 1 a"; txt "Figure 2 b"; img "a.png"].

(** A figure between two caption candidates. *)
Definition h_tie : store :=
  [txt "fig. 1 x"; img "a.png"; txt "figure 2 y"].

(** A date line at heading level 1 and at heading level 2. *)
Definition h_date : store :=
  [heading "2024年3月5日" 1; heading "2024年3月5日" 2].

(** One object, to be listed twice. *)
Definition h_one : store := [txt "body"].

(** Headings at level 1 that carry a numbering label. *)
Definition h_scope : store := [heading "1.2 Scope" 1].
Definition h_appendix : store := [heading "A.1.2 Appendix detail" 1].

(** A label alone on the first line of a block at heading level 1. *)
Definition two_lines (first second : string) : DocNode :=
  mkDocNode (u first ++ NL :: u second)
    (mkMetadata (Some (u "text")) None (Some 1%Z) None None None
                None None None None None None None)
    [].
Definition h_bare : store := [two_lines "1.2" "Scope"].
Definition h_bare_letter : store := [two_lines "A.1" "Appendix"].

End Samples.
Export Samples.

Local Close Scope N_scope.

Import Caption.

(** * Properties of the first pass of CaptionFootnoteParser *)

Section PlanFacts.
Variable nodes : list DocNode.


Lemma prev_caption_Some cl i t x :
  prev_caption nodes cl i t = Some x ->
  (x + 1 = i)%nat /\ free_text nodes cl x /\
  exists n, nodes !! x = Some n /\ _is_caption n t = true.
Proof.
  unfold prev_caption, free_text. destruct (Nat.ltb_spec 0 i) as [Hi|]; [|done].
  destruct (nodes !! (i - 1)%nat) as [n|] eqn:Hn; [|done].
  destruct (type_is n (u "text")) eqn:Ht; [|done].
  destruct (bool_decide_reflect ((i - 1)%nat ∉ cl)) as [Hc|]; [|done].
  destruct (_is_caption n t) eqn:Hcap; [|done].
  simpl. intros [= <-]. split; [lia|]. split; [|eauto].
  split; [done|]. split; [by eapply lookup_lt_Some|]. eauto.
Qed.

Lemma next_caption_Some cl i t x :
  next_caption nodes cl i t = Some x ->
  x = (i + 1)%nat /\ free_text nodes cl x /\
  exists n, nodes !! x = Some n /\ _is_caption n t = true.
Proof.
  unfold next_caption, free_text.
  destruct (Nat.ltb_spec (i + 1) (length nodes)) as [Hi|]; [|done].
  destruct (nodes !! (i + 1)%nat) as [n|] eqn:Hn; [|done].
  destruct (type_is n (u "text")) eqn:Ht; [|done].
  destruct (bool_decide_reflect ((i + 1)%nat ∉ cl)) as [Hc|]; [|done].
  destruct (_is_caption n t) eqn:Hcap; [|done].
  simpl. intros [= <-]. eauto 10.
Qed.

Lemma choose_caption_Some t p n x :
  choose_caption nodes t p n = Some x -> p = Some x \/ n = Some x.
Proof.
  unfold choose_caption. destruct p, n; try destruct (Nat.leb _ _); naive_solver.
Qed.

Lemma find_footnote_Some cl i c y :
  find_footnote nodes cl i c = Some y ->
  y = (match c with
       | Some c' => if Nat.ltb i c' then c' + 1 else i + 1
       | None => i + 1
       end)%nat
  /\ free_text nodes cl y /\ exists n, nodes !! y = Some n /\ _is_footnote n = true.
Proof.
  unfold find_footnote, free_text.
  set (cs := match c with Some c' => if Nat.ltb i c' then _ else _ | None => _ end).
  destruct (Nat.ltb_spec cs (length nodes)) as [Hi|]; [|done].
  destruct (nodes !! cs) as [n|] eqn:Hn; [|done].
  destruct (type_is n (u "text")) eqn:Ht; [|done].
  destruct (bool_decide_reflect (cs ∉ cl)) as [Hc|]; [|done].
  destruct (_is_footnote n) eqn:Hf; [|done].
  simpl. intros [= <-]. eauto 10.
Qed.


Lemma plan_step_spec i node mi cl :
  plan_step nodes i node (mi, cl) = (mi, cl)
  \/ exists c f,
       is_anchor_type (default [] (md_type (metadata node))) = true
       /\ plan_step nodes i node (mi, cl)
          = (if decide ((c, f) = (None, None)) then mi else <[i := (c, f)]> mi,
             add_opt f (add_opt c cl))
       /\ step_claim nodes cl i c f.
Proof.
  unfold plan_step.
  destruct (is_anchor_type _) eqn:Ha; simpl; [right|by left].
  set (t := default [] (md_type (metadata node))).
  set (c := choose_caption nodes t _ _).
  set (f := find_footnote nodes cl i c).
  exists c, f. split; [done|]. split; [by destruct c, f|].
  split.
  - intros x Hx. subst c. apply choose_caption_Some in Hx as [Hx|Hx].
    + apply prev_caption_Some in Hx. naive_solver.
    + apply next_caption_Some in Hx. naive_solver.
  - intros y Hy. subst f. apply find_footnote_Some in Hy as (Hy & Hfree & _).
    assert (Hc : forall x, c = Some x -> (x + 1 = i)%nat \/ x = (i + 1)%nat).
    { intros x Hx. subst c. apply choose_caption_Some in Hx as [Hx|Hx].
      - apply prev_caption_Some in Hx. naive_solver.
      - apply next_caption_Some in Hx. naive_solver. }
    destruct c as [x|]; [|split; [by left|done]].
    destruct (Hc x eq_refl) as [Hx|Hx].
    + destruct (Nat.ltb_spec i x); [lia|]. split; [by left|].
      split; [done|]. intros [= ->]. lia.
    + destruct (Nat.ltb_spec i x); [|lia]. subst x.
      split; [right; split; [lia|done]|]. split; [done|]. intros [= ?]. lia.
Qed.

(** Induction along the first loop. *)
Lemma plan_loop_ind (P : nat -> plan_state -> Prop) :
  (forall j node st, nodes !! j = Some node -> P j st ->
                     P (S j) (plan_step nodes j node st)) ->
  forall todo i st, drop i nodes = todo -> (i <= length nodes)%nat -> P i st ->
    P (length nodes) (plan_loop nodes i todo st).
Proof.
  intros Hstep todo. induction todo as [|node todo IH]; intros i st Hdrop Hle HP; simpl.
  - assert (i = length nodes) as <-; [|done].
    apply (f_equal length) in Hdrop. rewrite length_drop in Hdrop. simpl in Hdrop. lia.
  - assert (nodes !! i = Some node) as Hi.
    { rewrite <-(Nat.add_0_r i), <-lookup_drop, Hdrop. done. }
    apply IH.
    + rewrite (drop_S _ _ _ Hi) in Hdrop. by injection Hdrop.
    + apply lookup_lt_Some in Hi. lia.
    + by apply Hstep.
Qed.



Lemma elem_of_add_opt o (s : gset nat) x :
  x ∈ add_opt o s <-> o = Some x \/ x ∈ s.
Proof.
  destruct o as [y|]; simpl.
  - rewrite elem_of_union, elem_of_singleton. split.
    + intros [->|?]; auto.
    + intros [[= ->]|?]; auto.
  - split; [auto|]. by intros [?|?].
Qed.

Lemma plan_inv_mono j st : plan_inv nodes j st -> plan_inv nodes (S j) st.
Proof.
  intros (I1 & I2 & I3 & I4). split; [|done].
  intros k e He. apply I1 in He as [? ?]. split; [lia|done].
Qed.

Lemma plan_inv_step j node st :
  nodes !! j = Some node -> plan_inv nodes j st -> plan_inv nodes (S j) (plan_step nodes j node st).
Proof.
  intros Hj. destruct st as [mi cl]. intros Hinv.
  destruct (plan_step_spec j node mi cl) as [->|(c & f & Hanchor & -> & Hc & Hf)].
  { by apply plan_inv_mono. }
  pose proof Hinv as (I1 & I2 & I3 & I4). simpl in I1, I2, I3, I4.
  assert (Hfresh : mi !! j = None).
  { destruct (mi !! j) as [e|] eqn:He; [|done]. apply I1 in He. lia. }
  assert (Hnew : forall x, claims x (c, f) -> x ∉ cl
                 /\ exists n, nodes !! x = Some n /\ type_is n (u "text") = true).
  { intros x [Hx|Hx]; simpl in Hx.
    - destruct (Hc x Hx) as (_ & ? & ? & ?). done.
    - destruct (Hf x Hx) as (_ & (? & ? & ?) & _). done. }
  assert (Hok : (c, f) <> (None, None) -> entry_ok nodes j (c, f)).
  { intros Hne. split; [|split; [|split; [done|eauto]]]; simpl.
    - intros x Hx. destruct (Hc x Hx) as (? & _ & ? & _). done.
    - intros y Hy. destruct (Hf y Hy) as (? & (_ & ? & _) & ?). done. }
  assert (Hcl : forall x, x ∈ add_opt f (add_opt c cl) <-> claims x (c, f) \/ x ∈ cl).
  { intros x. rewrite !elem_of_add_opt. unfold claims. simpl. tauto. }
  destruct (decide ((c, f) = (None, None))) as [Heq|Hne].
  { injection Heq as -> ->. simpl. by apply plan_inv_mono. }
  unfold plan_inv. simpl.
  split; [|split; [|split]].
  - intros k e. rewrite lookup_insert. case_decide as Hk.
    + intros [= <-]. subst k. split; [lia|]. by apply Hok.
    + intros He. apply I1 in He as [? ?]. split; [lia|done].
  - intros x. rewrite Hcl. split.
    + intros [Hx|Hx].
      * exists j, (c, f). by rewrite lookup_insert_eq.
      * apply I2 in Hx as (k & e & He & Hx). exists k, e.
        rewrite lookup_insert_ne; [done|]. intros ->. rewrite Hfresh in He. done.
    + intros (k & e & He & Hx). revert He. rewrite lookup_insert.
      case_decide as Hk.
      * intros [= <-]. by left.
      * intros He. right. apply I2. eauto.
  - intros j1 j2 e1 e2 x. rewrite !lookup_insert.
    case_decide as H1; case_decide as H2; subst.
    + done.
    + intros [= <-] He2 Hx1 Hx2. apply Hnew in Hx1 as [Hx1 _].
      exfalso. apply Hx1. apply I2. eauto.
    + intros He1 [= <-] Hx1 Hx2. apply Hnew in Hx2 as [Hx2 _].
      exfalso. apply Hx2. apply I2. eauto.
    + apply I3.
  - intros x. rewrite Hcl. intros [Hx|Hx].
    + by apply Hnew.
    + by apply I4.
Qed.

Lemma plan_inv_init : plan_inv nodes 0 (∅, ∅).
Proof.
  split; [|split; [|split]]; simpl.
  - intros j e He. by rewrite lookup_empty in He.
  - intros x. split.
    + intros Hx. by apply elem_of_empty in Hx.
    + intros (j & e & He & _). by rewrite lookup_empty in He.
  - intros j1 j2 e1 e2 x He. by rewrite lookup_empty in He.
  - intros x Hx. by apply elem_of_empty in Hx.
Qed.

Lemma plan_inv_final : plan_inv nodes (length nodes) (plan nodes).
Proof.
  unfold plan. apply (plan_loop_ind (plan_inv nodes)).
  - intros. by apply plan_inv_step.
  - done.
  - lia.
  - apply plan_inv_init.
Qed.
End PlanFacts.

(** ** Counting what the first pass claims *)

Lemma captions_merged_insert (mi : gmap nat claim) j e :
  mi !! j = None ->
  captions_merged (<[j := e]> mi)
  = ((if e.1 is Some _ then 1 else 0) + captions_merged mi)%nat.
Proof.
  intros Hj. unfold captions_merged.
  rewrite (map_to_list_insert mi j e Hj).
  destruct e as [[x|] f].
  - rewrite filter_cons_True; [done|]. simpl. by eexists.
  - rewrite filter_cons_False; [done|]. simpl. by intros [? ?].
Qed.

Lemma footnotes_merged_insert (mi : gmap nat claim) j e :
  mi !! j = None ->
  footnotes_merged (<[j := e]> mi)
  = ((if e.2 is Some _ then 1 else 0) + footnotes_merged mi)%nat.
Proof.
  intros Hj. unfold footnotes_merged.
  rewrite (map_to_list_insert mi j e Hj).
  destruct e as [c [y|]].
  - rewrite filter_cons_True; [done|]. simpl. by eexists.
  - rewrite filter_cons_False; [done|]. simpl. by intros [? ?].
Qed.

Lemma size_add_opt o (s : gset nat) :
  (forall x, o = Some x -> x ∉ s) ->
  size (add_opt o s) = ((if o is Some _ then 1 else 0) + size s)%nat.
Proof.
  intros Hx. destruct o as [x|]; simpl; [|done].
  rewrite size_union, size_singleton; [done|].
  apply disjoint_singleton_l. by apply Hx.
Qed.

Section PlanCount.
Variable nodes : list DocNode.


Lemma count_inv_step j node st :
  nodes !! j = Some node -> count_inv nodes j st ->
  count_inv nodes (S j) (plan_step nodes j node st).
Proof.
  intros Hj [Hinv Hsz]. split; [by apply plan_inv_step|].
  destruct st as [mi cl]. simpl in Hsz.
  destruct (plan_step_spec nodes j node mi cl) as [->|(c & f & _ & -> & Hc & Hf)];
    [done|].
  simpl.
  assert (Hfresh : mi !! j = None).
  { destruct (mi !! j) as [e|] eqn:He; [|done].
    apply Hinv in He as [? _]. simpl in *. lia. }
  rewrite size_add_opt, size_add_opt, Hsz.
  - destruct (decide ((c, f) = (None, None))) as [[= -> ->]|Hne]; [done|].
    rewrite captions_merged_insert, footnotes_merged_insert by done. simpl.
    destruct c, f; lia.
  - intros x Hx. by apply Hc.
  - intros y Hy. rewrite elem_of_add_opt.
    destruct (Hf y Hy) as (_ & (Hfree & _) & Hne). by intros [?|?].
Qed.

Lemma count_inv_final : count_inv nodes (length nodes) (plan nodes).
Proof.
  unfold plan. apply (plan_loop_ind nodes (count_inv nodes)).
  - intros. by apply count_inv_step.
  - done.
  - lia.
  - split; [apply plan_inv_init|]. done.
Qed.
End PlanCount.

(** ** The object store *)

Lemma length_update h a f : length (update h a f) = length h.
Proof. unfold update. apply length_alter. Qed.

Lemma deref_update_ne h a b f : a <> b -> deref (update h a f) b = deref h b.
Proof. intros Hne. unfold deref, update. by rewrite list_lookup_alter_ne. Qed.

Lemma deref_update_eq h a f :
  (a < length h)%nat -> deref (update h a f) a = with_metadata f (deref h a).
Proof.
  intros Hlt. unfold deref, update. rewrite list_lookup_alter.
  rewrite decide_True by done.
  destruct (h !! a) as [n|] eqn:E; [done|]. apply lookup_ge_None in E. lia.
Qed.

Lemma deref_alloc_old h n b : (b < length h)%nat -> deref (h ++ [n]) b = deref h b.
Proof. intros Hlt. unfold deref. by rewrite lookup_app_l. Qed.

Lemma deref_alloc_new h n : deref (h ++ [n]) (length h) = n.
Proof.
  unfold deref. rewrite lookup_app_r by lia. by rewrite Nat.sub_diag.
Qed.

(** ** The second pass *)

Lemma kept_count (cl : gset nat) n :
  (forall x, x ∈ cl -> (x < n)%nat) ->
  (length (filter (fun k => k ∉ cl) (seq 0 n)) + size cl = n)%nat.
Proof.
  intros Hb.
  assert (Hperm : elements cl ≡ₚ filter (fun k => k ∈ cl) (seq 0 n)).
  { apply NoDup_Permutation.
    - apply NoDup_elements.
    - apply NoDup_filter, NoDup_seq.
    - intros x. rewrite elem_of_elements, list_elem_of_filter, elem_of_seq.
      split; [|tauto]. intros Hx. specialize (Hb x Hx). split; [done|lia]. }
  pose proof (filter_app_complement (fun k => k ∈ cl) (seq 0 n)) as Hc.
  apply Permutation_length in Hc. rewrite length_app, length_seq in Hc.
  unfold size, set_size. simpl. rewrite Hperm. lia.
Qed.

Section MergeLoop.
Variables (save_image : bool) (refs : list addr) (st : plan_state) (n0 : nat).


Lemma merge_loop_cons i a todo h result :
  merge_loop save_image refs st i (a :: todo) h result
  = if bool_decide (i ∈ st.2)
    then merge_loop save_image refs st (S i) todo h result
    else merge_loop save_image refs st (S i) todo
           (update (emit save_image refs st i a h).1 (emit save_image refs st i a h).2
                   (set_index (Z.of_nat (length (result ++ [(emit save_image refs st i a h).2])) - 1)))
           (result ++ [(emit save_image refs st i a h).2]).
Proof.
  simpl. destruct (bool_decide (i ∈ st.2)); [done|].
  unfold emit. destruct (st.1 !! i) as [[c f]|]; done.
Qed.

Lemma merge_loop_origin todo : forall i h result h' out,
  drop i refs = todo -> (n0 <= length h)%nat ->
  merge_loop save_image refs st i todo h result = (h', out) ->
  exists new, out = result ++ new
    /\ Forall2 (origin n0 refs st)
               (filter (fun k => k ∉ st.2) (seq i (length todo))) new.
Proof.
  induction todo as [|a todo IH]; intros i h result h' out Hd Hn Hrun.
  - simpl in Hrun. injection Hrun as <- <-. exists []. rewrite app_nil_r.
    split; [done|]. constructor.
  - assert (refs !! i = Some a) as Hi.
    { rewrite <-(Nat.add_0_r i), <-lookup_drop, Hd. done. }
    assert (drop (S i) refs = todo) as Hd'.
    { rewrite (drop_S _ _ _ Hi) in Hd. by injection Hd. }
    rewrite merge_loop_cons in Hrun. simpl length. simpl seq.
    destruct (bool_decide_reflect (i ∈ st.2)) as [Hin|Hout].
    + rewrite filter_cons_False by (intros Hc; by apply Hc).
      by eapply IH.
    + rewrite filter_cons_True by done.
      apply IH in Hrun as (new & -> & HF); [| done |].
      * exists ((emit save_image refs st i a h).2 :: new). rewrite <-app_assoc. split; [done|].
        constructor; [|done].
        unfold emit, origin. destruct (st.1 !! i) as [[c f]|]; simpl; done.
      * rewrite length_update. unfold emit. destruct (st.1 !! i) as [[c f]|]; simpl.
        -- rewrite length_app. lia.
        -- done.
Qed.
End MergeLoop.

Section MergeDense.
Variables (save_image : bool) (refs : list addr) (st : plan_state) (n0 : nat).
Hypothesis refs_nodup : NoDup refs.
Hypothesis refs_valid : Forall (fun a => (a < n0)%nat) refs.


Lemma dense_inv_skip i h result :
  dense_inv refs n0 i h result -> dense_inv refs n0 (S i) h result.
Proof.
  intros (Hd & Hn & Hl & Hr). repeat split; try done.
  - by apply Hr.
  - destruct (Hr a H) as [_ [?|(k & ? & ?)]]; [by left|right].
    exists k. split; [lia|done].
Qed.

Lemma dense_inv_emit i a h result :
  refs !! i = Some a -> dense_inv refs n0 i h result ->
  dense_inv refs n0 (S i)
    (update (emit save_image refs st i a h).1 (emit save_image refs st i a h).2
       (set_index (Z.of_nat (length (result ++ [(emit save_image refs st i a h).2])) - 1)))
    (result ++ [(emit save_image refs st i a h).2]).
Proof.
  intros Hi (Hd & Hn & Hl & Hr).
  set (e := emit save_image refs st i a h).
  assert (Ha : (a < n0)%nat).
  { eapply Forall_forall in refs_valid; [done|]. by eapply list_elem_of_lookup_2. }
  assert (He : (length h <= length e.1)%nat /\ (e.2 < length e.1)%nat
               /\ e.2 ∉ result
               /\ ((n0 <= e.2)%nat \/ e.2 = a)
               /\ forall b, (b < length h)%nat -> deref e.1 b = deref h b).
  { subst e. unfold emit. destruct (st.1 !! i) as [[c f]|]; simpl.
    - rewrite length_app. simpl.
      split; [lia|]. split; [lia|]. split; [|split; [left; lia|]].
      + intros Hin. apply Hr in Hin. lia.
      + intros b Hb. by apply deref_alloc_old.
    - split; [lia|]. split; [lia|]. split; [|split; [by right|done]].
      intros Hin. destruct (Hr a Hin) as [_ [?|(k & Hk & Hka)]]; [lia|].
      pose proof (NoDup_lookup _ _ _ _ refs_nodup Hka Hi). lia. }
  destruct He as (Hlen & Hlt & Hfresh & Hsrc & Hold).
  split; [|split; [|split]].
  - intros k b Hk. destruct (decide (k < length result)%nat) as [Hlt'|Hge].
    + rewrite lookup_app_l in Hk by done.
      assert (b ∈ result) as Hb by (by eapply list_elem_of_lookup_2).
      rewrite deref_update_ne by (intros Heq; by rewrite Heq in Hfresh).
      rewrite Hold by (by apply Hr). by apply Hd.
    + rewrite lookup_app_r in Hk by lia.
      destruct (k - length result)%nat as [|?] eqn:Hkk; simpl in Hk; [|done].
      injection Hk as <-. rewrite deref_update_eq by done. simpl.
      rewrite length_app. simpl. f_equal. lia.
  - apply NoDup_app. split; [done|]. split.
    + intros x Hx Hx'. apply list_elem_of_singleton in Hx'. by subst.
    + apply NoDup_singleton.
  - rewrite length_update. lia.
  - intros b Hb. rewrite length_update. apply elem_of_app in Hb as [Hb|Hb].
    + destruct (Hr b Hb) as [? Hsrc']. split; [lia|].
      destruct Hsrc' as [?|(k & ? & ?)]; [by left|right].
      exists k. split; [lia|done].
    + apply list_elem_of_singleton in Hb as ->. split; [done|].
      destruct Hsrc as [?|Hsrc]; [by left|right]. rewrite Hsrc. exists i. split; [lia|done].
Qed.

Lemma merge_loop_dense todo : forall i h result h' out,
  drop i refs = todo -> dense_inv refs n0 i h result ->
  merge_loop save_image refs st i todo h result = (h', out) ->
  positions_dense h' out /\ NoDup out /\ Forall (fun a => (a < length h')%nat) out.
Proof.
  induction todo as [|a todo IH]; intros i h result h' out Hd Hinv Hrun.
  - simpl in Hrun. injection Hrun as <- <-.
    destruct Hinv as (? & ? & ? & Hr). repeat split; try done.
    apply Forall_forall. intros a Ha. by apply Hr.
  - assert (refs !! i = Some a) as Hi.
    { rewrite <-(Nat.add_0_r i), <-lookup_drop, Hd. done. }
    assert (drop (S i) refs = todo) as Hd'.
    { rewrite (drop_S _ _ _ Hi) in Hd. by injection Hd. }
    rewrite merge_loop_cons in Hrun.
    destruct (bool_decide (i ∈ st.2)).
    + eapply IH; [done| |done]. by apply dense_inv_skip.
    + eapply IH; [done| |done]. by apply dense_inv_emit.
Qed.
End MergeDense.

(** * CaptionFootnoteParser: the stated properties *)

Lemma parse_nodes_unfold save_image h refs :
  Caption._parse_nodes save_image h refs
  = merge_loop save_image refs (plan (map (deref h) refs)) 0 refs h [].
Proof. destruct refs; done. Qed.

Lemma text_not_anchor n :
  type_is n (u "text") = true ->
  is_anchor_type (default [] (md_type (metadata n))) = false.
Proof.
  unfold type_is. destruct (md_type (metadata n)) as [ty|]; [|done].
  unfold str_eqb. intros Hty. apply bool_decide_eq_true in Hty. subst ty. done.
Qed.

(** C10. Locality of claims: a recorded caption is the block just before
    or just after its anchor, a recorded footnote is one or two places after
    it, the two are never the same index, and every claimed index lies
    within two positions of the anchor. *)
Theorem claim_locality (h : store) (refs : list addr) (i : nat) (c f : option nat) :
  (plan (map (deref h) refs)).1 !! i = Some (c, f) ->
  (forall x, c = Some x -> (x + 1 = i)%nat \/ x = (i + 1)%nat)
  /\ (forall y, f = Some y -> (y = (i + 1)%nat \/ y = (i + 2)%nat) /\ (i < y)%nat)
  /\ (forall x y, c = Some x -> f = Some y -> x <> y)
  /\ (forall x, claims x (c, f) ->
        (x < length refs)%nat /\ (i <= x + 1)%nat /\ (x <= i + 2)%nat)
  /\ exists node, map (deref h) refs !! i = Some node
       /\ is_anchor_type (default [] (md_type (metadata node))) = true.
Proof.
  intros He.
  destruct (plan_inv_final (map (deref h) refs)) as (I1 & _).
  destruct (I1 i (c, f) He) as (_ & Hc & Hf & _ & Hanchor). simpl in Hc, Hf.
  rewrite length_map in Hc, Hf.
  split; [|split; [|split; [|split; [|done]]]].
  - intros x Hx. by apply Hc.
  - intros y Hy. destruct (Hf y Hy) as ([?|[? _]] & _); split; (by auto) || lia.
  - intros x y Hx Hy ->. destruct (Hf y Hy) as (_ & _ & Hne). by apply Hne.
  - intros x [Hx|Hx]; simpl in Hx.
    + destruct (Hc x Hx) as [[?|?] ?]; repeat split; lia.
    + destruct (Hf x Hx) as ([?|[? _]] & ? & _); repeat split; lia.
Qed.

(** C1 (as amended).  Claim exclusivity, for every input: no index is
    consumed by two anchors, and a caption of one anchor is never a
    footnote of any; what is consumed is exactly [merged_indices]; the
    output holds, in order, one block per index that is not consumed and
    nothing else.  When the input blocks are pairwise distinct objects, a
    consumed block does not occur in the output; a block listed twice can
    be consumed at one index and emitted at the other. *)
Theorem claim_exclusivity (save_image : bool) (h : store) (refs : list addr) :
  let st := plan (map (deref h) refs) in
  let out := (Caption._parse_nodes save_image h refs).2 in
  (forall i j ei ej x,
     st.1 !! i = Some ei -> st.1 !! j = Some ej ->
     claims x ei -> claims x ej -> i = j)
  /\ (forall i j ei ej x,
        st.1 !! i = Some ei -> st.1 !! j = Some ej ->
        ei.1 = Some x -> ej.2 <> Some x)
  /\ (forall x, x ∈ st.2 <-> exists i e, st.1 !! i = Some e /\ claims x e)
  /\ Forall2 (origin (length h) refs st) (kept_indices st (length refs)) out
  /\ (NoDup refs -> valid h refs ->
      forall x a, x ∈ st.2 -> refs !! x = Some a -> a ∉ out).
Proof.
  intros st out.
  destruct (Caption._parse_nodes save_image h refs) as [h' out'] eqn:Hrun.
  simpl in out. subst out. rename out' into out.
  destruct (plan_inv_final (map (deref h) refs)) as (I1 & I2 & I3 & I4).
  fold st in I1, I2, I3, I4.
  assert (Horigin : Forall2 (origin (length h) refs st)
                      (kept_indices st (length refs)) out).
  { rewrite parse_nodes_unfold in Hrun. fold st in Hrun.
    apply (merge_loop_origin save_image refs st (length h)) in Hrun
      as (new & -> & HF); [done|done|lia]. }
  split; [exact I3|]. split; [|split; [exact I2|split; [exact Horigin|]]].
  - intros i j ei ej x Hi Hj Hc Hf.
    assert (i = j) as <-.
    { apply (I3 i j ei ej x Hi Hj); [by left|by right]. }
    assert (ei = ej) as <- by congruence.
    destruct (I1 i ei Hi) as (_ & _ & Hfo & _).
    destruct (Hfo x Hf) as (_ & _ & Hne). by apply Hne.
  - intros Hnd Hvalid x a Hx Hxa Hin.
    apply list_elem_of_lookup in Hin as [m Hm].
    destruct (Forall2_lookup_r _ _ _ _ _ Horigin Hm) as (k & Hk & Ho).
    assert (k ∉ st.2) as Hkept.
    { apply list_elem_of_lookup_2 in Hk. unfold kept_indices in Hk.
      apply list_elem_of_filter in Hk. tauto. }
    unfold origin in Ho. destruct (st.1 !! k) as [e|].
    + assert (a < length h)%nat; [|lia].
      eapply Forall_forall in Hvalid; [done|]. by eapply list_elem_of_lookup_2.
    + pose proof (NoDup_lookup _ _ _ _ Hnd Hxa Ho). by subst k.
Qed.

(** C8. Count law: the output has as many blocks as the input, less the
    captions and the footnotes that were merged; an anchor is never
    consumed, and every index that is not consumed yields exactly one
    output block. *)
Theorem count_law (save_image : bool) (h : store) (refs : list addr) :
  let st := plan (map (deref h) refs) in
  let out := (Caption._parse_nodes save_image h refs).2 in
  length out
  = (length refs - captions_merged st.1 - footnotes_merged st.1)%nat
  /\ (captions_merged st.1 + footnotes_merged st.1 <= length refs)%nat
  /\ length out = length (kept_indices st (length refs))
  /\ (forall i node, map (deref h) refs !! i = Some node ->
        is_anchor_type (default [] (md_type (metadata node))) = true ->
        i ∈ kept_indices st (length refs)).
Proof.
  intros st out.
  destruct (Caption._parse_nodes save_image h refs) as [h' out'] eqn:Hrun.
  simpl in out. subst out. rename out' into out.
  destruct (count_inv_final (map (deref h) refs)) as ((I1 & I2 & I3 & I4) & Hsz).
  fold st in I1, I2, I3, I4, Hsz.
  assert (Hlen : length out = length (kept_indices st (length refs))).
  { rewrite parse_nodes_unfold in Hrun. fold st in Hrun.
    apply (merge_loop_origin save_image refs st (length h)) in Hrun
      as (new & -> & HF); [|done|lia].
    apply Forall2_length in HF. simpl. done. }
  assert (Hb : forall x, x ∈ st.2 -> (x < length refs)%nat).
  { intros x Hx. apply I4 in Hx as (n & Hn & _).
    apply lookup_lt_Some in Hn. by rewrite length_map in Hn. }
  pose proof (kept_count st.2 (length refs) Hb) as Hk.
  fold (kept_indices st (length refs)) in Hk.
  split; [lia|]. split; [lia|]. split; [done|].
  intros i node Hi Hanchor. unfold kept_indices.
  apply list_elem_of_filter. split.
  - intros Hin. apply I4 in Hin as (n & Hn & Htext).
    assert (n = node) as -> by congruence.
    apply text_not_anchor in Htext. congruence.
  - apply elem_of_seq. apply lookup_lt_Some in Hi. rewrite length_map in Hi. lia.
Qed.

(** For distinct input objects, the [index] entries of the output of the
    caption parser read 0, 1, ..., len(output)-1 in order. *)
Lemma caption_positions_dense (save_image : bool) (h h' : store)
    (refs out : list addr) :
  NoDup refs -> valid h refs ->
  Caption._parse_nodes save_image h refs = (h', out) ->
  positions_dense h' out /\ NoDup out.
Proof.
  intros Hnd Hvalid Hrun. rewrite parse_nodes_unfold in Hrun.
  eapply (merge_loop_dense save_image refs _ (length h) Hnd Hvalid) in Hrun.
  - tauto.
  - done.
  - split; [|split; [|split]].
    + intros k a Hk. done.
    + constructor.
    + done.
    + intros a Ha. by apply elem_of_nil in Ha.
Qed.

(** * LayoutNodeParser *)

Import Layout.

Lemma deref_update h b f a :
  deref (update h b f) a = deref h a
  \/ (a = b /\ deref (update h b f) a = with_metadata f (deref h a)).
Proof.
  destruct (decide (b = a)) as [->|Hne].
  - destruct (decide (a < length h)%nat).
    + right. split; [done|]. by apply deref_update_eq.
    + left. unfold deref, update. rewrite list_lookup_alter_eq.
      by rewrite lookup_ge_None_2 by lia.
  - left. by apply deref_update_ne.
Qed.

Lemma sorted_perm {A K} (leb : K -> K -> bool) (key : A -> K) (l : list A) :
  sorted leb key l ≡ₚ l.
Proof.
  assert (Hins : forall x l', insert_sorted leb key x l' ≡ₚ x :: l').
  { intros x l'. induction l' as [|y l' IH]; simpl; [done|].
    destruct (leb (key x) (key y)); [done|]. rewrite IH. apply Permutation_swap. }
  induction l as [|x l IH]; simpl; [done|].
  unfold sorted in IH. rewrite Hins. by rewrite IH.
Qed.

Lemma groupby_spec {A K} (eqb : K -> K -> bool) (key : A -> K) (l : list A) :
  concat (groupby eqb key l) = l /\ Forall (fun g => g <> []) (groupby eqb key l).
Proof.
  induction l as [|x l [IH1 IH2]]; simpl; [by split|].
  destruct (groupby eqb key l) as [|[|y g] gs] eqn:Hg.
  - simpl in IH1. subst l. split; [done|]. by repeat constructor.
  - by apply Forall_cons_1 in IH2 as [? _].
  - apply Forall_cons_1 in IH2 as [_ IH2].
    destruct (eqb (key x) (key y)); simpl in *.
    + rewrite IH1. split; [done|]. by constructor.
    + rewrite IH1. split; [done|]. by repeat constructor.
Qed.

Lemma groupby_concat {A K} (eqb : K -> K -> bool) (key : A -> K) (l : list A) :
  concat (groupby eqb key l) = l.
Proof. apply groupby_spec. Qed.

Lemma parse_loop_spec todo : forall h result,
  parse_loop todo h result = (fold_left parse_node todo h, result ++ todo).
Proof.
  induction todo as [|a todo IH]; intros h result; simpl.
  - by rewrite app_nil_r.
  - rewrite IH. by rewrite <-app_assoc.
Qed.

Lemma forward_groups groups : forall h result,
  exists L, L ≡ₚ concat groups
    /\ fold_left forward_group groups (h, result)
       = (fold_left parse_node L h, result ++ L).
Proof.
  induction groups as [|g groups IH]; intros h result; simpl.
  - exists []. by rewrite app_nil_r.
  - unfold Layout._parse_nodes. rewrite parse_loop_spec. simpl.
    set (g' := sorted Z.leb (index_of h) g).
    destruct (IH (fold_left parse_node g' h) (result ++ g')) as (L & HL & ->).
    exists (g' ++ L). split.
    + rewrite HL. subst g'. by rewrite sorted_perm.
    + by rewrite fold_left_app, app_assoc.
Qed.

(** [forward] visits every node of the document, in some order, then
    renumbers. *)
Lemma forward_spec h document :
  exists L, L ≡ₚ document
    /\ Layout.forward h document
       = _reset_node_index (fold_left parse_node L h) L.
Proof.
  unfold Layout.forward.
  set (nodes := sorted str_leb (file_name_of h) document).
  destruct (forward_groups (groupby str_eqb (file_name_of h) nodes) h [])
    as (L & HL & ->).
  exists L. split; [|done].
  rewrite HL, groupby_concat. subst nodes. apply sorted_perm.
Qed.

Lemma reset_loop_spec todo : forall index h result,
  exists h', reset_loop index todo h result = (h', result ++ todo)
    /\ length h' = length h
    /\ forall a, text (deref h' a) = text (deref h a)
         /\ md_text_level (metadata (deref h' a)) = md_text_level (metadata (deref h a)).
Proof.
  induction todo as [|b todo IH]; intros index h result; simpl.
  - exists h. by rewrite app_nil_r.
  - destruct (IH (S index) (update h b (set_index (Z.of_nat index))) (result ++ [b]))
      as (h' & -> & Hlen & Hsame).
    exists h'. rewrite <-app_assoc. split; [done|].
    rewrite Hlen, length_update. split; [done|].
    intros a. destruct (Hsame a) as [-> ->].
    destruct (deref_update h b (set_index (Z.of_nat index)) a) as [->|[_ ->]]; done.
Qed.

Lemma parse_node_spec h b a :
  length (parse_node h b) = length h
  /\ text (deref (parse_node h b) a) = text (deref h a)
  /\ md_index (metadata (deref (parse_node h b) a)) = md_index (metadata (deref h a))
  /\ (a <> b -> deref (parse_node h b) a = deref h a).
Proof.
  unfold parse_node.
  repeat match goal with
         | |- context [if ?c then _ else _] => destruct c
         end;
    rewrite ?length_update;
    (split; [done|]);
    repeat match goal with
           | |- context [deref (update ?h ?b ?f) ?a] =>
               destruct (deref_update h b f a) as [->|[-> ->]]
           end; try done;
    repeat split; try done; try (intros; by rewrite deref_update_ne).
Qed.

(** Effect of one visit on the heading level of the object at [a]. *)
Lemma parse_node_level h b a :
  ((1 < text_level_of (deref h a))%Z ->
     md_text_level (metadata (deref (parse_node h b) a))
     = md_text_level (metadata (deref h a)))
  /\ (md_text_level (metadata (deref h a)) = Some 0%Z ->
      is_Some_b (_match (deref h a) (TIME_PATTERNS ++ TOC_PATTERNS)) = true ->
      md_text_level (metadata (deref (parse_node h b) a)) = Some 0%Z)
  /\ ((text_level_of (deref h a) <= 1)%Z ->
      is_Some_b (_match (deref h a) (TIME_PATTERNS ++ TOC_PATTERNS)) = true ->
      (text_level_of (deref (parse_node h b) a) <= 1)%Z
      /\ (b = a -> (a < length h)%nat ->
          md_text_level (metadata (deref (parse_node h b) a)) = Some 0%Z)).
Proof.
  destruct (decide (a = b)) as [<-|Hne].
  2: { destruct (parse_node_spec h b a) as (_ & _ & _ & Hsame).
       rewrite (Hsame Hne). split; [done|]. split; [done|].
       intros ? ?. split; [done|]. intros ->. done. }
  unfold parse_node.
  destruct (Z.ltb_spec 1 (text_level_of (deref h a))) as [Hgt|Hle].
  { split; [done|]. split.
    - intros H0. unfold text_level_of in Hgt. rewrite H0 in Hgt. simpl in Hgt. lia.
    - intros; lia. }
  destruct (is_Some_b (_match (deref h a) (TIME_PATTERNS ++ TOC_PATTERNS))) eqn:Hm.
  - split; [lia|].
    destruct (deref_update h a (set_text_level 0) a) as [Heq|[_ Heq]]; rewrite Heq.
    + split; [done|]. intros _ _. split; [done|].
      intros _ Hlt. rewrite deref_update_eq in Heq by done.
      rewrite <-Heq. done.
    + split; [done|]. intros _ _. split; [unfold text_level_of; simpl; lia|done].
  - split; [lia|]. split; [done|]. done.
Qed.

Lemma fold_parse_node_same L : forall h a,
  length (fold_left parse_node L h) = length h
  /\ text (deref (fold_left parse_node L h) a) = text (deref h a)
  /\ md_index (metadata (deref (fold_left parse_node L h) a))
     = md_index (metadata (deref h a)).
Proof.
  induction L as [|b L IH]; intros h a; simpl; [done|].
  destruct (IH (parse_node h b) a) as (-> & -> & ->).
  destruct (parse_node_spec h b a) as (-> & -> & -> & _). done.
Qed.

Lemma match_same_text n1 n2 pats :
  text n1 = text n2 -> _match n1 pats = _match n2 pats.
Proof. intros Ht. induction pats as [|p pats IH]; simpl; [done|]. by rewrite Ht, IH. Qed.

(** C4. Finalized-level immunity: an object whose heading level exceeds 1
    keeps that level through [forward], whatever its content. *)
Theorem finalized_level_immunity (h : store) (document : list addr) (a : addr) :
  (1 < text_level_of (deref h a))%Z ->
  md_text_level (metadata (deref (Layout.forward h document).1 a))
  = md_text_level (metadata (deref h a)).
Proof.
  intros Hgt. destruct (forward_spec h document) as (L & _ & ->).
  unfold _reset_node_index.
  destruct (reset_loop_spec L 0 (fold_left parse_node L h) []) as (h' & -> & _ & Hsame).
  simpl. destruct (Hsame a) as [_ ->]. clear Hsame h'.
  revert h Hgt. induction L as [|b L IH]; intros h Hgt; simpl; [done|].
  destruct (parse_node_level h b a) as (Hkeep & _).
  rewrite IH.
  - by apply Hkeep.
  - unfold text_level_of. rewrite Hkeep by done. done.
Qed.

(** C3 (as amended). Suppression precedence: an input object whose heading
    level is at most 1 (or absent) and whose stripped text matches a
    timestamp or table-of-contents pattern ends at heading level 0. *)
Theorem suppression_precedence (h : store) (document : list addr) (a : addr) :
  valid h document -> a ∈ document ->
  (text_level_of (deref h a) <= 1)%Z ->
  is_Some_b (_match (deref h a) (TIME_PATTERNS ++ TOC_PATTERNS)) = true ->
  md_text_level (metadata (deref (Layout.forward h document).1 a)) = Some 0%Z.
Proof.
  intros Hvalid Hin Hle Hm. destruct (forward_spec h document) as (L & HL & ->).
  unfold _reset_node_index.
  destruct (reset_loop_spec L 0 (fold_left parse_node L h) []) as (h' & -> & _ & Hsame).
  simpl. destruct (Hsame a) as [_ ->]. clear Hsame h'.
  assert (Hlt : (a < length h)%nat).
  { eapply Forall_forall in Hvalid; done. }
  rewrite <-HL in Hin. clear HL Hvalid.
  assert (Hdone : forall L h,
            md_text_level (metadata (deref h a)) = Some 0%Z ->
            is_Some_b (_match (deref h a) (TIME_PATTERNS ++ TOC_PATTERNS)) = true ->
            md_text_level (metadata (deref (fold_left parse_node L h) a)) = Some 0%Z).
  { clear. intros L. induction L as [|b L IH]; intros h H0 Hm; simpl; [done|].
    destruct (parse_node_level h b a) as (_ & Hstay & _).
    destruct (parse_node_spec h b a) as (_ & Ht & _).
    apply IH; [by apply Hstay|]. by rewrite (match_same_text _ (deref h a)). }
  revert h Hle Hm Hlt. induction L as [|b L IH]; intros h Hle Hm Hlt; simpl.
  - by apply elem_of_nil in Hin.
  - destruct (parse_node_level h b a) as (_ & _ & Hstep).
    destruct (Hstep Hle Hm) as [Hle' Hzero].
    destruct (parse_node_spec h b a) as (Hlen & Ht & _).
    assert (Hm' : is_Some_b (_match (deref (parse_node h b) a)
                               (TIME_PATTERNS ++ TOC_PATTERNS)) = true).
    { by rewrite (match_same_text _ (deref h a)). }
    destruct (decide (b = a)) as [->|Hne].
    + apply Hdone; [by apply Hzero|done].
    + apply elem_of_cons in Hin as [->|Hin]; [done|].
      apply IH; try done. by rewrite Hlen.
Qed.

Lemma reset_loop_dense todo : forall index h result h' out,
  NoDup (result ++ todo) ->
  Forall (fun a => (a < length h)%nat) (result ++ todo) ->
  positions_dense h result -> index = length result ->
  reset_loop index todo h result = (h', out) ->
  positions_dense h' out /\ out = result ++ todo /\ length h' = length h.
Proof.
  induction todo as [|b todo IH]; intros index h result h' out Hnd Hv Hd Hi Hrun.
  - simpl in Hrun. injection Hrun as <- <-. by rewrite app_nil_r.
  - simpl in Hrun.
    replace (result ++ b :: todo) with ((result ++ [b]) ++ todo) in *
      by (by rewrite <-app_assoc).
    assert (Hb : (b < length h)%nat).
    { eapply Forall_forall in Hv; [done|]. set_solver. }
    assert (Hbr : b ∉ result).
    { apply NoDup_app in Hnd as (Hnd & _ & _).
      apply NoDup_app in Hnd as (_ & Hnd & _).
      intros Hin. apply (Hnd b Hin). set_solver. }
    apply IH in Hrun.
    + destruct Hrun as (? & ? & ->). by rewrite length_update.
    + done.
    + by rewrite length_update.
    + intros k c Hk. destruct (decide (k < length result)%nat) as [Hlt|Hge].
      * rewrite lookup_app_l in Hk by done.
        rewrite deref_update_ne; [by apply Hd|].
        intros ->. apply Hbr. by eapply list_elem_of_lookup_2.
      * rewrite lookup_app_r in Hk by lia.
        destruct (k - length result)%nat as [|?] eqn:Hkk; simpl in Hk; [|done].
        injection Hk as <-. rewrite deref_update_eq by done. simpl.
        f_equal. lia.
    + rewrite length_app. simpl. lia.
Qed.

(** C9 (as amended). Position density: when the input objects are pairwise
    distinct, the [index] entries of the output of each parser read
    0, 1, ..., len(output)-1 in order. *)
Theorem position_density (save_image : bool) (h : store) (refs : list addr) :
  NoDup refs -> valid h refs ->
  positions_dense (Caption._parse_nodes save_image h refs).1
                  (Caption._parse_nodes save_image h refs).2
  /\ positions_dense (Layout.forward h refs).1 (Layout.forward h refs).2.
Proof.
  intros Hnd Hvalid. split.
  - destruct (Caption._parse_nodes save_image h refs) as [h' out] eqn:Hrun.
    by apply (caption_positions_dense save_image h h' refs out).
  - destruct (forward_spec h refs) as (L & HL & ->).
    unfold _reset_node_index.
    destruct (reset_loop 0 L (fold_left parse_node L h) []) as [h' out] eqn:Hrun.
    apply reset_loop_dense in Hrun; simpl.
    + tauto.
    + by rewrite HL.
    + destruct (fold_parse_node_same L h 0%nat) as (-> & _).
      unfold valid in Hvalid. by rewrite HL.
    + intros k a Hk. done.
    + done.
Qed.

(** * Running CaptionFootnoteParser on its own output *)

Lemma last_pos_snoc b l a :
  last_pos b (l ++ [a]) = if decide (a = b) then Some (length l) else last_pos b l.
Proof.
  induction l as [|c l IH]; simpl.
  - by destruct (decide (a = b)).
  - rewrite IH. destruct (decide (a = b)); [done|]. done.
Qed.

Lemma with_metadata_set_index_twice v1 v2 n :
  with_metadata (set_index v2) (with_metadata (set_index v1) n)
  = with_metadata (set_index v2) n.
Proof. done. Qed.

Lemma with_metadata_set_index_id v n :
  md_index (metadata n) = Some v -> with_metadata (set_index v) n = n.
Proof.
  destruct n as [t md g]. destruct md. simpl. intros ->. done.
Qed.

(** The renumbering loop, read at one address. *)
Lemma reset_loop_lookup todo : forall k h result b,
  (reset_loop k todo h result).1 !! b
  = match last_pos b todo with
    | Some j => with_metadata (set_index (Z.of_nat (k + j))) <$> h !! b
    | None => h !! b
    end.
Proof.
  induction todo as [|a todo IH]; intros k h result b; simpl; [done|].
  rewrite IH. unfold update. rewrite list_lookup_alter.
  destruct (last_pos b todo) as [j|].
  - case_decide as Hab.
    + subst b. replace (S k + j)%nat with (k + S j)%nat by lia.
      by destruct (h !! a) as [n|].
    + by replace (S k + j)%nat with (k + S j)%nat by lia.
  - case_decide as Hab; [|done]. subst b. by rewrite Nat.add_0_r.
Qed.

(** With nothing claimed, the second pass only renumbers. *)
Lemma merge_loop_nothing save_image refs st todo : forall i h result,
  st.1 = ∅ -> st.2 = ∅ ->
  merge_loop save_image refs st i todo h result
  = reset_loop (length result) todo h result.
Proof.
  induction todo as [|a todo IH]; intros i h result H1 H2; [done|].
  rewrite merge_loop_cons. rewrite H2.
  rewrite bool_decide_eq_false_2 by set_solver.
  unfold emit. rewrite H1, lookup_empty. simpl.
  rewrite IH by done. rewrite length_app. simpl.
  replace (Z.of_nat (length result + 1) - 1)%Z with (Z.of_nat (length result)) by lia.
  by rewrite Nat.add_1_r.
Qed.

Section MergeLast.
Variables (save_image : bool) (refs : list addr) (st : plan_state) (n0 : nat).
Hypothesis refs_valid : Forall (fun a => (a < n0)%nat) refs.


Lemma last_inv_emit i a h result :
  refs !! i = Some a -> last_inv n0 h result ->
  last_inv n0
    (update (emit save_image refs st i a h).1 (emit save_image refs st i a h).2
       (set_index (Z.of_nat (length (result ++ [(emit save_image refs st i a h).2])) - 1)))
    (result ++ [(emit save_image refs st i a h).2]).
Proof.
  intros Hi (Hn & Hr).
  set (e := emit save_image refs st i a h).
  assert (Ha : (a < n0)%nat).
  { eapply Forall_forall in refs_valid; [done|]. by eapply list_elem_of_lookup_2. }
  assert (He : (length h <= length e.1)%nat /\ (e.2 < length e.1)%nat
               /\ forall b, (b < length h)%nat -> deref e.1 b = deref h b).
  { subst e. unfold emit. destruct (st.1 !! i) as [[c f]|]; simpl.
    - rewrite length_app. simpl. split; [lia|]. split; [lia|].
      intros b Hb. by apply deref_alloc_old.
    - split; [lia|]. split; [lia|done]. }
  destruct He as (Hlen & Hlt & Hold).
  split; [rewrite length_update; lia|].
  intros b k. rewrite last_pos_snoc, length_update. case_decide as Hb.
  - intros [= <-]. subst b. split; [done|].
    rewrite deref_update_eq by done. simpl. rewrite length_app. simpl.
    f_equal. lia.
  - intros Hk. destruct (Hr b k Hk) as [Hbl Hbi]. split; [lia|].
    rewrite deref_update_ne by done. by rewrite Hold.
Qed.

Lemma merge_loop_last todo : forall i h result h' out,
  drop i refs = todo -> last_inv n0 h result ->
  merge_loop save_image refs st i todo h result = (h', out) ->
  last_inv n0 h' out.
Proof.
  induction todo as [|a todo IH]; intros i h result h' out Hd Hinv Hrun.
  - simpl in Hrun. by injection Hrun as <- <-.
  - assert (refs !! i = Some a) as Hi.
    { rewrite <-(Nat.add_0_r i), <-lookup_drop, Hd. done. }
    assert (drop (S i) refs = todo) as Hd'.
    { rewrite (drop_S _ _ _ Hi) in Hd. by injection Hd. }
    rewrite merge_loop_cons in Hrun.
    destruct (bool_decide (i ∈ st.2)).
    + by eapply IH.
    + eapply IH; [done| |done]. by apply last_inv_emit.
Qed.
End MergeLast.

(** C2 (as amended). Running the parser on its own output returns that
    output unchanged, provided the first pass finds nothing to claim in
    it. *)
Theorem idempotence_when_settled (save_image : bool) (h : store) (refs : list addr) :
  valid h refs ->
  (plan (map (deref (Caption._parse_nodes save_image h refs).1)
             (Caption._parse_nodes save_image h refs).2)).1 = ∅ ->
  Caption._parse_nodes save_image
    (Caption._parse_nodes save_image h refs).1
    (Caption._parse_nodes save_image h refs).2
  = Caption._parse_nodes save_image h refs.
Proof.
  intros Hvalid.
  destruct (Caption._parse_nodes save_image h refs) as [h1 out1] eqn:Hrun1.
  simpl. intros Hsettled.
  assert (Hlast : last_inv (length h) h1 out1).
  { rewrite parse_nodes_unfold in Hrun1.
    eapply (merge_loop_last save_image refs _ (length h) Hvalid) in Hrun1; [done|done|].
    split; [done|]. intros a k Hk. done. }
  rewrite parse_nodes_unfold.
  set (st2 := plan (map (deref h1) out1)) in *.
  assert (Hcl : st2.2 = ∅).
  { destruct (plan_inv_final (map (deref h1) out1)) as (_ & I2 & _).
    fold st2 in I2. apply set_eq. intros x. rewrite I2, Hsettled. split.
    - intros (j & e & He & _). by rewrite lookup_empty in He.
    - intros Hx. by apply elem_of_empty in Hx. }
  rewrite merge_loop_nothing by done. simpl.
  destruct (reset_loop_spec out1 0 h1 []) as (h2 & Hrun2 & Hlen & _).
  pose proof (reset_loop_lookup out1 0 h1 [] ) as Hlook.
  rewrite Hrun2 in *. simpl in *. f_equal.
  apply list_eq. intros b. rewrite Hlook.
  destruct (last_pos b out1) as [j|] eqn:Hj; [|done].
  destruct Hlast as [_ Hlast]. destruct (Hlast b j Hj) as [Hb Hidx].
  unfold deref in Hidx. destruct (h1 !! b) as [n|] eqn:Hn.
  - simpl in *. f_equal. by apply with_metadata_set_index_id.
  - apply lookup_ge_None in Hn. lia.
Qed.

(** * The tie-break between two caption candidates *)

Lemma fold_left_count {A} (P : A -> bool) (c : nat) (l : list A) : forall s0,
  fold_left (fun score x => if P x then (score + c)%nat else score) l s0
  = (s0 + c * length (filter (fun x => P x = true) l))%nat.
Proof.
  induction l as [|x l IH]; intros s0; simpl; [lia|].
  rewrite IH. destruct (P x) eqn:HP.
  - rewrite filter_cons_True by done. simpl. lia.
  - rewrite filter_cons_False by (by rewrite HP). lia.
Qed.

Lemma caption_score_count t cand :
  caption_score t cand = score_by_count (get_config t) (content_of cand).
Proof.
  unfold caption_score, pattern_score, keyword_score, score_by_count.
  rewrite (fold_left_count (fun keyword => startswith (content_of cand) keyword) 2).
  rewrite (fold_left_count
             (fun pattern => is_Some_b (re_match true pattern (content_of cand))) 3).
  lia.
Qed.

Lemma plan_loop_app nodes l1 : forall i l2 st,
  plan_loop nodes i (l1 ++ l2) st
  = plan_loop nodes (i + length l1) l2 (plan_loop nodes i l1 st).
Proof.
  induction l1 as [|x l1 IH]; intros i l2 st; simpl.
  - by rewrite Nat.add_0_r.
  - rewrite IH. f_equal. lia.
Qed.

Lemma plan_step_other nodes j node st i :
  j <> i -> (plan_step nodes j node st).1 !! i = st.1 !! i.
Proof.
  intros Hne. destruct st as [mi cl].
  destruct (plan_step_spec nodes j node mi cl) as [->|(c & f & _ & -> & _)]; [done|].
  simpl. case_decide; [done|]. by rewrite lookup_insert_ne.
Qed.

Lemma plan_loop_keeps nodes todo : forall j st i,
  (i < j)%nat -> (plan_loop nodes j todo st).1 !! i = st.1 !! i.
Proof.
  induction todo as [|x todo IH]; intros j st i Hlt; simpl; [done|].
  rewrite IH by lia. apply plan_step_other. lia.
Qed.

(** The entry of an anchor is the one written when the loop reaches it. *)
Lemma plan_at nodes i node :
  nodes !! i = Some node ->
  (plan nodes).1 !! i = (plan_step nodes i node (state_before nodes i)).1 !! i.
Proof.
  intros Hi. unfold plan, state_before.
  rewrite <-(take_drop_middle nodes i node Hi) at 2.
  assert (Hlen : length (take i nodes) = i).
  { rewrite length_take. apply lookup_lt_Some in Hi. lia. }
  rewrite plan_loop_app. simpl. rewrite Hlen.
  rewrite plan_loop_keeps; [done|lia].
Qed.

(** C5 (as amended). When both neighbours of an anchor qualify as caption
    candidates, each is scored two points for every content keyword its
    content starts with and three for every numbering pattern matching at
    its start; the higher score is recorded as the caption, the
    predecessor on a tie. *)
Theorem caption_tie_break (nodes : list DocNode) (i : nat) (node : DocNode)
    (p n : nat) :
  nodes !! i = Some node ->
  is_anchor_type (default [] (md_type (metadata node))) = true ->
  prev_caption nodes (state_before nodes i).2 i (default [] (md_type (metadata node)))
  = Some p ->
  next_caption nodes (state_before nodes i).2 i (default [] (md_type (metadata node)))
  = Some n ->
  let score k :=
    score_by_count (get_config (default [] (md_type (metadata node))))
                   (content_of (default null_node (nodes !! k))) in
  exists f,
    (plan nodes).1 !! i
    = Some (Some (if Nat.leb (score n) (score p) then p else n), f).
Proof.
  intros Hi Hanchor Hp Hn score.
  rewrite (plan_at nodes i node Hi).
  destruct (state_before nodes i) as [mi cl]. simpl in Hp, Hn.
  unfold plan_step. rewrite Hanchor. simpl. rewrite Hp, Hn.
  unfold choose_caption. rewrite !caption_score_count. fold (score p) (score n).
  set (c := if Nat.leb (score n) (score p) then Some p else Some n).
  exists (find_footnote nodes cl i c).
  assert (c = Some (if Nat.leb (score n) (score p) then p else n)) as Hc.
  { subst c. by destruct (Nat.leb (score n) (score p)). }
  rewrite Hc. simpl. by rewrite lookup_insert_eq.
Qed.

Local Open Scope N_scope.

Import Caption.
Import Layout.

(** * The matcher and the words of a pattern *)

Lemma orelse_Some {A} (a b : option A) (x : A) :
  orelse a b = Some x -> a = Some x \/ b = Some x.
Proof. destruct a; simpl; auto. Qed.

Lemma orelse_is_Some {A} (a b : option A) :
  is_Some a \/ is_Some b -> is_Some (orelse a b).
Proof. destruct a; simpl; intros [H|H]; eauto. by destruct H. Qed.

Section MatcherSound.
Context {R : Type}.

Lemma rep_loop_sound (body : @matcher R) P gs g lo hi k :
  sound_for body P gs ->
  forall fuel cnt s c res,
    rep_loop body g lo hi fuel cnt s c k = Some res ->
    exists w rest c', s = w ++ rest /\ iter P lo hi cnt w rest /\
      k rest c' = Some res /\ (forall i, i ∉ gs -> group c' i = group c i).
Proof.
  intros Hb. induction fuel as [|fuel IH]; intros cnt s c res H.
  - simpl in H.
    assert (Hs : (if Nat.leb lo cnt then k s c else None) = Some res).
    { destruct g; [exact H|]. unfold orelse in H.
      destruct (if Nat.leb lo cnt then k s c else None); done. }
    destruct (Nat.leb lo cnt) eqn:Hlo; [ | done ].
    apply Nat.leb_le in Hlo.
    exists [], s, c. split; [done|]. split; [by constructor|]. done.
  - simpl in H.
    set (stop := if Nat.leb lo cnt then k s c else None) in *.
    set (more := if match hi with Some h => Nat.leb h cnt | None => false end
                 then None else body s c _) in *.
    assert (Hcase : more = Some res \/ stop = Some res).
    { destruct g; apply orelse_Some in H; tauto. }
    destruct Hcase as [Hm | Hs].
    + subst more.
      destruct (match hi with Some h => Nat.leb h cnt | None => false end) eqn:Hhi;
        [done|].
      apply Hb in Hm as (w1 & rest1 & c1 & -> & HP & Hk & Hg).
      destruct (Nat.ltb (length rest1) (length (w1 ++ rest1))) eqn:Hlt; [ | done ].
      apply Nat.ltb_lt in Hlt.
      apply IH in Hk as (w' & rest & c' & -> & Hit & Hk & Hg').
      exists (w1 ++ w'), rest, c'. split; [by rewrite app_assoc|].
      split.
      * constructor; try done.
        -- intros h ->. apply Nat.leb_gt in Hhi. done.
        -- intros ->. simpl in Hlt. lia.
      * split; [done|]. intros i Hi. rewrite Hg' by done. by apply Hg.
    + subst stop. destruct (Nat.leb lo cnt) eqn:Hlo; [ | done ].
      apply Nat.leb_le in Hlo.
      exists [], s, c. split; [done|]. split; [by constructor|]. done.
Qed.

Lemma rep_loop_complete (body : @matcher R) P g lo hi k rest :
  complete_for body P ->
  (forall c', is_Some (k rest c')) ->
  forall cnt w, iter P lo hi cnt w rest ->
  forall fuel c, (length w <= fuel)%nat ->
    is_Some (rep_loop body g lo hi fuel cnt (w ++ rest) c k).
Proof.
  intros Hb Hk cnt w Hit.
  induction Hit as [cnt rest Hlo | cnt w w' rest Hhi Hne HP Hit IH];
    intros fuel c Hfuel.
  - assert (Hs : is_Some (if Nat.leb lo cnt then k ([] ++ rest) c else None)).
    { apply Nat.leb_le in Hlo. rewrite Hlo. apply Hk. }
    destruct fuel; cbn [rep_loop]; destruct g; apply orelse_is_Some; auto.
  - destruct fuel as [|fuel].
    { destruct w; [done|]. simpl in Hfuel. lia. }
    assert (Hm : is_Some
      (if match hi with Some h => Nat.leb h cnt | None => false end then None
       else body ((w ++ w') ++ rest) c (fun s' c' =>
              if Nat.ltb (length s') (length ((w ++ w') ++ rest))
              then rep_loop body g lo hi fuel (S cnt) s' c' k else None))).
    { assert (Hh : match hi with Some h => Nat.leb h cnt | None => false end = false).
      { destruct hi as [h|]; [|done]. apply Nat.leb_gt. by apply Hhi. }
      rewrite Hh. rewrite <- app_assoc. apply Hb; [done|].
      intros c'.
      assert (Hlt : Nat.ltb (length (w' ++ rest)) (length (w ++ w' ++ rest)) = true).
      { apply Nat.ltb_lt. rewrite (length_app w). destruct w; [done|]. simpl. lia. }
      rewrite Hlt. apply IH; [done|].
      rewrite length_app in Hfuel. destruct w; [done|]. simpl in Hfuel. lia. }
    cbn [rep_loop]; destruct g; apply orelse_is_Some; auto.
Qed.

Lemma m_sound ic n0 r :
  sound_for (@m R ic n0 r) (lang ic n0 r) (groups_of r).
Proof.
  induction r as [ | a | | neg items | r1 IH1 r2 IH2 | r1 IH1 r2 IH2
                 | g lo hi r IH | i r IH | | ]; intros s c k res H; cbn [m] in H.
  - exists [], s, c. done.
  - destruct s as [|x s]; [done|]. destruct (lit_match ic a x) eqn:Hx; [|done].
    exists [x], s, c. split; [done|]. split; [by exists x|]. done.
  - destruct s as [|x s]; [done|]. destruct (x =? NL) eqn:Hx; [done|].
    exists [x], s, c. split; [done|]. split; [by exists x|]. done.
  - destruct s as [|x s]; [done|].
    destruct (set_match ic neg items x) eqn:Hx; [|done].
    exists [x], s, c. split; [done|]. split; [by exists x|]. done.
  - apply IH1 in H as (w1 & rest1 & c1 & -> & HP1 & Hk & Hg1).
    apply IH2 in Hk as (w2 & rest & c2 & -> & HP2 & Hk & Hg2).
    exists (w1 ++ w2), rest, c2. split; [by rewrite app_assoc|].
    split; [by exists w1, w2|]. split; [done|].
    intros i Hi. simpl in Hi. rewrite elem_of_app in Hi.
    rewrite Hg2 by tauto. apply Hg1. tauto.
  - apply orelse_Some in H as [H|H].
    + apply IH1 in H as (w & rest & c' & -> & HP & Hk & Hg).
      exists w, rest, c'. split; [done|]. split; [by left|]. split; [done|].
      intros i Hi. simpl in Hi. rewrite elem_of_app in Hi. apply Hg. tauto.
    + apply IH2 in H as (w & rest & c' & -> & HP & Hk & Hg).
      exists w, rest, c'. split; [done|]. split; [by right|]. split; [done|].
      intros i Hi. simpl in Hi. rewrite elem_of_app in Hi. apply Hg. tauto.
  - eapply rep_loop_sound in H; [|exact IH]. exact H.
  - apply IH in H as (w & rest & c' & -> & HP & Hk & Hg).
    eexists w, rest, _. split; [done|]. split; [done|]. split; [exact Hk|].
    intros j Hj. simpl in Hj. rewrite elem_of_cons in Hj.
    simpl. destruct (Nat.eqb j i) eqn:Hji.
    { apply Nat.eqb_eq in Hji. tauto. }
    apply Hg. tauto.
  - destruct (Nat.eqb (length s) n0) eqn:Hn; [|done]. apply Nat.eqb_eq in Hn.
    exists [], s, c. done.
  - destruct s as [|x [|y s]]; [ | | done].
    + exists [], [], c. split; [done|]. split; [|done]. split; auto.
    + destruct (x =? NL) eqn:Hx; [|done]. apply N.eqb_eq in Hx. subst x.
      exists [], [NL], c. split; [done|]. split; [|done]. split; auto.
Qed.

Lemma m_complete ic n0 r : complete_for (@m R ic n0 r) (lang ic n0 r).
Proof.
  induction r as [ | a | | neg items | r1 IH1 r2 IH2 | r1 IH1 r2 IH2
                 | g lo hi r IH | i r IH | | ]; intros w rest c k H Hk; simpl in H.
  - subst w. simpl. apply Hk.
  - destruct H as (x & -> & Hx). simpl. rewrite Hx. apply Hk.
  - destruct H as (x & -> & Hx). simpl. rewrite Hx. apply Hk.
  - destruct H as (x & -> & Hx). simpl. rewrite Hx. apply Hk.
  - destruct H as (w1 & w2 & -> & H1 & H2). cbn [m]. rewrite <- app_assoc.
    apply IH1; [done|]. intros c'. by apply IH2.
  - cbn [m]. apply orelse_is_Some. destruct H as [H|H]; [left|right].
    + by apply IH1.
    + by apply IH2.
  - cbn [m]. eapply rep_loop_complete; eauto. rewrite length_app. lia.
  - cbn [m]. apply IH; [done|]. intros c'. apply Hk.
  - destruct H as [-> Hn]. simpl. apply Nat.eqb_eq in Hn. rewrite Hn. apply Hk.
  - destruct H as [-> [-> | ->]]; simpl; apply Hk.
Qed.
End MatcherSound.

(** [re.match] succeeds exactly when the subject starts with a word of the
    pattern. *)
Lemma re_match_lang ic r s :
  is_Some_b (re_match ic r s) = true <->
  exists w rest, s = w ++ rest /\ lang ic (length s) r w rest.
Proof.
  unfold re_match. split.
  - destruct (m ic _ r s [] _) as [res|] eqn:H; [|done]. intros _.
    apply m_sound in H as (w & rest & c' & -> & HP & _). eauto.
  - intros (w & rest & -> & HP).
    destruct (m_complete ic (length (w ++ rest)) r w rest []
                (fun s' c => Some (s', c)) HP) as [x Hx]; [by eauto|].
    by rewrite Hx.
Qed.

(** ** Runs of characters of one class *)

Lemma iter_class (P : str -> str -> Prop) (p : N -> bool) lo hi :
  (forall w rest, P w rest <-> exists x, w = [x] /\ p x = true) ->
  forall w cnt rest,
    iter P lo hi cnt w rest <->
    Forall (fun x => p x = true) w /\ (lo <= cnt + length w)%nat /\
    (forall h, hi = Some h -> w <> [] -> (cnt + length w <= h)%nat).
Proof.
  intros HP w cnt rest. split.
  - induction 1 as [cnt rest Hlo | cnt w w' rest Hhi Hne Hw Hit IH].
    + split; [constructor|]. split; [simpl; lia|done].
    + apply HP in Hw as (x & -> & Hx). destruct IH as (Hall & Hlo & Hbound).
      split; [by constructor|]. simpl. split; [lia|].
      intros h Hh _. destruct w' as [|y w'].
      * specialize (Hhi h Hh). simpl. lia.
      * specialize (Hbound h Hh ltac:(done)). simpl in *. lia.
  - revert cnt. induction w as [|x w IH]; intros cnt (Hall & Hlo & Hbound).
    + constructor. simpl in Hlo. lia.
    + apply Forall_cons in Hall as [Hx Hall].
      change (x :: w) with ([x] ++ w). constructor.
      * intros h Hh. specialize (Hbound h Hh ltac:(done)). simpl in Hbound. lia.
      * done.
      * apply HP. by exists x.
      * apply IH. split; [done|]. simpl in Hlo. split; [lia|].
        intros h Hh _. specialize (Hbound h Hh ltac:(done)). simpl in Hbound. lia.
Qed.

Lemma existsb_chars x s : existsb (in_item x) (chars s) = existsb (N.eqb x) s.
Proof. induction s as [|c s IH]; [done|]. simpl. by rewrite IH. Qed.

Lemma ws_class x : set_match false false [CSpace] x = is_space x.
Proof. unfold set_match. simpl. by rewrite orb_false_r. Qed.

Lemma ar_class x :
  set_match false false [CRange (ch "0") (ch "9"); CRange (ch "０") (ch "９")] x
  = is_ar_digit x.
Proof. unfold set_match, is_ar_digit. simpl. by rewrite orb_false_r. Qed.

Lemma dot_class x : set_match false false (chars (u ".．")) x = is_dot x.
Proof. unfold set_match, is_dot. simpl. by rewrite orb_false_r. Qed.

Lemma letter_class x :
  set_match false false [CRange (ch "a") (ch "z"); CRange (ch "A") (ch "Z")] x
  = is_letter x.
Proof. unfold set_match, is_letter. simpl. by rewrite orb_false_r. Qed.

Lemma follow_class x :
  set_match false true (CDigit :: chars (u ")）]】}")) x = may_follow x.
Proof.
  unfold set_match, may_follow. cbn [existsb in_item].
  rewrite existsb_chars, xorb_true_l.
  by rewrite negb_orb.
Qed.

Section Words.
Variable n0 : nat.
Local Abbreviation L := (lang false n0).

Lemma lang_ws w rest : L ws w rest <-> exists x, w = [x] /\ is_space x = true.
Proof. unfold ws. simpl. by setoid_rewrite ws_class. Qed.

Lemma lang_ar w rest : L AR_NUM w rest <-> exists x, w = [x] /\ is_ar_digit x = true.
Proof. unfold AR_NUM. simpl lang. by setoid_rewrite ar_class. Qed.

Lemma lang_dot w rest : L DOT w rest <-> exists x, w = [x] /\ is_dot x = true.
Proof. unfold DOT. simpl lang. by setoid_rewrite dot_class. Qed.

Lemma lang_letter w rest :
  L LETTER w rest <-> exists x, w = [x] /\ is_letter x = true.
Proof. unfold LETTER. simpl lang. by setoid_rewrite letter_class. Qed.

Lemma lang_follow w rest :
  L INVALID_FOLLOW w rest <-> exists x, w = [x] /\ may_follow x = true.
Proof. unfold INVALID_FOLLOW. simpl lang. by setoid_rewrite follow_class. Qed.

Lemma lang_spaces w rest : L (star ws) w rest <-> spaces w.
Proof.
  unfold star. simpl lang.
  rewrite (iter_class _ is_space) by (intros ? r; apply (lang_ws _ r)).
  unfold spaces. split; [tauto|]. intros H. split; [done|]. split; [lia|done].
Qed.

Lemma lang_digits lo hi w rest : L (times lo hi AR_NUM) w rest <-> digits lo hi w.
Proof.
  unfold times. simpl lang.
  rewrite (iter_class _ is_ar_digit) by (intros ? r; apply (lang_ar _ r)).
  unfold digits, digit_run. split.
  - intros (Hall & Hlo & Hhi). split; [done|]. split; [simpl in Hlo; lia|].
    destruct w; [simpl; lia|]. by apply (Hhi hi).
  - intros (Hall & Hlo & Hhi). split; [done|]. split; [simpl; lia|].
    intros h [= <-] _. simpl. lia.
Qed.

Lemma lang_digit_run w rest : L (plus AR_NUM) w rest <-> digit_run w /\ w <> [].
Proof.
  unfold plus. simpl lang.
  rewrite (iter_class _ is_ar_digit) by (intros ? r; apply (lang_ar _ r)).
  unfold digit_run. split.
  - intros (Hall & Hlo & _). split; [done|]. intros ->. simpl in Hlo. lia.
  - intros (Hall & Hne). split; [done|]. split; [|done].
    destruct w; [done|]. simpl. lia.
Qed.

Lemma lang_opt_space w rest : L SEP_LOOSE w rest <-> opt_space w.
Proof.
  unfold SEP_LOOSE, opt. simpl lang.
  rewrite (iter_class _ is_space) by (intros ? r; apply (lang_ws _ r)).
  unfold opt_space, spaces. split.
  - intros (Hall & _ & Hhi). split; [done|].
    destruct w; [simpl; lia|]. by apply (Hhi 1%nat).
  - intros (Hall & Hlen). split; [done|]. split; [lia|].
    intros h [= <-] _. simpl. lia.
Qed.

Lemma lang_any_nil rest : L (star Any) [] rest.
Proof. unfold star. simpl. constructor. lia. Qed.

(** The content pattern: what is left starts, after white space, with a
    character that may follow. *)
Lemma lang_content g w rest :
  L (CONTENT_PATTERN g) w rest -> content_follows (w ++ rest).
Proof.
  unfold CONTENT_PATTERN. cbn [lang].
  intros (w1 & w2 & -> & Hsp & (w3 & w4 & -> & Hc & _)).
  apply lang_spaces in Hsp. apply lang_follow in Hc as (c & -> & Hc).
  exists w1, c, (w4 ++ rest). split; [|done].
  by rewrite <- !app_assoc.
Qed.

Lemma content_lang g s :
  content_follows s -> exists w rest, s = w ++ rest /\ L (CONTENT_PATTERN g) w rest.
Proof.
  intros (sp & c & rest & -> & Hsp & Hc).
  exists (sp ++ [c] ++ []), rest. split; [by rewrite <- !app_assoc|].
  unfold CONTENT_PATTERN. cbn [lang].
  exists sp, ([c] ++ []). split; [done|]. split; [by apply lang_spaces|].
  exists [c], []. split; [done|]. split; [|apply lang_any_nil].
  apply lang_follow. by exists c.
Qed.
End Words.

(** ** The labels of decimal numbering *)

Lemma seqs_cons r rs : rs <> [] -> seqs (r :: rs) = Seq r (seqs rs).
Proof. by destruct rs. Qed.

Section Labels.
Variable n0 : nat.
Local Abbreviation L := (lang false n0).

Lemma lang_numeric_group w rest :
  L (seqs [DOT; star ws; times 1 3 AR_NUM]) w rest <-> numeric_group w.
Proof.
  cbn [seqs lang]. unfold numeric_group. split.
  - intros (w1 & w2 & -> & Hd & (w3 & w4 & -> & Hsp & Hds)).
    apply lang_dot in Hd as (d & -> & Hd). apply lang_spaces in Hsp.
    apply lang_digits in Hds. by exists d, w3, w4.
  - intros (d & sp & ds & -> & Hd & Hsp & Hds).
    exists [d], (sp ++ ds). split; [done|]. split; [apply lang_dot; by exists d|].
    exists sp, ds. split; [done|]. split; [by apply lang_spaces|by apply lang_digits].
Qed.

Lemma lang_groups g n w rest :
  L (seqs (repeat_part g n ++ [SEP_LOOSE])) w rest <->
  exists groups sep, w = concat groups ++ sep /\ length groups = n /\
                     Forall numeric_group groups /\ opt_space sep.
Proof.
  revert g w rest. induction n as [|n IH]; intros g w rest.
  - cbn [repeat_part app seqs]. rewrite lang_opt_space. split.
    + intros H. exists [], w. done.
    + intros (groups & sep & -> & Hlen & _ & Hsep).
      destruct groups; [done|]. done.
  - cbn [repeat_part app]. rewrite seqs_cons by (by destruct (repeat_part _ _)).
    cbn [lang]. split.
    + intros (w1 & w2 & -> & Hg & Hrest).
      apply lang_numeric_group in Hg.
      apply IH in Hrest as (groups & sep & -> & Hlen & Hall & Hsep).
      exists (w1 :: groups), sep. split; [by simpl; rewrite <- ?app_assoc|].
      split; [simpl; lia|]. split; [by constructor|done].
    + intros (groups & sep & -> & Hlen & Hall & Hsep).
      destruct groups as [|w1 groups]; [done|].
      apply Forall_cons in Hall as [H1 Hall].
      exists w1, (concat groups ++ sep). split; [by simpl; rewrite <- ?app_assoc|].
      split; [by apply lang_numeric_group|].
      apply IH. exists groups, sep. split; [done|]. split; [simpl in Hlen; lia|done].
Qed.

Lemma lang_label_one w rest :
  L (seqs [star ws; times 1 2 AR_NUM; DOT; SEP_LOOSE]) w rest <-> decimal_label 1 w.
Proof.
  cbn [seqs lang]. unfold decimal_label. split.
  - intros (sp & w1 & -> & Hsp & (first & w2 & -> & Hf & (d & sep & -> & Hd & Hsep))).
    apply lang_spaces in Hsp. apply lang_digits in Hf.
    apply lang_dot in Hd as (x & -> & Hx). apply lang_opt_space in Hsep.
    exists sp, first, [x], sep. split; [done|]. split; [done|]. split; [done|].
    split; [done|]. by exists x.
  - intros (sp & first & tail & sep & -> & Hsp & Hf & Hsep & (d & -> & Hd)).
    exists sp, (first ++ [d] ++ sep). split; [done|].
    split; [by apply lang_spaces|].
    exists first, ([d] ++ sep). split; [done|]. split; [by apply lang_digits|].
    exists [d], sep. split; [done|]. split; [apply lang_dot; by exists d|].
    by apply lang_opt_space.
Qed.

Lemma lang_label_deep n w rest :
  L (seqs ([star ws; times 1 2 AR_NUM] ++ repeat_part 2 (S n) ++ [SEP_LOOSE])) w rest
  <-> decimal_label (S (S n)) w.
Proof.
  cbn [app]. rewrite seqs_cons by done.
  rewrite seqs_cons by (by destruct (repeat_part _ _)).
  cbn [lang]. unfold decimal_label. split.
  - intros (sp & w1 & -> & Hsp & (first & w2 & -> & Hf & Hg)).
    apply lang_spaces in Hsp. apply lang_digits in Hf.
    apply lang_groups in Hg as (groups & sep & -> & Hlen & Hall & Hsep).
    exists sp, first, (concat groups), sep. split; [done|]. split; [done|].
    split; [done|]. split; [done|]. exists groups. split; [done|].
    split; [simpl; lia|done].
  - intros (sp & first & tail & sep & -> & Hsp & Hf & Hsep
            & (groups & -> & Hlen & Hall)).
    exists sp, (first ++ concat groups ++ sep). split; [done|].
    split; [by apply lang_spaces|].
    exists first, (concat groups ++ sep). split; [done|].
    split; [by apply lang_digits|].
    apply lang_groups. exists groups, sep. split; [done|].
    split; [simpl in Hlen; lia|done].
Qed.
End Labels.

(** A line matches the pattern of depth [d] exactly when it is a heading
    of decimal numbering of depth [d] with content after its label. *)
Lemma number_pattern_heading (d : nat) (line : str) :
  (1 <= d)%nat ->
  is_Some_b (re_match false (number_pattern d) line) = true <->
  decimal_heading content_follows d line.
Proof.
  intros Hd. rewrite re_match_lang. unfold decimal_heading.
  destruct d as [|[|n]]; [lia| |].
  - unfold number_pattern. cbn [lang]. split.
    + intros (w & rest & -> & (w1 & wc & -> & (wb & wg & -> & [-> _] & Hl) & Hc)).
      apply lang_label_one in Hl. apply lang_content in Hc.
      exists wg, (wc ++ rest). split; [by rewrite <- app_assoc|done].
    + intros (label & rest0 & -> & Hl & Hc).
      apply (content_lang (length (label ++ rest0)) 2) in Hc
        as (wc & rest & -> & Hc).
      exists (([] ++ label) ++ wc), rest. split; [by rewrite <- app_assoc|].
      exists ([] ++ label), wc. split; [done|]. split; [|done].
      exists [], label. split; [done|]. split; [done|].
      by apply lang_label_one.
  - change (number_pattern (S (S n))) with
      (Seq (Seq Bol (Group 1 (seqs ([star ws; times 1 2 AR_NUM]
                                    ++ repeat_part 2 (S (S n) - 1) ++ [SEP_LOOSE]))))
           (CONTENT_PATTERN (S (S n) + 1))).
    replace (S (S n) - 1)%nat with (S n) by lia.
    cbn [lang]. split.
    + intros (w & rest & -> & (w1 & wc & -> & (wb & wg & -> & [-> _] & Hl) & Hc)).
      apply lang_label_deep in Hl. apply lang_content in Hc.
      exists wg, (wc ++ rest). split; [by rewrite <- app_assoc|done].
    + intros (label & rest0 & -> & Hl & Hc).
      apply (content_lang (length (label ++ rest0)) (S (S n) + 1)) in Hc
        as (wc & rest & -> & Hc).
      exists (([] ++ label) ++ wc), rest. split; [by rewrite <- app_assoc|].
      exists ([] ++ label), wc. split; [done|]. split; [|done].
      exists [], label. split; [done|]. split; [done|].
      by apply lang_label_deep.
Qed.

(** ** Letter labels *)

(** A repetition without bounds, of a body that does not look at what
    follows: the word is cut into pieces of the body. *)
Lemma iter_pieces (P : str -> str -> Prop) (Q : str -> Prop) :
  (forall w rest, P w rest <-> Q w) ->
  forall w cnt rest,
    iter P 0 None cnt w rest <->
    exists pieces, w = concat pieces /\ Forall (fun p => Q p /\ p <> []) pieces.
Proof.
  intros HP w cnt rest. split.
  - induction 1 as [cnt rest _ | cnt w w' rest _ Hne Hw _ IH].
    + by exists [].
    + destruct IH as (pieces & -> & Hall). apply HP in Hw.
      exists (w :: pieces). split; [done|]. by constructor.
  - intros (pieces & -> & Hall). revert cnt.
    induction Hall as [|p pieces [Hq Hne] _ IH]; intros cnt.
    + constructor. lia.
    + simpl. constructor; [done|done| |apply IH]. by apply HP.
Qed.

Section LetterLabels.
Variable n0 : nat.
Local Abbreviation L := (lang false n0).

Lemma lang_dotted_number w rest :
  L (Seq DOT (plus AR_NUM)) w rest <-> dotted_number w.
Proof.
  cbn [lang]. unfold dotted_number. split.
  - intros (w1 & ds & -> & Hd & Hds). apply lang_dot in Hd as (d & -> & Hd).
    apply lang_digit_run in Hds as [Hds Hne]. by exists d, ds.
  - intros (d & ds & -> & Hd & Hds & Hne). exists [d], ds. split; [done|].
    split; [apply lang_dot; by exists d|]. by apply lang_digit_run.
Qed.

Lemma dotted_number_nonempty g : dotted_number g -> g <> [].
Proof. by intros (d & ds & -> & _). Qed.

Lemma lang_letter_label w rest :
  L (seqs [star ws; LETTER; DOT; plus AR_NUM; star (Seq DOT (plus AR_NUM))]) w rest
  <-> exists n, letter_label n w.
Proof.
  cbn [seqs]. split.
  - intros (sp & w1 & -> & Hsp & (wl & w2 & -> & Hl & (wd & w3 & -> & Hd
            & (ds & w4 & -> & Hds & Hit)))).
    apply lang_spaces in Hsp. apply lang_letter in Hl as (l & -> & Hl).
    apply lang_dot in Hd as (d & -> & Hd).
    apply lang_digit_run in Hds as [Hds Hne].
    unfold star in Hit. cbn [lang] in Hit.
    apply (iter_pieces _ dotted_number) in Hit as (pieces & -> & Hall);
      [|intros ? r; apply (lang_dotted_number _ r)].
    exists (S (length pieces)), sp, l, ((d :: ds) :: pieces).
    split; [done|]. split; [done|]. split; [done|]. split; [done|].
    split; [lia|]. constructor; [by exists d, ds|].
    eapply Forall_impl; [exact Hall|]. by intros ? [? _].
  - intros (n & sp & l & groups & -> & Hsp & Hl & Hlen & Hn & Hall).
    destruct groups as [|g groups]; [simpl in Hlen; lia|].
    apply Forall_cons in Hall as [(d & ds & -> & Hd & Hds & Hne) Hall].
    exists sp, ([l] ++ [d] ++ ds ++ concat groups). split; [done|].
    split; [by apply lang_spaces|].
    exists [l], ([d] ++ ds ++ concat groups). split; [done|].
    split; [apply lang_letter; by exists l|].
    exists [d], (ds ++ concat groups). split; [done|].
    split; [apply lang_dot; by exists d|].
    exists ds, (concat groups). split; [done|].
    split; [by apply lang_digit_run|].
    unfold star. cbn [lang].
    apply (iter_pieces _ dotted_number); [intros ? r; apply (lang_dotted_number _ r)|].
    exists groups. split; [done|].
    eapply Forall_impl; [exact Hall|].
    intros g Hg. split; [done|]. by apply dotted_number_nonempty.
Qed.
End LetterLabels.

Lemma m_anchored_group {R} ic n0 i x y s (k : str -> caps -> option R) :
  m ic n0 (Seq (Seq Bol (Group i x)) y) s [] k
  = if Nat.eqb (length s) n0
    then m ic n0 x s [] (fun s' c' =>
           m ic n0 y s' ((i, take (length s - length s') s) :: c') k)
    else None.
Proof. reflexivity. Qed.

(** A match of the letter pattern: group 1 is a letter label at the start
    of the line, and content follows it. *)
Lemma letter_pattern_match (line : str) (mo : mobj) :
  re_match false (seqs [LETTER_NUMBER_PATTERN; SEP_LOOSE; CONTENT_PATTERN 2]) line
  = Some mo ->
  exists label rest n,
    line = label ++ rest /\ group mo.2 1 = Some label /\
    letter_label n label /\ content_follows rest.
Proof.
  unfold re_match, LETTER_NUMBER_PATTERN. cbn [seqs]. intros H.
  rewrite m_anchored_group in H.
  destruct (Nat.eqb (length line) (length line)); [|done].
  apply m_sound in H as (label & rest & c1 & -> & Hl & H & _).
  rewrite length_app, Nat.add_sub, take_app_length in H.
  apply m_sound in H as (w2 & rest2 & c2 & -> & Hsep & H & Hg).
  injection H as <-. simpl snd.
  exists label, (w2 ++ rest2).
  apply lang_letter_label in Hl as (n & Hl). exists n.
  split; [done|]. split.
  { rewrite Hg; [simpl; done|]. cbn. by intros ?%list_elem_of_singleton. }
  split; [done|].
  cbn [lang] in Hsep. destruct Hsep as (sep & wc & -> & Hsep & Hc).
  apply lang_opt_space in Hsep as [Hsep _].
  apply lang_content in Hc as (sp & c & rest' & Hc & Hsp & Hfollow).
  exists (sep ++ sp), c, rest'. rewrite <- !app_assoc, Hc.
  split; [done|]. split; [by apply Forall_app|done].
Qed.

Lemma letter_heading_match (line : str) :
  letter_heading content_follows line ->
  is_Some (re_match false (seqs [LETTER_NUMBER_PATTERN; SEP_LOOSE; CONTENT_PATTERN 2])
             line).
Proof.
  intros (n & label & rest0 & -> & Hl & Hc).
  apply (content_lang (length (label ++ rest0)) 2) in Hc as (wc & rest & -> & Hc).
  assert (H : is_Some_b
            (re_match false (seqs [LETTER_NUMBER_PATTERN; SEP_LOOSE; CONTENT_PATTERN 2])
               (label ++ wc ++ rest)) = true).
  { apply re_match_lang. exists (([] ++ label) ++ [] ++ wc), rest.
    split; [by rewrite <- !app_assoc|].
    cbn [seqs]. unfold LETTER_NUMBER_PATTERN. cbn [lang].
    exists ([] ++ label), ([] ++ wc). split; [done|]. split.
    - exists [], label. split; [done|]. split; [done|].
      apply lang_letter_label. by exists n.
    - exists [], wc. split; [done|]. split; [|done].
      apply lang_opt_space. split; [constructor|simpl; lia]. }
  destruct (re_match _ _ _); [by eexists|done].
Qed.

(** ** Counting the segments of a label *)

Ltac class_arith :=
  unfold is_ar_digit, is_letter, is_dot, is_space, NL in *;
  repeat match goal with
         | H : _ = true |- _ =>
             rewrite ?orb_true_iff, ?andb_true_iff, ?N.leb_le, ?N.eqb_eq in H
         | |- _ = false => apply not_true_is_false; intros ?
         end;
  lia.

Lemma digit_not_space c : is_ar_digit c = true -> is_space c = false.
Proof. intros H. class_arith. Qed.

Lemma digit_not_dot c : is_ar_digit c = true -> is_dot c = false.
Proof. intros H. class_arith. Qed.

Lemma digit_not_newline c : is_ar_digit c = true -> c <> NL.
Proof. intros H ->. done. Qed.

Lemma letter_not_space c : is_letter c = true -> is_space c = false.
Proof. intros H. class_arith. Qed.

Lemma letter_not_dot c : is_letter c = true -> is_dot c = false.
Proof. intros H. class_arith. Qed.

Lemma space_not_dot c : is_space c = true -> is_dot c = false.
Proof. intros H. class_arith. Qed.

Lemma lstrip_spaces sp s : spaces sp -> lstrip (sp ++ s) = lstrip s.
Proof. induction 1 as [|c sp Hc _ IH]; [done|]. simpl. by rewrite Hc. Qed.

Lemma lstrip_plain c s : is_space c = false -> lstrip (c :: s) = c :: s.
Proof. intros H. simpl. by rewrite H. Qed.

Lemma rstrip_plain s c : is_space c = false -> rstrip (s ++ [c]) = s ++ [c].
Proof.
  intros H. unfold rstrip. rewrite rev_app_distr. simpl. rewrite H.
  simpl. by rewrite rev_involutive.
Qed.

(** A string that starts and ends with characters that are not white
    space is its own [strip]. *)
Lemma strip_plain c s d :
  is_space c = false -> is_space d = false ->
  strip (c :: s ++ [d]) = c :: s ++ [d].
Proof.
  intros Hc Hd. unfold strip. rewrite lstrip_plain by done.
  change (c :: s ++ [d]) with ((c :: s) ++ [d]). by apply rstrip_plain.
Qed.

Lemma strip_single c : is_space c = false -> strip [c] = [c].
Proof.
  intros Hc. unfold strip. rewrite lstrip_plain by done.
  by apply (rstrip_plain []).
Qed.

Lemma digit_run_last ds :
  digit_run ds -> ds <> [] -> exists init d, ds = init ++ [d] /\ is_ar_digit d = true.
Proof.
  intros Hall Hne. destruct (exists_last Hne) as (init & d & ->).
  exists init, d. split; [done|].
  apply Forall_app in Hall as [_ Hd]. by inversion Hd.
Qed.

(** The last character of what follows the letter of a label is a digit. *)
Lemma groups_last groups :
  Forall dotted_number groups -> groups <> [] ->
  exists init d, concat groups = init ++ [d] /\ is_ar_digit d = true.
Proof.
  induction 1 as [|g groups (x & ds & -> & _ & Hds & Hne) Hall IH]; [done|].
  intros _. destruct groups as [|g' groups].
  - destruct (digit_run_last ds Hds Hne) as (init & d & -> & Hd).
    exists (x :: init), d. simpl. by rewrite app_nil_r.
  - destruct IH as (init & d & Heq & Hd); [done|].
    exists ((x :: ds) ++ init), d. split; [|done].
    change (concat ((x :: ds) :: g' :: groups))
      with ((x :: ds) ++ concat (g' :: groups)).
    by rewrite Heq, app_assoc.
Qed.

(** Cutting at the dots. *)
Lemma search_dot n0 s :
  match search_from false n0 DOT s with
  | None => split_dots s = [s]
  | Some (skipped, _, (rest, _)) =>
      split_dots s = skipped :: split_dots rest /\ (length rest < length s)%nat
  end.
Proof.
  induction s as [|x s IH]; [done|].
  cbn [search_from]. unfold DOT at 1. cbn [m]. rewrite dot_class.
  cbn [split_dots]. destruct (is_dot x) eqn:Hx.
  - simpl. split; [done|lia].
  - destruct (search_from false n0 DOT s) as [[[skipped matched] [rest c]]|].
    + destruct IH as [-> Hlen]. split; [done|]. simpl. lia.
    + by rewrite IH.
Qed.

Lemma split_fuel_dots n0 fuel : forall s,
  (length s <= fuel)%nat -> split_fuel fuel false n0 DOT s = split_dots s.
Proof.
  induction fuel as [|fuel IH]; intros s Hlen.
  - destruct s; [done|]. simpl in Hlen. lia.
  - cbn [split_fuel]. pose proof (search_dot n0 s) as Hs.
    destruct (search_from false n0 DOT s) as [[[skipped matched] [rest c]]|];
      [|done].
    destruct Hs as [-> Hlt]. apply Nat.ltb_lt in Hlt as Hlt'. rewrite Hlt'.
    rewrite IH by lia. done.
Qed.

Lemma re_split_dots s : re_split DOT s = split_dots s.
Proof. unfold re_split. by apply split_fuel_dots. Qed.

(** A trailing dot is removed only where there is one. *)
Lemma search_trailing_dot n0 s :
  (forall init c, s = init ++ [c] -> is_dot c = false /\ c <> NL) ->
  search_from false n0 (Seq DOT Eol) s = None.
Proof.
  induction s as [|x s IH]; intros Hend; [done|].
  cbn [search_from]. unfold DOT at 1. cbn [m]. rewrite dot_class.
  assert (Htail : search_from false n0 (Seq DOT Eol) s = None).
  { apply IH. intros init c ->. apply (Hend (x :: init) c). done. }
  destruct (is_dot x) eqn:Hx; [|by rewrite Htail].
  destruct s as [|y [|z s]].
  - destruct (Hend [] x eq_refl) as [Hd _]. congruence.
  - destruct (Hend [x] y eq_refl) as [_ Hy].
    destruct (N.eqb_spec y NL); [done|]. by rewrite Htail.
  - by rewrite Htail.
Qed.

Lemma re_sub_trailing_dot s :
  (forall init c, s = init ++ [c] -> is_dot c = false /\ c <> NL) ->
  re_sub_empty (Seq DOT Eol) s = s.
Proof.
  intros Hend. unfold re_sub_empty, re_split.
  destruct (length s) as [|fuel] eqn:E.
  - simpl. by rewrite app_nil_r.
  - cbn [split_fuel]. rewrite E. rewrite search_trailing_dot by done.
    simpl. by rewrite app_nil_r.
Qed.

Lemma split_dots_plain pre s l ls :
  Forall (fun c => is_dot c = false) pre ->
  split_dots s = l :: ls -> split_dots (pre ++ s) = (pre ++ l) :: ls.
Proof.
  intros Hpre Hs. induction Hpre as [|c pre Hc _ IH]; [done|].
  simpl. by rewrite Hc, IH.
Qed.

Lemma split_dots_groups groups :
  Forall dotted_number groups ->
  split_dots (concat groups) = [] :: map (drop 1) groups.
Proof.
  induction 1 as [|g groups (x & ds & -> & Hx & Hds & _) _ IH]; [done|].
  change (concat ((x :: ds) :: groups)) with (x :: (ds ++ concat groups)).
  cbn [split_dots]. rewrite Hx.
  rewrite (split_dots_plain ds _ [] (map (drop 1) groups)); [|
    by eapply Forall_impl; [exact Hds|]; intros; apply digit_not_dot | done].
  by rewrite app_nil_r.
Qed.

Lemma count_groups (f : str -> bool) groups :
  Forall dotted_number groups ->
  (forall ds, digit_run ds -> ds <> [] -> f ds = true) ->
  length (filter (fun s => f s = true) (map (drop 1) groups)) = length groups.
Proof.
  intros Hall Hf. induction Hall as [|g groups (x & ds & -> & _ & Hds & Hne) _ IH];
    [done|].
  simpl map. rewrite filter_cons_True by (simpl; by apply Hf).
  cbn [length]. f_equal. exact IH.
Qed.

Lemma strip_digit_run ds : digit_run ds -> ds <> [] -> strip ds = ds.
Proof.
  intros Hds Hne. destruct ds as [|c ds]; [done|].
  apply Forall_cons in Hds as Hc. destruct Hc as [Hc Hrest].
  destruct ds as [|c' ds].
  - apply strip_single. by apply digit_not_space.
  - destruct (digit_run_last (c' :: ds) Hrest ltac:(done)) as (init & d & -> & Hd).
    apply strip_plain; by apply digit_not_space.
Qed.

(** The level of a match of the letter pattern: the letter and each of the
    numeric groups of the label count for one. *)
Lemma letter_level_label (mo : mobj) (label : str) (n : nat) :
  group mo.2 1 = Some label -> letter_label n label ->
  letter_level mo = Z.of_nat (S n) /\ segment_count label = S n.
Proof.
  intros Hg (sp & l & groups & -> & Hsp & Hl & Hlen & Hn & Hall).
  destruct (groups_last groups Hall) as (init & d & Hlast & Hd).
  { intros ->. simpl in Hlen. lia. }
  pose proof (split_dots_groups groups Hall) as Hsplit.
  split.
  - unfold letter_level. rewrite Hg. simpl default.
    assert (Hstrip : strip (sp ++ l :: concat groups) = l :: concat groups).
    { unfold strip. rewrite lstrip_spaces by done.
      rewrite lstrip_plain by (by apply letter_not_space).
      rewrite Hlast. change (l :: init ++ [d]) with ((l :: init) ++ [d]).
      apply rstrip_plain. by apply digit_not_space. }
    rewrite Hstrip.
    rewrite re_sub_trailing_dot.
    2: { intros init' c Heq. rewrite Hlast in Heq.
         change (l :: init ++ [d]) with ((l :: init) ++ [d]) in Heq.
         apply app_inj_tail in Heq as [_ <-].
         split; [by apply digit_not_dot|by apply digit_not_newline]. }
    rewrite re_split_dots.
    change (l :: concat groups) with ([l] ++ concat groups).
    rewrite (split_dots_plain [l] _ _ _ ltac:(constructor; [by apply letter_not_dot|done])
               Hsplit).
    rewrite filter_cons_True.
    2: { simpl app. rewrite strip_single by (by apply letter_not_space). done. }
    simpl length. rewrite count_groups; [do 2 f_equal; exact Hlen|done|].
    intros ds Hds Hne. rewrite strip_digit_run by done. by destruct ds.
  - unfold segment_count.
    change (sp ++ l :: concat groups) with (sp ++ [l] ++ concat groups).
    rewrite app_assoc.
    rewrite (split_dots_plain (sp ++ [l]) _ _ _
               ltac:(apply Forall_app; split;
                     [eapply Forall_impl; [exact Hsp|]; intros; by apply space_not_dot
                     |constructor; [by apply letter_not_dot|done]])
               Hsplit).
    rewrite filter_cons_True by (rewrite app_nil_r; by destruct sp).
    simpl length. f_equal. rewrite <- Hlen.
    clear -Hall. induction Hall as [|g groups (x & ds & -> & _ & _ & Hne) _ IH];
      [done|].
    simpl map. rewrite filter_cons_True by (simpl; by rewrite drop_0).
    cbn [length]. f_equal. exact IH.
Qed.

(** ** Which label a greedy repetition takes *)

(** Where a run of characters of one class ends is determined, also at the
    end of the string. *)
Lemma run_end_unique (p : N -> bool) (l1 l2 r1 r2 : str) :
  Forall (fun c => p c = true) l1 -> Forall (fun c => p c = true) l2 ->
  (forall c t, r1 = c :: t -> p c = false) ->
  (forall c t, r2 = c :: t -> p c = false) ->
  l1 ++ r1 = l2 ++ r2 -> l1 = l2 /\ r1 = r2.
Proof.
  intros H1. revert l2. induction H1 as [|x l1 Hx _ IH]; intros l2 H2 Hr1 Hr2 Heq.
  - destruct H2 as [|y l2 Hy _]; [done|]. simpl in Heq.
    rewrite (Hr1 y (l2 ++ r2) Heq) in Hy. done.
  - destruct H2 as [|y l2 Hy H2].
    + simpl in Heq. symmetry in Heq. rewrite (Hr2 x (l1 ++ r1) Heq) in Hx. done.
    + simpl in Heq. injection Heq as -> Heq.
      destruct (IH l2 H2 Hr1 Hr2 Heq) as [-> ->]. done.
Qed.

Lemma ar_digit_decimal c : is_ar_digit c = true -> is_decimal c = true.
Proof.
  intros Hc. unfold is_decimal. apply existsb_exists.
  unfold is_ar_digit in Hc.
  apply orb_true_iff in Hc as [Hc|Hc]; apply andb_true_iff in Hc as [Hlo Hhi];
    apply N.leb_le in Hlo, Hhi.
  - exists 48. split; [|apply andb_true_iff; split; apply N.leb_le; lia].
    apply list_elem_of_In, (bool_decide_unpack _). by vm_compute.
  - exists 65296. split; [|apply andb_true_iff; split; apply N.leb_le; lia].
    apply list_elem_of_In, (bool_decide_unpack _). by vm_compute.
Qed.

Lemma digit_may_not_follow c : is_ar_digit c = true -> may_follow c = false.
Proof. intros Hc. unfold may_follow. by rewrite (ar_digit_decimal c Hc). Qed.

(** What content follows does not start with a digit. *)
Lemma content_no_digit rest :
  content_follows rest -> forall c t, rest = c :: t -> is_ar_digit c = false.
Proof.
  intros (sp & x & rest' & -> & Hsp & Hx) c t Heq.
  apply not_true_is_false. intros Hc.
  destruct Hsp as [|y sp Hy _]; simpl in Heq; injection Heq as -> _.
  - by rewrite (digit_may_not_follow c Hc) in Hx.
  - by rewrite (digit_not_space c Hc) in Hy.
Qed.

Lemma groups_no_digit groups rest :
  Forall dotted_number groups ->
  (forall c t, rest = c :: t -> is_ar_digit c = false) ->
  forall c t, concat groups ++ rest = c :: t -> is_ar_digit c = false.
Proof.
  intros Hall Hrest c t Heq.
  destruct Hall as [|g groups (d & ds & -> & Hd & _) _]; [by eapply Hrest|].
  simpl in Heq. injection Heq as -> _.
  apply not_true_is_false. intros Hc. by rewrite (digit_not_dot c Hc) in Hd.
Qed.

Lemma m_seq_last {R} ic n0 a b c d e s cs (k : str -> caps -> option R) :
  m ic n0 (Seq a (Seq b (Seq c (Seq d e)))) s cs k
  = m ic n0 (Seq a (Seq b (Seq c d))) s cs (fun s' c' => m ic n0 e s' c' k).
Proof. reflexivity. Qed.

Lemma m_star {R} ic n0 r s c (k : str -> caps -> option R) :
  m ic n0 (star r) s c k = rep_loop (m ic n0 r) true 0 None (S (length s)) 0 s c k.
Proof. reflexivity. Qed.

(** Whether a pattern followed by nothing matches does not depend on the
    groups bound before. *)
Lemma m_caps_irrelevant {R} ic n0 r s c c' (k : str -> caps -> option R) :
  (forall rest c0, is_Some (k rest c0)) ->
  is_Some (m ic n0 r s c k) -> is_Some (m ic n0 r s c' k).
Proof.
  intros Hk [res H].
  apply m_sound in H as (w & rest & c1 & -> & HP & _).
  apply m_complete; [done|]. intros c0. apply Hk.
Qed.

Lemma sep_content_follows n0 g w rest :
  lang false n0 (Seq SEP_LOOSE (CONTENT_PATTERN g)) w rest -> content_follows (w ++ rest).
Proof.
  cbn [lang]. intros (sep & wc & -> & Hsep & Hc).
  apply lang_opt_space in Hsep as [Hsep _].
  apply lang_content in Hc as (sp & c & rest' & Hc & Hsp & Hfollow).
  exists (sep ++ sp), c, rest'. rewrite <- !app_assoc, Hc.
  split; [done|]. split; [by apply Forall_app|done].
Qed.

Lemma content_follows_sep n0 g s :
  content_follows s ->
  exists w rest, s = w ++ rest /\ lang false n0 (Seq SEP_LOOSE (CONTENT_PATTERN g)) w rest.
Proof.
  intros Hc. apply (content_lang n0 g) in Hc as (wc & rest & -> & Hc).
  exists ([] ++ wc), rest. split; [done|]. cbn [lang].
  exists [], wc. split; [done|]. split; [|done].
  apply lang_opt_space. split; [constructor|simpl; lia].
Qed.

Section GreedyGroups.
Context {R : Type}.
Variable body : @matcher R.
Variable P : str -> str -> Prop.
Variable gs : list nat.
Variable k : str -> caps -> option R.
Hypothesis body_sound : sound_for body P gs.
Hypothesis body_complete : complete_for body P.
Hypothesis body_words : forall w rest, P w rest <-> dotted_number w.
Hypothesis k_caps : forall rest c c', is_Some (k rest c) -> is_Some (k rest c').
Hypothesis k_digit : forall x t c, is_ar_digit x = true -> k (x :: t) c = None.

Lemma k_no_digit rest c :
  is_Some (k rest c) -> forall x t, rest = x :: t -> is_ar_digit x = false.
Proof.
  intros [res Hk] x t ->. apply not_true_is_false. intros Hx.
  by rewrite k_digit in Hk.
Qed.

(** A greedy repetition of dotted numbers takes as many of them as the
    rest of the pattern allows. *)
Lemma star_groups_greedy : forall fuel cnt s c res,
  (length s < fuel)%nat ->
  rep_loop body true 0 None fuel cnt s c k = Some res ->
  exists groups rest c',
    s = concat groups ++ rest /\ Forall dotted_number groups /\
    k rest c' = Some res /\
    forall groups2 rest2,
      s = concat groups2 ++ rest2 -> Forall dotted_number groups2 ->
      (exists c2, is_Some (k rest2 c2)) ->
      (length groups2 <= length groups)%nat.
Proof.
  induction fuel as [|fuel IH]; intros cnt s c res Hfuel H; [lia|].
  cbn [rep_loop] in H. change (Nat.leb 0 cnt) with true in H. cbv iota in H.
  match type of H with
  | orelse ?more _ = _ => destruct more as [r0|] eqn:Hm
  end.
  - simpl in H. injection H as ->.
    apply body_sound in Hm as (w1 & rest1 & c1 & -> & HP & Hk & _).
    apply body_words in HP.
    destruct (Nat.ltb (length rest1) (length (w1 ++ rest1))) eqn:Hlt; [|done].
    apply Nat.ltb_lt in Hlt.
    apply IH in Hk as (groups & rest & c' & -> & Hall & Hk & Hmax); [|lia].
    exists (w1 :: groups), rest, c'.
    split; [simpl; by rewrite <- app_assoc|]. split; [by constructor|]. split; [done|].
    intros groups2 rest2 Heq Hall2 Hk2.
    destruct Hall2 as [|g2 groups2 Hg2 Hall2]; [simpl; lia|].
    simpl. apply le_n_S.
    destruct HP as (d1 & ds1 & -> & Hd1 & Hds1 & _).
    destruct Hg2 as (d2 & ds2 & -> & Hd2 & Hds2 & _).
    simpl in Heq. rewrite <- !app_assoc in Heq. injection Heq as _ Heq.
    apply (run_end_unique is_ar_digit) in Heq as [_ Heq]; try done.
    + by apply (Hmax groups2 rest2).
    + apply groups_no_digit; [done|]. eapply k_no_digit. by rewrite Hk.
    + apply groups_no_digit; [done|]. destruct Hk2 as [c2 Hk2].
      by eapply k_no_digit.
  - simpl in H. exists [], s, c. split; [done|]. split; [constructor|].
    split; [done|].
    intros groups2 rest2 Heq Hall2 [c2 Hk2].
    destruct Hall2 as [|g2 groups2 Hg2 Hall2]; [simpl; lia|]. exfalso.
    assert (Hne : g2 <> []) by (by destruct Hg2 as (? & ? & -> & _)).
    subst s. simpl concat in Hm. rewrite <- app_assoc in Hm.
    assert (Hsome : is_Some
              (body (g2 ++ concat groups2 ++ rest2) c
                 (fun s' c' =>
                    if Nat.ltb (length s') (length (g2 ++ concat groups2 ++ rest2))
                    then rep_loop body true 0 None fuel (S cnt) s' c' k
                    else None))).
    { apply body_complete; [by apply body_words|]. intros c'.
      assert (Hlt : Nat.ltb (length (concat groups2 ++ rest2))
                      (length (g2 ++ concat groups2 ++ rest2)) = true).
      { apply Nat.ltb_lt. rewrite (length_app g2). destruct g2; [done|]. simpl. lia. }
      rewrite Hlt.
      apply (rep_loop_complete body P).
      - done.
      - intros c0. by apply (k_caps rest2 c2).
      - apply (iter_pieces P dotted_number); [done|].
        exists groups2. split; [done|].
        eapply Forall_impl; [exact Hall2|].
        intros g Hg. split; [done|]. by destruct Hg as (? & ? & -> & _).
      - simpl concat in Hfuel. rewrite <- app_assoc, length_app in Hfuel.
        rewrite length_app in Hfuel. destruct g2; [done|]. simpl in Hfuel. lia. }
    rewrite Hm in Hsome. by destruct Hsome.
Qed.
End GreedyGroups.

(** A match of the letter pattern: group 1 is a letter label at the start
    of the line that content follows, and no such label of the line has
    more numeric groups. *)
Lemma letter_pattern_greedy (line : str) (mo : mobj) :
  re_match false (seqs [LETTER_NUMBER_PATTERN; SEP_LOOSE; CONTENT_PATTERN 2]) line
  = Some mo ->
  exists label rest n,
    line = label ++ rest /\ group mo.2 1 = Some label /\
    letter_label n label /\ content_follows rest /\
    forall n' label' rest',
      line = label' ++ rest' -> letter_label n' label' -> content_follows rest' ->
      (n' <= n)%nat.
Proof.
  unfold re_match, LETTER_NUMBER_PATTERN. cbn [seqs]. intros H.
  rewrite m_anchored_group in H.
  destruct (Nat.eqb (length line) (length line)); [|done].
  rewrite m_seq_last in H.
  apply m_sound in H as (wY & s4 & c4 & -> & HY & H & _).
  cbn [lang] in HY.
  destruct HY as (sp & w1 & -> & Hsp & (wl & w2 & -> & Hl & (wd & ds & -> & Hd & Hds))).
  apply lang_spaces in Hsp. apply lang_letter in Hl as (l & -> & Hl).
  apply lang_dot in Hd as (d & -> & Hd).
  apply lang_digit_run in Hds as [Hds Hne].
  rewrite m_star in H.
  set (n0 := length ((sp ++ [l] ++ [d] ++ ds) ++ s4)) in *.
  set (whole := (sp ++ [l] ++ [d] ++ ds) ++ s4) in *.
  eapply (star_groups_greedy _ (lang false n0 (Seq DOT (plus AR_NUM))) []) in H
    as (groups & rest & c' & -> & Hall & Hk & Hmax).
  2: apply m_sound.
  2: apply m_complete.
  2: apply lang_dotted_number.
  2: { intros rest c c'. cbv beta. apply m_caps_irrelevant. intros ? ?. by eexists. }
  2: { intros x t c Hx.
       destruct (m false n0 _ (x :: t) _ _) as [res|] eqn:E; [exfalso|done].
       apply m_sound in E as (w & rest & c1 & Heq & HP & _).
       apply sep_content_follows in HP. rewrite <- Heq in HP.
       by rewrite (content_no_digit _ HP x t eq_refl) in Hx. }
  2: lia.
  apply m_sound in Hk as (w2 & rest2 & c2 & -> & Hsep & Hk & Hg).
  injection Hk as <-. simpl snd.
  apply sep_content_follows in Hsep.
  assert (Hline : whole = (sp ++ l :: concat ((d :: ds) :: groups)) ++ w2 ++ rest2).
  { subst whole. simpl. rewrite <- ?app_assoc. simpl. by rewrite <- ?app_assoc. }
  exists (sp ++ l :: concat ((d :: ds) :: groups)), (w2 ++ rest2), (S (length groups)).
  split; [done|].
  split.
  { rewrite Hg by (cbn; by intros ?%list_elem_of_singleton).
    simpl group. f_equal. subst n0. fold whole. rewrite Hline.
    by rewrite length_app, Nat.add_sub, take_app_length. }
  split.
  { exists sp, l, ((d :: ds) :: groups). split; [done|]. split; [done|].
    split; [done|]. split; [done|]. split; [lia|].
    constructor; [by exists d, ds|done]. }
  split; [done|].
  intros n' label' rest' Heq (sp' & l' & groups' & -> & Hsp' & Hl' & <- & Hn' & Hall')
    Hc'.
  destruct Hall' as [|g' groups' (d' & ds' & -> & Hd' & Hds' & _) Hall']; [simpl in Hn'; lia|].
  simpl. apply le_n_S.
  subst whole. simpl in Heq. rewrite <- ?app_assoc in Heq. simpl in Heq.
  rewrite <- ?app_assoc in Heq.
  apply (run_end_unique is_space) in Heq as [<- Heq]; try done.
  2: { intros c t [= <- _]. by apply letter_not_space. }
  2: { intros c t [= <- _]. by apply letter_not_space. }
  injection Heq as _ _ Heq.
  apply (run_end_unique is_ar_digit) in Heq as [_ Heq]; try done.
  - apply (Hmax groups' rest'); [done|done|].
    apply (content_follows_sep n0 2) in Hc' as (w & r & -> & HP).
    exists []. apply m_complete; [exact HP|]. intros ?. by eexists.
  - apply groups_no_digit; [done|]. by apply content_no_digit.
  - apply groups_no_digit; [done|]. by apply content_no_digit.
Qed.

(** Two letter labels of a line with as many numeric groups, each followed
    by content, are the same label. *)
Lemma letter_label_unique (n : nat) (label1 rest1 label2 rest2 : str) :
  label1 ++ rest1 = label2 ++ rest2 ->
  letter_label n label1 -> letter_label n label2 ->
  content_follows rest1 -> content_follows rest2 ->
  label1 = label2.
Proof.
  intros Heq (sp1 & l1 & groups1 & -> & Hsp1 & Hl1 & Hlen1 & _ & Hall1)
             (sp2 & l2 & groups2 & -> & Hsp2 & Hl2 & Hlen2 & _ & Hall2) Hc1 Hc2.
  rewrite <- !app_assoc in Heq. simpl in Heq.
  apply (run_end_unique is_space) in Heq as [<- Heq]; try done.
  2: { intros c t [= <- _]. by apply letter_not_space. }
  2: { intros c t [= <- _]. by apply letter_not_space. }
  injection Heq as <- Heq. do 2 f_equal.
  rewrite <- Hlen2 in Hlen1. clear Hlen2 Hsp1 Hsp2 Hl1 Hl2.
  revert groups2 Hall2 Hlen1 Heq.
  induction Hall1 as [|g1 groups1 (d1 & ds1 & -> & Hd1 & Hds1 & _) Hall1 IH];
    intros groups2 Hall2 Hlen Heq.
  { by destruct groups2. }
  destruct Hall2 as [|g2 groups2 (d2 & ds2 & -> & Hd2 & Hds2 & _) Hall2]; [done|].
  simpl in Hlen. injection Hlen as Hlen.
  simpl in Heq. rewrite <- !app_assoc in Heq. injection Heq as <- Heq.
  apply (run_end_unique is_ar_digit) in Heq as [<- Heq]; try done.
  - simpl. do 2 f_equal. by apply IH.
  - apply groups_no_digit; [done|]. by apply content_no_digit.
  - apply groups_no_digit; [done|]. by apply content_no_digit.
Qed.

Import Caption.
Import Layout.

(** * Levels computed from numbering *)

Lemma number_patterns_table :
  NUMBER_PATTERNS_WITH_LEVEL
  = [ (number_pattern 4, 4%Z); (number_pattern 3, 3%Z);
      (number_pattern 2, 2%Z); (number_pattern 1, 1%Z) ].
Proof. reflexivity. Qed.

(** The decimal family returns the deepest depth whose pattern matches. *)
Lemma first_level_deepest (line : str) (d : nat) :
  first_level NUMBER_PATTERNS_WITH_LEVEL line = Some (Z.of_nat d) <->
  deepest (fun d => decimal_heading content_follows d line) d.
Proof.
  rewrite number_patterns_table. cbn [first_level]. unfold deepest.
  pose proof (number_pattern_heading 1 line ltac:(lia)) as H1.
  pose proof (number_pattern_heading 2 line ltac:(lia)) as H2.
  pose proof (number_pattern_heading 3 line ltac:(lia)) as H3.
  pose proof (number_pattern_heading 4 line ltac:(lia)) as H4.
  destruct (is_Some_b (re_match false (number_pattern 4) line)) eqn:E4;
  [|destruct (is_Some_b (re_match false (number_pattern 3) line)) eqn:E3;
    [|destruct (is_Some_b (re_match false (number_pattern 2) line)) eqn:E2;
      [|destruct (is_Some_b (re_match false (number_pattern 1) line)) eqn:E1]]].
  all: split.
  all: try (intros [= Hd];
            match type of Hd with
            | ?k = Z.of_nat ?n => assert (n = Z.to_nat k) as -> by lia
            end; simpl Z.to_nat;
            split; [lia|]; split; [tauto|];
            intros d' Hd';
            assert (d' = 2 \/ d' = 3 \/ d' = 4)%nat as [-> | [-> | ->]] by lia;
            first [lia | intros Hm; first [apply H2 in Hm | apply H3 in Hm | apply H4 in Hm];
                         discriminate]).
  all: try done.
  all: intros (Hr & Hm & Hno);
       assert (d = 1 \/ d = 2 \/ d = 3 \/ d = 4)%nat as [-> | [-> | [-> | ->]]] by lia;
       try reflexivity.
  all: try (first [apply H1 in Hm | apply H2 in Hm | apply H3 in Hm | apply H4 in Hm];
            discriminate).
  all: exfalso.
  all: first [ apply (Hno 4%nat); [lia|]; apply H4; reflexivity
             | apply (Hno 3%nat); [lia|]; apply H3; reflexivity
             | apply (Hno 2%nat); [lia|]; apply H2; reflexivity ].
Qed.

Lemma decimal_label_nonempty d label : decimal_label d label -> label <> [].
Proof.
  intros (sp & first & tail & sep & -> & _ & [_ Hlen] & _) Hnil.
  apply app_eq_nil in Hnil as [_ Hnil]. apply app_eq_nil in Hnil as [-> _].
  simpl in Hlen. lia.
Qed.

Lemma first_line_nil : first_line [] = [].
Proof. reflexivity. Qed.

Lemma calculate_level_unfold (txt : str) :
  txt <> [] ->
  _calculate_level_by_regex txt =
  match first_level NUMBER_PATTERNS_WITH_LEVEL (first_line txt) with
  | Some level => level
  | None =>
      match first_letter LETTER_PATTERNS (first_line txt) with
      | Some level => level
      | None =>
          match first_level NORMAL_PATTERNS_WITH_LEVEL (first_line txt) with
          | Some level => level
          | None => 0%Z
          end
      end
  end.
Proof. by destruct txt. Qed.

Lemma calculate_level_decimal (txt : str) (d : nat) :
  deepest (fun d => decimal_heading content_follows d (first_line txt)) d ->
  _calculate_level_by_regex txt = Z.of_nat d.
Proof.
  intros Hd. rewrite calculate_level_unfold.
  - apply first_level_deepest in Hd. by rewrite Hd.
  - intros ->. destruct Hd as (_ & (label & rest & Hline & Hl & _) & _).
    rewrite first_line_nil in Hline. symmetry in Hline.
    apply app_eq_nil in Hline as [-> _]. by apply decimal_label_nonempty in Hl.
Qed.

(** One visit of a level-1 text block that is not suppressed and whose
    computed level [lv] is positive. *)
Lemma parse_node_apply h b a lv :
  (a < length h)%nat ->
  type_is (deref h a) (u "text") = true ->
  is_Some_b (_match (deref h a) (TIME_PATTERNS ++ TOC_PATTERNS)) = false ->
  _calculate_level_by_regex (text (deref h a)) = lv -> (0 < lv)%Z ->
  text_level_of (deref h a) = 1%Z \/ md_text_level (metadata (deref h a)) = Some lv ->
  type_is (deref (parse_node h b) a) (u "text") = true
  /\ (text_level_of (deref (parse_node h b) a) = 1%Z
      \/ md_text_level (metadata (deref (parse_node h b) a)) = Some lv)
  /\ (b = a \/ md_text_level (metadata (deref h a)) = Some lv ->
      md_text_level (metadata (deref (parse_node h b) a)) = Some lv).
Proof.
  intros Hlt Hty Hm Hcalc Hpos Hstate.
  destruct (decide (b = a)) as [->|Hne].
  2: { destruct (parse_node_spec h b a) as (_ & _ & _ & Hsame).
       rewrite Hsame by done. split; [done|]. split; [done|].
       intros [?|?]; done. }
  assert (Hgoal : type_is (deref (parse_node h a) a) (u "text") = true
                  /\ md_text_level (metadata (deref (parse_node h a) a)) = Some lv).
  { unfold parse_node.
    destruct (Z.ltb_spec 1 (text_level_of (deref h a))) as [Hgt|Hle].
    { split; [done|]. destruct Hstate as [H1|Hlv]; [lia|done]. }
    rewrite Hm.
    assert (H1 : text_level_of (deref h a) = 1%Z).
    { destruct Hstate as [H1|Hlv]; [done|].
      unfold text_level_of in *. rewrite Hlv in *. simpl in *. lia. }
    rewrite H1, Hty, Hcalc. simpl andb. cbv iota.
    destruct (Z.ltb_spec 0 lv) as [_|?]; [|lia].
    rewrite deref_update_eq by done. done. }
  destruct Hgoal as [Hty' Hlv']. split; [done|]. split; [by right|done].
Qed.

(** The computed level of a level-1 text block that is not suppressed
    becomes its heading level. *)
Lemma computed_level_applied (h : store) (document : list addr) (a : addr) (lv : Z) :
  valid h document -> a ∈ document ->
  text_level_of (deref h a) = 1%Z ->
  type_is (deref h a) (u "text") = true ->
  is_Some_b (_match (deref h a) (TIME_PATTERNS ++ TOC_PATTERNS)) = false ->
  _calculate_level_by_regex (text (deref h a)) = lv -> (0 < lv)%Z ->
  md_text_level (metadata (deref (Layout.forward h document).1 a)) = Some lv.
Proof.
  intros Hvalid Hin H1 Hty Hm Hcalc Hpos.
  destruct (forward_spec h document) as (L & HL & ->).
  unfold _reset_node_index.
  destruct (reset_loop_spec L 0 (fold_left parse_node L h) []) as (h' & -> & _ & Hsame).
  simpl. destruct (Hsame a) as [_ ->]. clear Hsame h'.
  assert (Hlt : (a < length h)%nat).
  { eapply Forall_forall in Hvalid; done. }
  rewrite <-HL in Hin. clear HL Hvalid.
  assert (Hstate : text_level_of (deref h a) = 1%Z
                   \/ md_text_level (metadata (deref h a)) = Some lv) by (by left).
  assert (Hvisit : a ∈ L \/ md_text_level (metadata (deref h a)) = Some lv)
    by (by left).
  clear H1 Hin.
  revert h Hty Hm Hcalc Hlt Hstate Hvisit.
  induction L as [|b L IH]; intros h Hty Hm Hcalc Hlt Hstate Hvisit; simpl.
  - destruct Hvisit as [Hin|Hlv]; [by apply elem_of_nil in Hin|done].
  - destruct (parse_node_apply h b a lv Hlt Hty Hm Hcalc Hpos Hstate)
      as (Hty' & Hstate' & Hset).
    destruct (parse_node_spec h b a) as (Hlen & Ht & _).
    apply IH; try done.
    + by rewrite (match_same_text _ (deref h a)).
    + by rewrite Ht.
    + by rewrite Hlen.
    + destruct Hvisit as [Hin|Hlv].
      * apply elem_of_cons in Hin as [->|Hin]; [right; apply Hset; by left|by left].
      * right. apply Hset. by right.
Qed.

Lemma first_level_none (line : str) :
  (forall d, (1 <= d <= 4)%nat -> ~ decimal_heading content_follows d line) ->
  first_level NUMBER_PATTERNS_WITH_LEVEL line = None.
Proof.
  intros Hno. rewrite number_patterns_table. cbn [first_level].
  assert (Hk : forall d, (1 <= d <= 4)%nat ->
                 is_Some_b (re_match false (number_pattern d) line) = false).
  { intros d Hd. apply not_true_is_false. intros Hm.
    apply number_pattern_heading in Hm; [|lia]. by apply (Hno d). }
  by rewrite !Hk by lia.
Qed.

Lemma first_level_none_iff (line : str) :
  first_level NUMBER_PATTERNS_WITH_LEVEL line = None <->
  forall d, (1 <= d <= 4)%nat -> ~ decimal_heading content_follows d line.
Proof.
  split; [|apply first_level_none].
  rewrite number_patterns_table. cbn [first_level]. intros Hnone d Hd Hm.
  apply number_pattern_heading in Hm; [|lia].
  assert (d = 1 \/ d = 2 \/ d = 3 \/ d = 4)%nat as [-> | [-> | [-> | ->]]] by lia.
  all: destruct (is_Some_b (re_match false (number_pattern 4) line)); [done|].
  all: destruct (is_Some_b (re_match false (number_pattern 3) line)); [done|].
  all: destruct (is_Some_b (re_match false (number_pattern 2) line)); [done|].
  all: destruct (is_Some_b (re_match false (number_pattern 1) line)); done.
Qed.

(** C6 (as amended).  For a text block at heading level 1 that is not
    suppressed.  Say that the first line is a heading of depth [d] when it
    starts with a decimal label of that depth -- one or two digits, then a
    dot alone (depth 1) or [d - 1] groups of a dot, optional white space and
    one to three digits, then at most one white space -- that is followed,
    after optional white space, by a character that is neither a decimal
    digit nor a closing bracket (the end of the line is no such character).
    The decimal family returns [d] exactly when [d] is the deepest of the
    depths 1 to 4 at which the line is a heading, and returns nothing
    exactly when it is a heading at no depth; the level it returns is the
    computed level and becomes the heading level of the block. *)
Theorem decimal_numbering_level (h : store) (document : list addr) (a : addr) :
  valid h document -> a ∈ document ->
  text_level_of (deref h a) = 1%Z ->
  type_is (deref h a) (u "text") = true ->
  is_Some_b (_match (deref h a) (TIME_PATTERNS ++ TOC_PATTERNS)) = false ->
  (forall d,
     first_level NUMBER_PATTERNS_WITH_LEVEL (first_line (text (deref h a)))
     = Some (Z.of_nat d)
     <-> deepest (fun d => decimal_heading content_follows d
                             (first_line (text (deref h a)))) d)
  /\ (first_level NUMBER_PATTERNS_WITH_LEVEL (first_line (text (deref h a))) = None
      <-> forall d, (1 <= d <= 4)%nat ->
            ~ decimal_heading content_follows d (first_line (text (deref h a))))
  /\ (forall d,
        deepest (fun d => decimal_heading content_follows d
                            (first_line (text (deref h a)))) d ->
        _calculate_level_by_regex (text (deref h a)) = Z.of_nat d
        /\ md_text_level (metadata (deref (Layout.forward h document).1 a))
           = Some (Z.of_nat d)).
Proof.
  intros Hvalid Hin H1 Hty Hm.
  split; [intros d; apply first_level_deepest|].
  split; [apply first_level_none_iff|].
  intros d Hd.
  pose proof (calculate_level_decimal _ _ Hd) as Hcalc.
  split; [done|].
  apply computed_level_applied; try done.
  destruct Hd as ([? _] & _). lia.
Qed.

(** The first line "1.2 Scope" at heading level 1 gets level 2. *)
Lemma decimal_numbering_level_witness :
  first_level NUMBER_PATTERNS_WITH_LEVEL (u "1.2 Scope") = Some 2%Z
  /\ _calculate_level_by_regex (u "1.2 Scope") = 2%Z
  /\ md_text_level (metadata (deref (Layout.forward h_scope [0%nat]).1 0%nat))
     = Some 2%Z.
Proof.
  assert (Hvalid : valid h_scope [0%nat]) by repeat constructor.
  assert (Hin : 0%nat ∈ [0%nat]) by (apply list_elem_of_singleton; reflexivity).
  assert (Hm : is_Some_b (_match (deref h_scope 0%nat) (TIME_PATTERNS ++ TOC_PATTERNS))
               = false) by (vm_compute; reflexivity).
  destruct (decimal_numbering_level h_scope [0%nat] 0%nat Hvalid Hin eq_refl eq_refl Hm)
    as (Hiff & _ & Hlevel).
  assert (Hd : deepest (fun d => decimal_heading content_follows d
                                   (first_line (text (deref h_scope 0%nat)))) 2).
  { split; [lia|]. split.
    - apply number_pattern_heading; [lia|]. vm_compute. reflexivity.
    - intros d' Hd' Hh. apply number_pattern_heading in Hh; [|lia].
      assert (d' = 3 \/ d' = 4)%nat as [-> | ->] by lia;
        vm_compute in Hh; discriminate. }
  split; [exact (proj2 (Hiff 2%nat) Hd)|]. exact (Hlevel 2%nat Hd).
Defined.

(** C6, as worded, fails: the label "1.2" alone on its line is a decimal
    label of depth 2 followed by the end of the line, yet no level is
    computed and the block keeps heading level 1.  Likewise "1.2.3" alone
    is a label of depth 3 at the end of its line and gets level 2, and
    "1.2.3.4" alone gets level 3. *)
Lemma decimal_numbering_end_of_line :
  decimal_heading end_or_content 2 (first_line (text (deref h_bare 0%nat)))
  /\ text_level_of (deref h_bare 0%nat) = 1%Z
  /\ type_is (deref h_bare 0%nat) (u "text") = true
  /\ is_Some_b (_match (deref h_bare 0%nat) (TIME_PATTERNS ++ TOC_PATTERNS)) = false
  /\ _calculate_level_by_regex (text (deref h_bare 0%nat)) = 0%Z
  /\ md_text_level (metadata (deref (Layout.forward h_bare [0%nat]).1 0%nat))
     = Some 1%Z
  /\ _calculate_level_by_regex (u "1.2") = 0%Z
  /\ _calculate_level_by_regex (u "1.2.3") = 2%Z
  /\ _calculate_level_by_regex (u "1.2.3.4") = 3%Z.
Proof.
  split; [|by vm_compute].
  exists (u "1.2"), []. split; [by vm_compute|]. split; [|by left].
  exists [], (u "1"), (u ".2"), []. split; [by vm_compute|].
  split; [constructor|]. split.
  { split; [|simpl; lia]. repeat constructor. }
  split; [split; [constructor|simpl; lia]|].
  exists [u ".2"]. split; [done|]. split; [done|].
  constructor; [|constructor].
  exists 46, [], (u "2"). split; [done|]. split; [done|]. split; [constructor|].
  split; [|simpl; lia]. repeat constructor.
Qed.

Lemma letter_label_nonempty n label : letter_label n label -> label <> [].
Proof. intros (sp & l & groups & -> & _) Hnil. by apply app_eq_nil in Hnil as [_ ?]. Qed.

(** C7 (as amended).  For a text block at heading level 1 that is not
    suppressed and whose first line is no heading of decimal numbering:
    call a reading of the line a letter label at its start -- a letter, then
    one or more groups of a dot and digits -- that is followed, after
    optional white space, by a character that is neither a decimal digit nor
    a closing bracket.  If [label], with [n] numeric groups, is a reading
    and no reading of the line has more numeric groups, then the letter
    pattern matches with [label] as its first group, the number of non-empty
    pieces between the dots of [label] is [n + 1] (the letter counts), and
    [n + 1] is the computed level and becomes the heading level of the
    block. *)
Theorem letter_numbering_level (h : store) (document : list addr) (a : addr)
    (n : nat) (label rest : str) :
  valid h document -> a ∈ document ->
  text_level_of (deref h a) = 1%Z ->
  type_is (deref h a) (u "text") = true ->
  is_Some_b (_match (deref h a) (TIME_PATTERNS ++ TOC_PATTERNS)) = false ->
  (forall d, (1 <= d <= 4)%nat ->
     ~ decimal_heading content_follows d (first_line (text (deref h a)))) ->
  first_line (text (deref h a)) = label ++ rest ->
  letter_label n label -> content_follows rest ->
  (forall n' label' rest',
     first_line (text (deref h a)) = label' ++ rest' ->
     letter_label n' label' -> content_follows rest' -> (n' <= n)%nat) ->
  (exists mo,
     re_match false (seqs [LETTER_NUMBER_PATTERN; SEP_LOOSE; CONTENT_PATTERN 2])
       (first_line (text (deref h a))) = Some mo
     /\ group mo.2 1 = Some label)
  /\ segment_count label = S n
  /\ _calculate_level_by_regex (text (deref h a)) = Z.of_nat (S n)
  /\ md_text_level (metadata (deref (Layout.forward h document).1 a))
     = Some (Z.of_nat (S n)).
Proof.
  intros Hvalid Hin H1 Hty Hm Hno Hline Hl Hc Hmax.
  destruct (letter_heading_match (first_line (text (deref h a)))) as [mo Hmo].
  { by exists n, label, rest. }
  destruct (letter_pattern_greedy _ _ Hmo)
    as (label_e & rest_e & n_e & Hline_e & Hg & Hl_e & Hc_e & Hmax_e).
  assert (n_e = n) as ->.
  { apply Nat.le_antisymm.
    - by apply (Hmax n_e label_e rest_e).
    - by apply (Hmax_e n label rest). }
  assert (label_e = label) as ->.
  { apply (letter_label_unique n label_e rest_e label rest); try done. congruence. }
  destruct (letter_level_label mo label n Hg Hl) as [Hlevel Hcount].
  split; [by exists mo|]. split; [done|].
  assert (Hcalc : _calculate_level_by_regex (text (deref h a)) = Z.of_nat (S n)).
  { rewrite calculate_level_unfold.
    - rewrite first_level_none by done.
      unfold LETTER_PATTERNS, _generate_letter_number_patterns. cbn [first_letter].
      by rewrite Hmo, Hlevel.
    - intros Hnil. rewrite Hnil, first_line_nil in Hline. symmetry in Hline.
      apply app_eq_nil in Hline as [-> _]. by apply letter_label_nonempty in Hl. }
  split; [done|].
  apply computed_level_applied; try done; lia.
Qed.

(** The first line "A.1.2 Appendix detail" at heading level 1: the label
    taken is "A.1.2" and the level is 3. *)
Lemma letter_numbering_level_witness :
  (exists mo,
     re_match false (seqs [LETTER_NUMBER_PATTERN; SEP_LOOSE; CONTENT_PATTERN 2])
       (first_line (text (deref h_appendix 0%nat))) = Some mo
     /\ group mo.2 1 = Some (u "A.1.2"))
  /\ segment_count (u "A.1.2") = 3%nat
  /\ _calculate_level_by_regex (u "A.1.2 Appendix detail") = 3%Z
  /\ md_text_level (metadata (deref (Layout.forward h_appendix [0%nat]).1 0%nat))
     = Some 3%Z.
Proof.
  apply (letter_numbering_level h_appendix [0%nat] 0%nat 2%nat
           (u "A.1.2") (u " Appendix detail")).
  - repeat constructor.
  - apply list_elem_of_singleton. reflexivity.
  - reflexivity.
  - reflexivity.
  - vm_compute. reflexivity.
  - intros d Hd Hm. apply number_pattern_heading in Hm; [|lia].
    assert (d = 1 \/ d = 2 \/ d = 3 \/ d = 4)%nat as [-> | [-> | [-> | ->]]] by lia;
      vm_compute in Hm; discriminate.
  - vm_compute. reflexivity.
  - exists [], 65, [u ".1"; u ".2"]. split; [by vm_compute|].
    split; [constructor|]. split; [done|]. split; [done|]. split; [lia|].
    constructor; [|constructor; [|constructor]].
    + exists 46, (u "1"). split; [done|]. split; [done|].
      split; [repeat constructor|done].
    + exists 46, (u "2"). split; [done|]. split; [done|].
      split; [repeat constructor|done].
  - exists (u " "), 65, (u "ppendix detail"). split; [by vm_compute|].
    split; [repeat constructor|done].
  - intros n' label' rest' Hline' Hl' Hc'.
    destruct (re_match false (seqs [LETTER_NUMBER_PATTERN; SEP_LOOSE; CONTENT_PATTERN 2])
                (first_line (text (deref h_appendix 0%nat)))) as [mo|] eqn:Hmo.
    2: { vm_compute in Hmo. discriminate. }
    destruct (letter_pattern_greedy _ _ Hmo)
      as (label_e & rest_e & n_e & _ & Hg & Hl_e & _ & Hmax_e).
    destruct (letter_level_label mo label_e n_e Hg Hl_e) as [_ Hcount].
    vm_compute in Hmo. injection Hmo as <-.
    vm_compute in Hg. injection Hg as <-.
    vm_compute in Hcount. injection Hcount as <-.
    by apply (Hmax_e n' label' rest').
Defined.

(** C7, as worded, fails: the first line "A.1" is a letter label with one
    numeric group and matches the letter-plus-number pattern, no decimal
    pattern matches it, yet no level is computed (nothing follows the
    label) and the block keeps heading level 1.  With content after the
    label, as in "A.1 x", the level is 2. *)
Lemma letter_numbering_bare_label :
  letter_label 1 (first_line (text (deref h_bare_letter 0%nat)))
  /\ is_Some_b (re_match false LETTER_NUMBER_PATTERN
                  (first_line (text (deref h_bare_letter 0%nat)))) = true
  /\ first_level NUMBER_PATTERNS_WITH_LEVEL
       (first_line (text (deref h_bare_letter 0%nat))) = None
  /\ text_level_of (deref h_bare_letter 0%nat) = 1%Z
  /\ type_is (deref h_bare_letter 0%nat) (u "text") = true
  /\ is_Some_b (_match (deref h_bare_letter 0%nat) (TIME_PATTERNS ++ TOC_PATTERNS))
     = false
  /\ segment_count (first_line (text (deref h_bare_letter 0%nat))) = 2%nat
  /\ _calculate_level_by_regex (text (deref h_bare_letter 0%nat)) = 0%Z
  /\ _calculate_level_by_regex (u "A.1") = 0%Z
  /\ md_text_level (metadata (deref (Layout.forward h_bare_letter [0%nat]).1 0%nat))
     = Some 1%Z
  /\ _calculate_level_by_regex (u "A.1 x") = 2%Z.
Proof.
  split; [|by vm_compute].
  exists [], 65, [u ".1"]. split; [by vm_compute|].
  split; [constructor|]. split; [done|]. split; [done|]. split; [lia|].
  constructor; [|constructor].
  exists 46, (u "1"). split; [done|]. split; [done|].
  split; [repeat constructor|done].
Qed.

Import Caption.
Import Layout.

(** * The statements on the sample documents *)

(** A table with a caption before it and a note after it: the table claims
    both, each next to it. *)
Lemma claim_locality_witness :
  (forall x, Some 0%nat = Some x -> (x + 1 = 1)%nat \/ x = (1 + 1)%nat)
  /\ (forall y, Some 2%nat = Some y ->
        (y = (1 + 1)%nat \/ y = (1 + 2)%nat) /\ (1 < y)%nat)
  /\ (forall x y, Some 0%nat = Some x -> Some 2%nat = Some y -> x <> y)
  /\ (forall x, claims x (Some 0%nat, Some 2%nat) ->
        (x < length [0; 1; 2]%nat)%nat /\ (1 <= x + 1)%nat /\ (x <= 1 + 2)%nat)
  /\ exists node, map (deref h_tbl) [0; 1; 2]%nat !! 1%nat = Some node
       /\ is_anchor_type (default [] (md_type (metadata node))) = true.
Proof.
  apply (claim_locality h_tbl [0; 1; 2]%nat 1%nat (Some 0%nat) (Some 2%nat)).
  vm_compute. reflexivity.
Defined.

Lemma finalized_level_immunity_witness :
  md_text_level (metadata (deref (Layout.forward h_date [0; 1]%nat).1 1%nat))
  = md_text_level (metadata (deref h_date 1%nat)).
Proof.
  apply (finalized_level_immunity h_date [0; 1]%nat 1%nat).
  vm_compute. reflexivity.
Defined.

Lemma suppression_precedence_witness :
  md_text_level (metadata (deref (Layout.forward h_date [0; 1]%nat).1 0%nat))
  = Some 0%Z.
Proof.
  apply (suppression_precedence h_date [0; 1]%nat 0%nat).
  - repeat constructor.
  - apply elem_of_cons. by left.
  - vm_compute. discriminate.
  - vm_compute. reflexivity.
Defined.

(** C3, as worded, fails: a date line at heading level 2 matches a
    timestamp pattern and keeps its level. *)
Lemma suppression_skips_finalized :
  is_Some_b (_match (deref h_date 1%nat) (TIME_PATTERNS ++ TOC_PATTERNS)) = true
  /\ md_text_level (metadata (deref h_date 1%nat)) = Some 2%Z
  /\ md_text_level (metadata (deref (Layout.forward h_date [0; 1]%nat).1 1%nat))
     = Some 2%Z.
Proof. by vm_compute. Qed.

Lemma position_density_witness :
  positions_dense (Caption._parse_nodes true h_cat [0; 1; 2]%nat).1
                  (Caption._parse_nodes true h_cat [0; 1; 2]%nat).2
  /\ positions_dense (Layout.forward h_cat [0; 1; 2]%nat).1
                     (Layout.forward h_cat [0; 1; 2]%nat).2.
Proof.
  apply (position_density true h_cat [0; 1; 2]%nat).
  - apply (bool_decide_unpack _). vm_compute. exact I.
  - repeat constructor.
Defined.

(** C9, as worded, fails: when one object is listed twice, both entries of
    the output are that object and its index is the last one written. *)
Lemma positions_of_shared_object :
  (Caption._parse_nodes true h_one [0; 0]%nat).2 = [0; 0]%nat
  /\ md_index (metadata (deref (Caption._parse_nodes true h_one [0; 0]%nat).1 0%nat))
     = Some 1%Z
  /\ ~ positions_dense (Caption._parse_nodes true h_one [0; 0]%nat).1
                       (Caption._parse_nodes true h_one [0; 0]%nat).2
  /\ (Layout.forward h_one [0; 0]%nat).2 = [0; 0]%nat
  /\ md_index (metadata (deref (Layout.forward h_one [0; 0]%nat).1 0%nat))
     = Some 1%Z
  /\ ~ positions_dense (Layout.forward h_one [0; 0]%nat).1
                       (Layout.forward h_one [0; 0]%nat).2.
Proof.
  split; [by vm_compute|]. split; [by vm_compute|]. split.
  { intros Hd. specialize (Hd 0%nat 0%nat). vm_compute in Hd.
    specialize (Hd eq_refl). discriminate. }
  split; [by vm_compute|]. split; [by vm_compute|].
  intros Hd. specialize (Hd 0%nat 0%nat). vm_compute in Hd.
  specialize (Hd eq_refl). discriminate.
Qed.

Lemma idempotence_when_settled_witness :
  Caption._parse_nodes true
    (Caption._parse_nodes true h_cat [0; 1; 2]%nat).1
    (Caption._parse_nodes true h_cat [0; 1; 2]%nat).2
  = Caption._parse_nodes true h_cat [0; 1; 2]%nat.
Proof.
  apply (idempotence_when_settled true h_cat [0; 1; 2]%nat).
  - repeat constructor.
  - vm_compute. reflexivity.
Defined.

(** C2, as worded, fails: with two caption-like lines before a figure, the
    first run merges the nearer one, and the second run merges the other
    into the merged figure. *)
Lemma second_run_merges_again :
  (Caption._parse_nodes true h_two [0; 1; 2]%nat).2 = [0; 3]%nat
  /\ (Caption._parse_nodes true
        (Caption._parse_nodes true h_two [0; 1; 2]%nat).1
        (Caption._parse_nodes true h_two [0; 1; 2]%nat).2).2 = [4%nat]
  /\ Caption._parse_nodes true
       (Caption._parse_nodes true h_two [0; 1; 2]%nat).1
       (Caption._parse_nodes true h_two [0; 1; 2]%nat).2
     <> Caption._parse_nodes true h_two [0; 1; 2]%nat.
Proof.
  split; [by vm_compute|]. split; [by vm_compute|].
  intros Heq. apply (f_equal (fun r => length r.2)) in Heq.
  vm_compute in Heq. discriminate.
Qed.

Lemma caption_tie_break_witness :
  exists f, (plan h_tie).1 !! 1%nat = Some (Some 2%nat, f).
Proof.
  apply (caption_tie_break h_tie 1%nat (img "a.png") 0%nat 2%nat).
  - reflexivity.
  - vm_compute. reflexivity.
  - vm_compute. reflexivity.
  - vm_compute. reflexivity.
Defined.

(** C5, as worded, fails: both neighbours of the figure start with a
    content keyword and match a numbering pattern, five points each as
    worded, yet the successor is chosen: it starts with two of the content
    keywords. *)
Lemma keyword_points_add_up :
  prev_caption h_tie (state_before h_tie 1).2 1 (u "image") = Some 0%nat
  /\ next_caption h_tie (state_before h_tie 1).2 1 (u "image") = Some 2%nat
  /\ score_as_specified image_config (u "fig. 1 x") = 5%nat
  /\ score_as_specified image_config (u "figure 2 y") = 5%nat
  /\ caption_score (u "image") (deref h_tie 0%nat) = 5%nat
  /\ caption_score (u "image") (deref h_tie 2%nat) = 7%nat
  /\ (plan h_tie).1 !! 1%nat = Some (Some 2%nat, None).
Proof. by vm_compute. Qed.

(** C1, as worded, fails for the consumed block itself when the input
    lists a block twice: in [caption; figure; body; caption] the block at
    index 0 is consumed as the caption of the figure, and the same block,
    listed again at index 3, is emitted. *)
Lemma consumed_object_listed_twice :
  valid h_cat [0; 1; 2; 0]%nat
  /\ (plan (map (deref h_cat) [0; 1; 2; 0]%nat)).1 !! 1%nat = Some (Some 0%nat, None)
  /\ 0%nat ∈ (plan (map (deref h_cat) [0; 1; 2; 0]%nat)).2
  /\ [0; 1; 2; 0]%nat !! 0%nat = Some 0%nat
  /\ (Caption._parse_nodes true h_cat [0; 1; 2; 0]%nat).2 = [3; 2; 0]%nat
  /\ 0%nat ∈ (Caption._parse_nodes true h_cat [0; 1; 2; 0]%nat).2.
Proof.
  split; [repeat constructor|].
  split; [by vm_compute|].
  split; [apply (bool_decide_unpack _); by vm_compute|].
  split; [done|].
  split; [by vm_compute|].
  apply (bool_decide_unpack _). by vm_compute.
Qed.

(** With distinct input blocks, the caption of the figure is not in the
    output. *)
Lemma claim_exclusivity_witness :
  0%nat ∈ (plan (map (deref h_cat) [0; 1; 2]%nat)).2
  /\ 0%nat ∉ (Caption._parse_nodes true h_cat [0; 1; 2]%nat).2.
Proof.
  assert (Hin : 0%nat ∈ (plan (map (deref h_cat) [0; 1; 2]%nat)).2)
    by (apply (bool_decide_unpack _); by vm_compute).
  split; [exact Hin|].
  destruct (claim_exclusivity true h_cat [0; 1; 2]%nat) as (_ & _ & _ & _ & H).
  apply (H ltac:(apply (bool_decide_unpack _); by vm_compute)
           ltac:(repeat constructor) 0%nat 0%nat Hin eq_refl).
Defined.

Import Caption.
Import Layout.

(** * Further properties of LayoutNodeParser *)

Lemma same_but_level_and_index_refl n : same_but_level_and_index n n.
Proof. done. Qed.

Lemma same_but_level_and_index_trans n1 n2 n3 :
  same_but_level_and_index n1 n2 -> same_but_level_and_index n2 n3 ->
  same_but_level_and_index n1 n3.
Proof.
  intros (H1 & H2 & H3) (H4 & H5 & H6). split; [congruence|].
  split; congruence.
Qed.

Lemma update_level_frame h b v a :
  same_but_level_and_index (deref h a) (deref (update h b (set_text_level v)) a).
Proof.
  destruct (deref_update h b (set_text_level v) a) as [->|[_ ->]]; [done|].
  by destruct (deref h a) as [t [] g].
Qed.

Lemma update_index_frame h b v a :
  same_but_level_and_index (deref h a) (deref (update h b (set_index v)) a)
  /\ md_text_level (metadata (deref (update h b (set_index v)) a))
     = md_text_level (metadata (deref h a)).
Proof.
  destruct (deref_update h b (set_index v) a) as [->|[_ ->]]; [done|].
  by destruct (deref h a) as [t [] g].
Qed.

Lemma parse_node_frame h b a :
  same_but_level_and_index (deref h a) (deref (parse_node h b) a).
Proof.
  unfold parse_node.
  repeat match goal with
         | |- context [if ?c then _ else _] => destruct c
         end; try done; apply update_level_frame.
Qed.

Lemma fold_parse_node_frame L : forall h a,
  same_but_level_and_index (deref h a) (deref (fold_left parse_node L h) a).
Proof.
  induction L as [|b L IH]; intros h a; simpl; [done|].
  eapply same_but_level_and_index_trans; [apply (parse_node_frame h b a)|apply IH].
Qed.

Lemma reset_loop_frame todo : forall index h result h' out,
  reset_loop index todo h result = (h', out) ->
  out = result ++ todo /\ length h' = length h
  /\ forall a, same_but_level_and_index (deref h a) (deref h' a)
       /\ md_text_level (metadata (deref h' a)) = md_text_level (metadata (deref h a)).
Proof.
  induction todo as [|b todo IH]; intros index h result h' out Hrun; simpl in Hrun.
  - injection Hrun as <- <-. by rewrite app_nil_r.
  - apply IH in Hrun as (-> & Hlen & Hsame). rewrite <- app_assoc.
    split; [done|]. rewrite Hlen, length_update. split; [done|].
    intros a. destruct (Hsame a) as [Hf Hl].
    destruct (update_index_frame h b (Z.of_nat index) a) as [Hf' Hl'].
    split; [by eapply same_but_level_and_index_trans|congruence].
Qed.

Lemma forward_frame (h : store) (document : list addr) :
  (Layout.forward h document).2 ≡ₚ document
  /\ length (Layout.forward h document).1 = length h
  /\ forall a, same_but_level_and_index (deref h a)
                 (deref (Layout.forward h document).1 a).
Proof.
  destruct (forward_spec h document) as (L & HL & ->).
  unfold _reset_node_index.
  destruct (reset_loop 0 L (fold_left parse_node L h) []) as [h' out] eqn:Hrun.
  apply reset_loop_frame in Hrun as (-> & Hlen & Hsame). simpl.
  split; [done|]. split.
  - rewrite Hlen. by destruct (fold_parse_node_same L h 0%nat) as [-> _].
  - intros a. eapply same_but_level_and_index_trans; [apply fold_parse_node_frame|].
    apply Hsame.
Qed.

(** X1. What [forward] keeps: it returns the blocks it was given, each as often
    as it was listed, allocates nothing, and changes no text and no
    metadata entry of any object other than [text_level] and [index]. *)
Theorem layout_forward_frame (h : store) (document : list addr) :
  (Layout.forward h document).2 ≡ₚ document
  /\ length (Layout.forward h document).1 = length h
  /\ forall a, same_but_level_and_index (deref h a)
                 (deref (Layout.forward h document).1 a).
Proof. apply forward_frame. Qed.

(** ** The level of a block depends on that block alone *)

Lemma level_after_ext n n' :
  text n' = text n -> md_type (metadata n') = md_type (metadata n) ->
  md_text_level (metadata n') = md_text_level (metadata n) ->
  level_after n' = level_after n.
Proof.
  intros Ht Hty Hl. unfold level_after, text_level_of, type_is.
  rewrite Ht, Hty, Hl. by rewrite (match_same_text n' n).
Qed.

(** A second visit changes nothing. *)
Lemma level_after_idem n n' :
  text n' = text n -> md_type (metadata n') = md_type (metadata n) ->
  md_text_level (metadata n') = level_after n ->
  level_after n' = level_after n.
Proof.
  intros Ht Hty Hl. unfold level_after at 1. unfold text_level_of, type_is.
  rewrite Ht, Hty, Hl, (match_same_text n' n) by done.
  unfold level_after, text_level_of, type_is.
  set (calc := _calculate_level_by_regex (text n)).
  set (mt := is_Some_b (_match n (TIME_PATTERNS ++ TOC_PATTERNS))).
  set (ty := match md_type (metadata n) with
             | Some ty => str_eqb ty (u "text")
             | None => false
             end).
  set (l := md_text_level (metadata n)).
  clearbody calc mt ty l.
  destruct l as [z|], mt, ty; simpl;
    repeat (match goal with
            | |- context [(?x <? ?y)%Z] => destruct (Z.ltb_spec x y)
            | |- context [(?x =? ?y)%Z] => destruct (Z.eqb_spec x y)
            end; simpl in *; try done; try lia).
  all: simpl in *; try done; try (exfalso; lia).
Qed.

Lemma parse_node_type h b a :
  md_type (metadata (deref (parse_node h b) a)) = md_type (metadata (deref h a)).
Proof.
  destruct (parse_node_frame h b a) as (_ & _ & H).
  apply (f_equal md_type) in H. done.
Qed.

(** One visit of the object at [a]. *)
Lemma parse_node_level_after h a :
  (a < length h)%nat ->
  md_text_level (metadata (deref (parse_node h a) a)) = level_after (deref h a).
Proof.
  intros Hlt. unfold parse_node, level_after.
  repeat match goal with
         | |- context [if ?c then _ else _] => destruct c
         end; try done; by rewrite deref_update_eq.
Qed.

Lemma forward_level_after (h : store) (document : list addr) (a : addr) :
  valid h document -> a ∈ document ->
  md_text_level (metadata (deref (Layout.forward h document).1 a))
  = level_after (deref h a).
Proof.
  intros Hvalid Hin. destruct (forward_spec h document) as (L & HL & ->).
  unfold _reset_node_index.
  destruct (reset_loop_spec L 0 (fold_left parse_node L h) []) as (h' & -> & _ & Hsame).
  simpl. destruct (Hsame a) as [_ ->]. clear Hsame h'.
  assert (Hlt : (a < length h)%nat).
  { eapply Forall_forall in Hvalid; done. }
  rewrite <-HL in Hin. clear HL Hvalid.
  set (n := deref h a).
  assert (Hinv : text (deref h a) = text n
                 /\ md_type (metadata (deref h a)) = md_type (metadata n)
                 /\ (md_text_level (metadata (deref h a)) = md_text_level (metadata n)
                     \/ md_text_level (metadata (deref h a)) = level_after n)) by auto.
  assert (Hvisit : a ∈ L \/ md_text_level (metadata (deref h a)) = level_after n)
    by (by left).
  clearbody n. clear Hin.
  revert h Hlt Hinv Hvisit. induction L as [|b L IH]; intros h Hlt Hinv Hvisit; simpl.
  - destruct Hvisit as [Hin|Hlv]; [by apply elem_of_nil in Hin|done].
  - destruct Hinv as (Ht & Hty & Hlv).
    destruct (parse_node_spec h b a) as (Hlen & Ht' & _ & Hother).
    assert (Hcur : level_after (deref h a) = level_after n).
    { destruct Hlv as [Hlv|Hlv]; [by apply level_after_ext|by apply level_after_idem]. }
    apply IH.
    + by rewrite Hlen.
    + split; [congruence|]. split; [by rewrite parse_node_type|].
      destruct (decide (b = a)) as [->|Hne].
      * right. by rewrite parse_node_level_after.
      * by rewrite Hother.
    + destruct (decide (b = a)) as [->|Hne].
      * right. by rewrite parse_node_level_after.
      * rewrite Hother by done. destruct Hvisit as [Hin|Hdone]; [|by right].
        apply elem_of_cons in Hin as [->|Hin]; [done|by left].
Qed.

(** X2. The level [forward] leaves on a listed block is the one a single visit
    of that block gives: it depends on the block alone, not on the other
    blocks, the order or the file names, nor on how often it is listed. *)
Theorem layout_level_of_block (h : store) (document : list addr) (a : addr) :
  valid h document -> a ∈ document ->
  md_text_level (metadata (deref (Layout.forward h document).1 a))
  = level_after (deref h a).
Proof. apply forward_level_after. Qed.

Lemma layout_level_of_block_witness :
  md_text_level (metadata (deref (Layout.forward h_scope [0%nat]).1 0%nat))
  = level_after (deref h_scope 0%nat).
Proof.
  apply (layout_level_of_block h_scope [0%nat] 0%nat).
  - repeat constructor.
  - apply list_elem_of_singleton. reflexivity.
Defined.

(** A block that is not listed keeps its level. *)
Lemma layout_level_unlisted (h : store) (document : list addr) (a : addr) :
  a ∉ document ->
  md_text_level (metadata (deref (Layout.forward h document).1 a))
  = md_text_level (metadata (deref h a)).
Proof.
  intros Hout. destruct (forward_spec h document) as (L & HL & ->).
  unfold _reset_node_index.
  destruct (reset_loop_spec L 0 (fold_left parse_node L h) []) as (h' & -> & _ & Hsame).
  simpl. destruct (Hsame a) as [_ ->]. clear Hsame h'.
  rewrite <-HL in Hout. clear HL.
  revert h. induction L as [|b L IH]; intros h; simpl; [done|].
  apply not_elem_of_cons in Hout as [Hne Hout].
  rewrite IH by done.
  destruct (parse_node_spec h b a) as (_ & _ & _ & Hother). by rewrite Hother.
Qed.

(** X3. A block that is no heading (no [text_level], or one below 1) never
    becomes one, whatever its text: its level stays below 1. *)
Theorem layout_never_promotes (h : store) (document : list addr) (a : addr) :
  (text_level_of (deref h a) < 1)%Z ->
  (text_level_of (deref (Layout.forward h document).1 a) < 1)%Z.
Proof.
  intros Hlow. destruct (forward_spec h document) as (L & _ & ->).
  unfold _reset_node_index.
  destruct (reset_loop_spec L 0 (fold_left parse_node L h) []) as (h' & -> & _ & Hsame).
  simpl. unfold text_level_of at 1. destruct (Hsame a) as [_ ->]. clear Hsame h'.
  fold (text_level_of (deref (fold_left parse_node L h) a)).
  revert h Hlow. induction L as [|b L IH]; intros h Hlow; simpl; [done|].
  apply IH. unfold parse_node.
  destruct (Z.ltb_spec 1 (text_level_of (deref h b))); [done|].
  destruct (is_Some_b (_match (deref h b) (TIME_PATTERNS ++ TOC_PATTERNS))).
  { destruct (deref_update h b (set_text_level 0) a) as [->|[_ ->]]; [done|].
    unfold text_level_of. simpl. lia. }
  destruct (Z.eqb_spec (text_level_of (deref h b)) 1) as [H1|]; [|done].
  simpl andb. destruct (type_is (deref h b) (u "text")); [|done].
  destruct (Z.ltb_spec 0 (_calculate_level_by_regex (text (deref h b)))); [|done].
  destruct (deref_update h b (set_text_level
              (_calculate_level_by_regex (text (deref h b)))) a) as [->|[-> _]];
    [done|lia].
Qed.

Lemma layout_never_promotes_witness :
  (text_level_of (deref (Layout.forward [txt "1.2 Scope"] [0%nat]).1 0%nat) < 1)%Z.
Proof.
  apply (layout_never_promotes [txt "1.2 Scope"] [0%nat] 0%nat).
  vm_compute. reflexivity.
Defined.

(** * Ordinal headings *)

Lemma cn_class x :
  set_match false false
    (chars (u "一二三四五六七八九十百千万零壹贰叁肆伍陆柒捌玖拾佰仟")) x
  = is_cn_num x.
Proof. unfold set_match, is_cn_num. by rewrite existsb_chars. Qed.

Lemma mark_class marks x :
  set_match false false (chars marks) x = existsb (N.eqb x) marks.
Proof. unfold set_match. by rewrite existsb_chars. Qed.

Lemma lang_cn n0 w rest :
  lang false n0 CN_NUM w rest <-> exists x, w = [x] /\ is_cn_num x = true.
Proof. unfold CN_NUM. simpl lang. by setoid_rewrite cn_class. Qed.

Lemma lang_cn_run n0 w rest :
  lang false n0 (plus CN_NUM) w rest
  <-> Forall (fun c => is_cn_num c = true) w /\ w <> [].
Proof.
  unfold plus. simpl lang.
  rewrite (iter_class _ is_cn_num) by (intros ? r; apply (lang_cn n0 _ r)).
  split.
  - intros (Hall & Hlo & _). split; [done|]. intros ->. simpl in Hlo. lia.
  - intros (Hall & Hne). split; [done|]. split; [|done].
    destruct w; [done|]. simpl. lia.
Qed.

Lemma lang_ordinal_label n0 marks w rest :
  lang false n0
    (seqs [star ws; Lit (ch "第"); star ws; plus CN_NUM; star ws;
           Group 2 (Set_ false (chars marks))]) w rest
  <-> ordinal_label marks w.
Proof.
  cbn [seqs]. unfold ordinal_label. split.
  - intros (sp1 & w1 & -> & Hsp1 & (wl & w2 & -> & Hl & (sp2 & w3 & -> & Hsp2
            & (nums & w4 & -> & Hn & (sp3 & wm & -> & Hsp3 & Hm))))).
    apply lang_spaces in Hsp1, Hsp2, Hsp3.
    apply lang_cn_run in Hn as [Hn Hne].
    simpl in Hl. destruct Hl as (x & -> & Hx). apply N.eqb_eq in Hx. subst x.
    cbn [lang] in Hm. destruct Hm as (mk & -> & Hm). rewrite mark_class in Hm.
    by exists sp1, sp2, nums, sp3, mk.
  - intros (sp1 & sp2 & nums & sp3 & mk & -> & Hsp1 & Hsp2 & Hsp3 & Hn & Hne & Hm).
    exists sp1, ([ch "第"] ++ sp2 ++ nums ++ sp3 ++ [mk]). split; [done|].
    split; [by apply lang_spaces|].
    exists [ch "第"], (sp2 ++ nums ++ sp3 ++ [mk]). split; [done|].
    split; [simpl; exists (ch "第"); split; [done|apply N.eqb_refl]|].
    exists sp2, (nums ++ sp3 ++ [mk]). split; [done|].
    split; [by apply lang_spaces|].
    exists nums, (sp3 ++ [mk]). split; [done|]. split; [by apply lang_cn_run|].
    exists sp3, [mk]. split; [done|]. split; [by apply lang_spaces|].
    cbn [lang]. exists mk. by rewrite mark_class.
Qed.

(** A line matches an ordinal pattern exactly when it is an ordinal
    heading with content after its label. *)
Lemma normal_pattern_heading (marks : str) (line : str) :
  is_Some_b (re_match false (Seq (normal_template marks) (CONTENT_PATTERN 3)) line)
  = true
  <-> ordinal_heading marks line.
Proof.
  rewrite re_match_lang. unfold ordinal_heading, normal_template.
  cbn [lang]. split.
  - intros (w & rest & -> & (w1 & wc & -> & (wb & wg & -> & [-> _] & Hl) & Hc)).
    apply lang_ordinal_label in Hl. apply lang_content in Hc.
    exists wg, (wc ++ rest). split; [by rewrite <- app_assoc|done].
  - intros (label & rest0 & -> & Hl & Hc).
    apply (content_lang (length (label ++ rest0)) 3) in Hc as (wc & rest & -> & Hc).
    exists (([] ++ label) ++ wc), rest. split; [by rewrite <- app_assoc|].
    exists ([] ++ label), wc. split; [done|]. split; [|done].
    exists [], label. split; [done|]. split; [done|].
    by apply lang_ordinal_label.
Qed.

(** Where a run of characters of one class ends is determined. *)
Lemma run_unique (p : N -> bool) (l1 l2 r1 r2 : str) :
  Forall (fun c => p c = true) l1 -> Forall (fun c => p c = true) l2 ->
  (forall c t, r1 = c :: t -> p c = false) ->
  (forall c t, r2 = c :: t -> p c = false) ->
  r1 <> [] -> r2 <> [] ->
  l1 ++ r1 = l2 ++ r2 -> l1 = l2 /\ r1 = r2.
Proof.
  intros H1. revert l2. induction H1 as [|x l1 Hx _ IH]; intros l2 H2 Hr1 Hr2 N1 N2 Heq.
  - destruct H2 as [|y l2 Hy _]; [done|]. simpl in Heq.
    destruct r1 as [|c t]; [done|]. injection Heq as -> _.
    rewrite (Hr1 y t eq_refl) in Hy. done.
  - destruct H2 as [|y l2 Hy H2].
    + simpl in Heq. destruct r2 as [|c t]; [done|]. injection Heq as <- _.
      rewrite (Hr2 x t eq_refl) in Hx. done.
    + simpl in Heq. injection Heq as -> Heq.
      destruct (IH l2 H2 Hr1 Hr2 N1 N2 Heq) as [-> ->]. done.
Qed.

Ltac table_arith :=
  unfold is_cn_num, is_ar_digit, is_letter, is_space in *; simpl existsb in *;
  repeat match goal with
         | H : _ = true |- _ =>
             rewrite ?orb_true_iff, ?andb_true_iff, ?N.leb_le, ?N.eqb_eq in H
         | |- _ = false => apply not_true_is_false; intros ?
         end;
  lia.

Lemma cn_not_space c : is_cn_num c = true -> is_space c = false.
Proof. intros H. table_arith. Qed.

Lemma space_not_cn c : is_space c = true -> is_cn_num c = false.
Proof. intros H. table_arith. Qed.

Lemma ordinal_sign_plain :
  is_space (ch "第") = false /\ is_ar_digit (ch "第") = false
  /\ is_letter (ch "第") = false.
Proof. by vm_compute. Qed.

(** The mark of an ordinal heading is determined by the line. *)
Lemma ordinal_mark_unique (marks marks' : str) (line : str) :
  Forall (fun c => is_space c = false /\ is_cn_num c = false) marks ->
  Forall (fun c => is_space c = false /\ is_cn_num c = false) marks' ->
  ordinal_heading marks line -> ordinal_heading marks' line ->
  exists mark, existsb (N.eqb mark) marks = true /\ existsb (N.eqb mark) marks' = true.
Proof.
  intros Hm Hm'
    (label & rest & -> & (sp1 & sp2 & nums & sp3 & mk & -> & S1 & S2 & S3 & Hn & Hne & Hk)
     & _)
    (label' & rest' & Heq
     & (sp1' & sp2' & nums' & sp3' & mk' & -> & S1' & S2' & S3' & Hn' & Hne' & Hk') & _).
  exists mk. split; [done|].
  assert (Hplain : forall (ms : str) (k : N),
            Forall (fun c => is_space c = false /\ is_cn_num c = false) ms ->
            existsb (N.eqb k) ms = true -> is_space k = false /\ is_cn_num k = false).
  { intros ms k Hms Hin. apply existsb_exists in Hin as (c & Hc & Hkc).
    apply N.eqb_eq in Hkc. subst c. apply list_elem_of_In in Hc.
    by eapply Forall_forall in Hms. }
  destruct (Hplain _ _ Hm Hk) as [Hks Hkc].
  destruct (Hplain _ _ Hm' Hk') as [Hks' Hkc'].
  rewrite <- !app_assoc in Heq. simpl in Heq. rewrite <- !app_assoc in Heq.
  destruct ordinal_sign_plain as (Hsign & _).
  apply (run_unique is_space) in Heq as [_ Heq]; try done;
    try (intros c t [= <- _]; done).
  injection Heq as Heq.
  destruct nums as [|n1 nums]; [done|]. destruct nums' as [|n1' nums']; [done|].
  apply Forall_cons in Hn as Hn1. destruct Hn1 as [Hn1 _].
  apply Forall_cons in Hn' as Hn1'. destruct Hn1' as [Hn1' _].
  apply (run_unique is_space) in Heq as [_ Heq]; try done;
    try (intros c t [= <- _]; by apply cn_not_space).
  assert (Htail : forall (sp : str) (k : N) (r : str) c t,
            spaces sp -> is_cn_num k = false ->
            sp ++ k :: r = c :: t -> is_cn_num c = false).
  { intros sp k r c t Hsp Hk0 Hc. destruct Hsp as [|s sp Hs _].
    - injection Hc as <- _. done.
    - injection Hc as <- _. by apply space_not_cn. }
  apply (run_unique is_cn_num) in Heq as [_ Heq]; try done;
    try (intros c t Hct; eapply Htail; [| |exact Hct]; done);
    try (by destruct sp3); try (by destruct sp3').
  apply (run_unique is_space) in Heq as [_ Heq]; try done;
    try (intros c t [= <- _]; done).
  injection Heq as <- _. done.
Qed.

Lemma normal_patterns_table :
  NORMAL_PATTERNS_WITH_LEVEL
  = [ (Seq (normal_template (u "篇卷章")) (CONTENT_PATTERN 3), 1%Z);
      (Seq (normal_template (u "节")) (CONTENT_PATTERN 3), 2%Z);
      (Seq (normal_template (u "条")) (CONTENT_PATTERN 3), 3%Z) ].
Proof. reflexivity. Qed.

Lemma marks_plain :
  Forall (fun c => is_space c = false /\ is_cn_num c = false) (u "篇卷章")
  /\ Forall (fun c => is_space c = false /\ is_cn_num c = false) (u "节")
  /\ Forall (fun c => is_space c = false /\ is_cn_num c = false) (u "条").
Proof. repeat split; repeat constructor. Qed.

Lemma ordinal_first_char marks line :
  ordinal_heading marks line ->
  exists sp r, line = sp ++ ch "第" :: r /\ spaces sp.
Proof.
  intros (label & rest & -> & (sp1 & sp2 & nums & sp3 & mk & -> & S1 & _) & _).
  exists sp1, ((sp2 ++ nums ++ sp3 ++ [mk]) ++ rest). split; [|done].
  by rewrite <- app_assoc.
Qed.

Lemma ordinal_not_decimal marks line d :
  ordinal_heading marks line -> ~ decimal_heading content_follows d line.
Proof.
  intros (sp & r & -> & Hsp)%ordinal_first_char
         (label & rest & Heq & (sp' & first & tail & sep & -> & Hsp' & [Hf Hlen] & _) & _).
  destruct first as [|d0 first]; [simpl in Hlen; lia|].
  apply Forall_cons in Hf as [Hd0 _].
  rewrite <- !app_assoc in Heq. simpl in Heq.
  destruct ordinal_sign_plain as (Hs & Hd & _).
  apply (run_unique is_space) in Heq as [_ Heq]; try done.
  - injection Heq as Heq _. congruence.
  - intros c t [= <- _]. done.
  - intros c t [= <- _]. by apply digit_not_space.
Qed.

Lemma ordinal_not_letter marks line :
  ordinal_heading marks line ->
  re_match false (seqs [LETTER_NUMBER_PATTERN; SEP_LOOSE; CONTENT_PATTERN 2]) line
  = None.
Proof.
  intros (sp & r & -> & Hsp)%ordinal_first_char.
  destruct (re_match _ _ _) as [mo|] eqn:Hmo; [exfalso|done].
  apply letter_pattern_match in Hmo
    as (label & rest & n & Heq & _ & (sp' & l & groups & -> & Hsp' & Hl & _) & _).
  rewrite <- !app_assoc in Heq. simpl in Heq.
  destruct ordinal_sign_plain as (Hs & _ & Hletter).
  apply (run_unique is_space) in Heq as [_ Heq]; try done.
  - injection Heq as Heq _. congruence.
  - intros c t [= <- _]. done.
  - intros c t [= <- _]. by apply letter_not_space.
Qed.

Lemma ordinal_heading_nonempty marks line : ordinal_heading marks line -> line <> [].
Proof. intros (sp & r & -> & _)%ordinal_first_char. by destruct sp. Qed.

Lemma disjoint_marks (a b : str) (mk : N) :
  forallb (fun x => negb (existsb (N.eqb x) b)) a = true ->
  existsb (N.eqb mk) a = true -> existsb (N.eqb mk) b = true -> False.
Proof.
  intros Hall Ha Hb. apply existsb_exists in Ha as (x & Hx & Hmk).
  apply N.eqb_eq in Hmk. subst x.
  rewrite forallb_forall in Hall. specialize (Hall mk Hx).
  rewrite Hb in Hall. done.
Qed.

(** X4. A first line that starts with an ordinal label -- the ordinal sign, one
    or more Chinese numerals and a mark -- followed by content gets the
    level of its mark: 1 for a part, volume or chapter, 2 for a section, 3
    for an article; no numbering pattern of the other families matches such
    a line. *)
Theorem ordinal_heading_level (txt : str) (marks : str) (level : Z) :
  (marks, level) ∈ [(u "篇卷章", 1%Z); (u "节", 2%Z); (u "条", 3%Z)] ->
  ordinal_heading marks (first_line txt) ->
  _calculate_level_by_regex txt = level.
Proof.
  intros Hin Hh.
  rewrite calculate_level_unfold.
  2: { intros ->. by apply ordinal_heading_nonempty in Hh. }
  rewrite first_level_none by (intros d _; by eapply ordinal_not_decimal).
  unfold LETTER_PATTERNS, _generate_letter_number_patterns. cbn [first_letter].
  rewrite (ordinal_not_letter marks) by done.
  rewrite normal_patterns_table. cbn [first_level].
  destruct marks_plain as (P1 & P2 & P3).
  assert (Hother : forall marks',
            Forall (fun c => is_space c = false /\ is_cn_num c = false) marks' ->
            Forall (fun c => is_space c = false /\ is_cn_num c = false) marks ->
            forallb (fun x => negb (existsb (N.eqb x) marks)) marks' = true ->
            is_Some_b (re_match false (Seq (normal_template marks') (CONTENT_PATTERN 3))
                         (first_line txt)) = false).
  { intros marks' Hp' Hp Hdisj. apply not_true_is_false. intros Hm.
    apply normal_pattern_heading in Hm.
    destruct (ordinal_mark_unique marks' marks _ Hp' Hp Hm Hh) as (mk & H1 & H2).
    by apply (disjoint_marks marks' marks mk). }
  assert (Hthis : is_Some_b (re_match false (Seq (normal_template marks)
                                               (CONTENT_PATTERN 3))
                               (first_line txt)) = true)
    by (by apply normal_pattern_heading).
  repeat (apply elem_of_cons in Hin as [[= -> ->]|Hin]);
    [..|by apply elem_of_nil in Hin].
  - by rewrite Hthis.
  - rewrite (Hother (u "篇卷章")) by (done || by vm_compute). by rewrite Hthis.
  - rewrite (Hother (u "篇卷章")) by (done || by vm_compute).
    rewrite (Hother (u "节")) by (done || by vm_compute). by rewrite Hthis.
Qed.

Lemma ordinal_heading_level_witness :
  _calculate_level_by_regex (u "第二节 范围") = 2%Z.
Proof.
  apply (ordinal_heading_level (u "第二节 范围") (u "节") 2%Z).
  - apply elem_of_cons. right. apply elem_of_cons. by left.
  - apply normal_pattern_heading. vm_compute. reflexivity.
Defined.

(** * Further properties of CaptionFootnoteParser *)

(** ** What the first pass records *)

Lemma plan_step_qualifies nodes j node st :
  nodes !! j = Some node ->
  (forall k e, st.1 !! k = Some e -> entry_qualifies nodes k e) ->
  forall k e, (plan_step nodes j node st).1 !! k = Some e -> entry_qualifies nodes k e.
Proof.
  intros Hj Hold k e. destruct st as [mi cl]. unfold plan_step.
  destruct (is_anchor_type _); simpl; [|apply Hold].
  set (t := default [] (md_type (metadata node))).
  set (p := prev_caption nodes cl j t). set (n := next_caption nodes cl j t).
  set (c := choose_caption nodes t p n).
  set (f := find_footnote nodes cl j c).
  assert (Hnew : entry_qualifies nodes j (c, f)).
  { exists node. split; [done|]. simpl. split.
    - intros x Hx. subst c. apply choose_caption_Some in Hx as [Hx|Hx].
      + apply prev_caption_Some in Hx as (_ & _ & Hn). exact Hn.
      + apply next_caption_Some in Hx as (_ & _ & Hn). exact Hn.
    - intros y Hy. apply find_footnote_Some in Hy as (_ & _ & Hn). exact Hn. }
  intros He.
  assert (Hcases : mi !! k = Some e \/ (k = j /\ e = (c, f))).
  { destruct c, f; simpl in He;
      try (destruct (decide (k = j)) as [->|Hne];
           [rewrite lookup_insert_eq in He; injection He as <-; by right
           |rewrite lookup_insert_ne in He by done; by left]).
    by left. }
  destruct Hcases as [Hk|[-> ->]]; [by apply (Hold k)|done].
Qed.

Lemma plan_qualifies (nodes : list DocNode) (k : nat) (e : claim) :
  (plan nodes).1 !! k = Some e -> entry_qualifies nodes k e.
Proof.
  revert k e. unfold plan.
  apply (plan_loop_ind nodes (fun _ st =>
           forall k e, st.1 !! k = Some e -> entry_qualifies nodes k e)).
  - intros j node st Hj Hold. by apply plan_step_qualifies.
  - done.
  - lia.
  - intros k e Hk. simpl in Hk. by rewrite lookup_empty in Hk.
Qed.

(** X5. Whatever the first pass records for an anchor passed the tests: a
    recorded caption is a text block accepted by [_is_caption] for the type
    of the anchor, a recorded footnote one accepted by [_is_footnote]. *)
Theorem recorded_claims_qualify (nodes : list DocNode) (i : nat) (c f : option nat) :
  (plan nodes).1 !! i = Some (c, f) ->
  exists node, nodes !! i = Some node
    /\ (forall x, c = Some x ->
          exists n, nodes !! x = Some n
            /\ _is_caption n (default [] (md_type (metadata node))) = true)
    /\ (forall y, f = Some y ->
          exists n, nodes !! y = Some n /\ _is_footnote n = true).
Proof. intros He. exact (plan_qualifies nodes i (c, f) He). Qed.

Lemma recorded_claims_qualify_witness :
  exists node, h_tbl !! 1%nat = Some node
    /\ (forall x, Some 0%nat = Some x ->
          exists n, h_tbl !! x = Some n
            /\ _is_caption n (default [] (md_type (metadata node))) = true)
    /\ (forall y, Some 2%nat = Some y ->
          exists n, h_tbl !! y = Some n /\ _is_footnote n = true).
Proof.
  apply (recorded_claims_qualify h_tbl 1%nat (Some 0%nat) (Some 2%nat)).
  vm_compute. reflexivity.
Defined.

Lemma strip_nil : strip [] = [].
Proof. reflexivity. Qed.

Lemma is_caption_content n t :
  _is_caption n t = true -> type_is n (u "text") = true /\ strip (text n) <> [].
Proof.
  unfold _is_caption, content_of. destruct (type_is n (u "text")); [|done]. simpl.
  destruct (text n) as [|c s]; [done|].
  destruct (strip (c :: s)); [done|]. done.
Qed.

Lemma is_footnote_content n :
  _is_footnote n = true -> type_is n (u "text") = true /\ strip (text n) <> [].
Proof.
  unfold _is_footnote, content_of. destruct (type_is n (u "text")); [|done]. simpl.
  destruct (text n) as [|c s]; [done|].
  destruct (strip (c :: s)); [done|]. done.
Qed.

(** X6. A block whose text is empty or white space only is never consumed,
    whatever its style name says: it is one of the indices kept. *)
Theorem blank_never_consumed (h : store) (refs : list addr) (x : nat) (a : addr) :
  refs !! x = Some a ->
  strip (text (deref h a)) = [] ->
  x ∈ kept_indices (plan (map (deref h) refs)) (length refs).
Proof.
  intros Hx Hblank. unfold kept_indices.
  apply list_elem_of_filter. split.
  2: { apply elem_of_seq. apply lookup_lt_Some in Hx. lia. }
  intros Hin.
  destruct (plan_inv_final (map (deref h) refs)) as (_ & I2 & _).
  apply I2 in Hin as (j & [c f] & He & Hclaim).
  apply plan_qualifies in He as (node & _ & Hc & Hf). simpl in Hc, Hf.
  assert (Hnode : map (deref h) refs !! x = Some (deref h a)).
  { by rewrite list_lookup_fmap, Hx. }
  destruct Hclaim as [Hcx|Hfx].
  - destruct (Hc x Hcx) as (n & Hn & Hcap). rewrite Hnode in Hn. injection Hn as <-.
    apply is_caption_content in Hcap as [_ Hne]. done.
  - destruct (Hf x Hfx) as (n & Hn & Hfoot). rewrite Hnode in Hn. injection Hn as <-.
    apply is_footnote_content in Hfoot as [_ Hne]. done.
Qed.

Lemma blank_never_consumed_witness :
  1%nat ∈ kept_indices
    (plan (map (deref [tbl "a|b"; node_of "text" "  " None None]) [0; 1]%nat))
    (length [0; 1]%nat).
Proof.
  apply (blank_never_consumed [tbl "a|b"; node_of "text" "  " None None]
           [0; 1]%nat 1%nat 1%nat).
  - reflexivity.
  - vm_compute. reflexivity.
Defined.

(** ** What the second pass builds *)

Lemma same_but_index_refl n : same_but_index n n.
Proof. done. Qed.

Lemma same_but_index_trans n1 n2 n3 :
  same_but_index n1 n2 -> same_but_index n2 n3 -> same_but_index n1 n3.
Proof.
  intros (H1 & H2 & H3) (H4 & H5 & H6). split; [congruence|]. split; congruence.
Qed.

Lemma same_but_index_sym n1 n2 : same_but_index n1 n2 -> same_but_index n2 n1.
Proof. intros (H1 & H2 & H3). split; [done|]. split; done. Qed.

Lemma set_index_same v n : same_but_index n (with_metadata (set_index v) n).
Proof. by destruct n as [t [] g]. Qed.

Lemma update_index_same h o v b :
  same_but_index (deref h b) (deref (update h o (set_index v)) b).
Proof.
  destruct (deref_update h o (set_index v) b) as [->|[_ ->]]; [done|].
  apply set_index_same.
Qed.

Lemma extends_but_index_refl h : extends_but_index h h.
Proof. split; [lia|]. intros b _. done. Qed.

Lemma extends_but_index_trans h1 h2 h3 :
  extends_but_index h1 h2 -> extends_but_index h2 h3 -> extends_but_index h1 h3.
Proof.
  intros [L1 F1] [L2 F2]. split; [lia|]. intros b Hb.
  eapply same_but_index_trans; [by apply F1|]. apply F2. lia.
Qed.

(** One step of the second loop on the store: a node is appended or not,
    then one [index] is written. *)
Lemma emit_extends save_image refs st i a h v :
  extends_but_index h
    (update (emit save_image refs st i a h).1 (emit save_image refs st i a h).2
            (set_index v)).
Proof.
  unfold emit. destruct (st.1 !! i) as [[c f]|]; simpl.
  - split; [rewrite length_update, length_app; lia|].
    intros b Hb. eapply same_but_index_trans; [|apply update_index_same].
    by rewrite deref_alloc_old.
  - split; [by rewrite length_update|]. intros b _. apply update_index_same.
Qed.

Lemma merge_loop_extends save_image refs st todo : forall i h result h' out,
  merge_loop save_image refs st i todo h result = (h', out) ->
  extends_but_index h h'.
Proof.
  induction todo as [|a todo IH]; intros i h result h' out Hrun.
  - simpl in Hrun. injection Hrun as <- _. apply extends_but_index_refl.
  - rewrite merge_loop_cons in Hrun.
    destruct (bool_decide (i ∈ st.2)); [by eapply IH|].
    apply IH in Hrun. eapply extends_but_index_trans; [|exact Hrun].
    apply emit_extends.
Qed.

(** X7. The parser does not touch its input: every object of the store keeps
    its text and every metadata entry but [index]; merged nodes are new
    objects, appended to the store. *)
Theorem caption_input_untouched (save_image : bool) (h : store) (refs : list addr) :
  (length h <= length (Caption._parse_nodes save_image h refs).1)%nat
  /\ forall b, (b < length h)%nat ->
       same_but_index (deref h b)
         (deref (Caption._parse_nodes save_image h refs).1 b).
Proof.
  rewrite parse_nodes_unfold.
  destruct (merge_loop _ _ _ _ _ _ _) as [h' out] eqn:Hrun.
  apply merge_loop_extends in Hrun. exact Hrun.
Qed.

(** The merged node reads its arguments up to their [index]. *)
Lemma merge_same_but_index save_image n n' c c' f f' :
  same_but_index n n' ->
  opt_text c' = opt_text c -> opt_text f' = opt_text f ->
  same_but_index (_merge_caption_footnote save_image n c f)
                 (_merge_caption_footnote save_image n' c' f').
Proof.
  intros (Ht & Hg & Hm) Hc Hf.
  destruct n as [t md g], n' as [t' md' g']. simpl in Ht, Hg, Hm. subst t' g'.
  destruct md, md'. injection Hm as -> -> -> -> -> -> -> -> -> -> -> ->.
  unfold _merge_caption_footnote, type_is. simpl. rewrite Hc, Hf.
  split; [done|]. split; [done|].
  destruct (nonempty (opt_text c)), (nonempty (opt_text f)); done.
Qed.

Lemma node_at_text h h' refs j :
  valid h refs -> refs <> [] -> extends_but_index h h' ->
  opt_text (node_at h' refs j) = opt_text (node_at h refs j).
Proof.
  intros Hvalid Hne [_ Hframe]. destruct j as [j|]; [|done]. simpl.
  assert (Hlt : (default 0%nat (refs !! j) < length h)%nat).
  { destruct (refs !! j) as [b|] eqn:Hb; simpl.
    - eapply Forall_forall in Hvalid; [done|]. by eapply list_elem_of_lookup_2.
    - destruct refs as [|r0 refs]; [done|]. apply Forall_cons in Hvalid as [? _]. lia. }
  destruct (Hframe _ Hlt) as (Ht & _). unfold content_of. by rewrite Ht.
Qed.

Section MergeEmits.
Variables (save_image : bool) (h0 : store) (refs : list addr) (st : plan_state).
Hypothesis refs_valid : valid h0 refs.

Lemma merge_loop_emits todo : forall i h result h' out,
drop i refs = todo -> extends_but_index h0 h ->
merge_loop save_image refs st i todo h result = (h', out) ->
exists new, out = result ++ new
  /\ Forall2 (fun k a' => same_but_index (emitted save_image h0 refs st k)
                            (deref h' a'))
             (filter (fun k => k ∉ st.2) (seq i (length todo))) new.
Proof.
induction todo as [|a todo IH]; intros i h result h' out Hd Hext Hrun.
- simpl in Hrun. injection Hrun as <- <-. exists []. rewrite app_nil_r.
  split; [done|]. constructor.
- assert (refs !! i = Some a) as Hi.
  { rewrite <-(Nat.add_0_r i), <-lookup_drop, Hd. done. }
  assert (drop (S i) refs = todo) as Hd'.
  { rewrite (drop_S _ _ _ Hi) in Hd. by injection Hd. }
  assert (Ha : (a < length h0)%nat).
  { eapply Forall_forall in refs_valid; [done|]. by eapply list_elem_of_lookup_2. }
  assert (Hne : refs <> []) by (by destruct refs).
  rewrite merge_loop_cons in Hrun. simpl length. simpl seq.
  destruct (bool_decide_reflect (i ∈ st.2)) as [Hin|Hout].
  + rewrite filter_cons_False by (intros Hc; by apply Hc).
    by eapply IH.
  + rewrite filter_cons_True by done.
    set (v := (Z.of_nat (length (result ++ [(emit save_image refs st i a h).2])) - 1)%Z)
      in Hrun.
    pose proof (emit_extends save_image refs st i a h v) as Hstep.
    pose proof (merge_loop_extends _ _ _ _ _ _ _ _ _ Hrun) as Hlater.
    apply IH in Hrun as (new & -> & HF);
      [|done|by eapply extends_but_index_trans].
    exists ((emit save_image refs st i a h).2 :: new). rewrite <-app_assoc.
    split; [done|]. constructor; [|done].
    (* the block emitted at [i], read in the final store *)
    assert (Hnow : same_but_index (emitted save_image h0 refs st i)
              (deref (update (emit save_image refs st i a h).1
                             (emit save_image refs st i a h).2 (set_index v))
                     (emit save_image refs st i a h).2)
            /\ ((emit save_image refs st i a h).2
                < length (update (emit save_image refs st i a h).1
                                 (emit save_image refs st i a h).2 (set_index v)))%nat).
    { rewrite length_update. unfold emitted, emit. rewrite Hi. simpl default.
      destruct (st.1 !! i) as [[c f]|]; simpl.
      - rewrite length_app. simpl. split; [|lia].
        eapply same_but_index_trans; [|apply update_index_same].
        rewrite deref_alloc_new.
        apply merge_same_but_index.
        + destruct Hext as [_ Hframe]. by apply Hframe.
        + by apply node_at_text.
        + by apply node_at_text.
      - destruct Hext as [Hlen Hframe]. split; [|lia].
        eapply same_but_index_trans; [by apply Hframe|]. apply update_index_same. }
    destruct Hnow as [Hnow Hlt]. destruct Hlater as [_ Hframe].
    eapply same_but_index_trans; [exact Hnow|]. by apply Hframe.
Qed.
End MergeEmits.

(** X8. The output, block by block: for each index that is not consumed, in
    order, the block is -- up to its [index] -- the input block itself, or,
    for an anchor with an entry in [merge_info], the node that
    [_merge_caption_footnote] builds from the input anchor and the input
    caption and footnote blocks. *)
Theorem merge_pass_emits (save_image : bool) (h : store) (refs : list addr) :
  valid h refs ->
  Forall2 (fun k a' =>
             same_but_index
               (emitted save_image h refs (plan (map (deref h) refs)) k)
               (deref (Caption._parse_nodes save_image h refs).1 a'))
          (kept_indices (plan (map (deref h) refs)) (length refs))
          (Caption._parse_nodes save_image h refs).2.
Proof.
  intros Hvalid. rewrite parse_nodes_unfold.
  destruct (merge_loop _ _ _ _ _ _ _) as [h' out] eqn:Hrun.
  apply (merge_loop_emits save_image h refs _ Hvalid) in Hrun as (new & -> & HF);
    [|done|apply extends_but_index_refl].
  exact HF.
Qed.

Lemma merge_pass_emits_witness :
  Forall2 (fun k a' =>
             same_but_index
               (emitted true h_tbl [0; 1; 2]%nat
                  (plan (map (deref h_tbl) [0; 1; 2]%nat)) k)
               (deref (Caption._parse_nodes true h_tbl [0; 1; 2]%nat).1 a'))
          (kept_indices (plan (map (deref h_tbl) [0; 1; 2]%nat))
                        (length [0; 1; 2]%nat))
          (Caption._parse_nodes true h_tbl [0; 1; 2]%nat).2.
Proof.
  apply (merge_pass_emits true h_tbl [0; 1; 2]%nat). repeat constructor.
Defined.

(** ** Documents without anchors *)

Lemma plan_loop_no_anchor nodes todo : forall i st,
  Forall (fun n => is_anchor_type (default [] (md_type (metadata n))) = false) todo ->
  plan_loop nodes i todo st = st.
Proof.
  induction todo as [|n todo IH]; intros i st Hall; [done|].
  apply Forall_cons in Hall as [Hn Hall]. simpl. rewrite IH by done.
  unfold plan_step. destruct st as [mi cl]. by rewrite Hn.
Qed.

(** X9. A document without image, table or equation blocks passes through: the
    parser returns the same blocks in the same order, allocates nothing and
    only renumbers them, exactly as [_reset_node_index] does. *)
Theorem caption_pass_through (save_image : bool) (h : store) (refs : list addr) :
  Forall (fun a => is_anchor_type (default [] (md_type (metadata (deref h a)))) = false)
         refs ->
  Caption._parse_nodes save_image h refs = _reset_node_index h refs
  /\ (Caption._parse_nodes save_image h refs).2 = refs
  /\ length (Caption._parse_nodes save_image h refs).1 = length h.
Proof.
  intros Hall.
  assert (Hplan : plan (map (deref h) refs) = (∅, ∅)).
  { unfold plan. apply plan_loop_no_anchor. by apply Forall_fmap. }
  assert (Heq : Caption._parse_nodes save_image h refs = _reset_node_index h refs).
  { rewrite parse_nodes_unfold, Hplan. by rewrite merge_loop_nothing. }
  split; [done|]. rewrite Heq. unfold _reset_node_index.
  destruct (reset_loop 0 refs h []) as [h' out] eqn:Hrun.
  apply reset_loop_frame in Hrun as (-> & Hlen & _). done.
Qed.

Lemma caption_pass_through_witness :
  Caption._parse_nodes true h_scope [0%nat] = _reset_node_index h_scope [0%nat]
  /\ (Caption._parse_nodes true h_scope [0%nat]).2 = [0%nat]
  /\ length (Caption._parse_nodes true h_scope [0%nat]).1 = length h_scope.
Proof.
  apply (caption_pass_through true h_scope [0%nat]). repeat constructor.
Defined.

Import Caption.
Import Layout.

(** * The order of the output of LayoutNodeParser *)

Lemma str_leb_refl a : str_leb a a = true.
Proof.
  induction a as [|x a IH]; [done|]. simpl.
  by rewrite N.eqb_refl, IH, orb_true_r.
Qed.

Lemma str_leb_total a b : str_leb a b = true \/ str_leb b a = true.
Proof.
  revert b. induction a as [|x a IH]; intros [|y b]; simpl; auto.
  destruct (N.ltb_spec x y) as [Hlt|Hge]; [by left|].
  destruct (N.ltb_spec y x) as [Hlt'|Hge']; [by right|].
  assert (x = y) as -> by lia. rewrite N.eqb_refl. simpl. apply IH.
Qed.

Lemma str_leb_trans a b c :
  str_leb a b = true -> str_leb b c = true -> str_leb a c = true.
Proof.
  revert b c. induction a as [|x a IH]; intros [|y b] [|z c]; simpl; try done.
  rewrite !orb_true_iff, !andb_true_iff, !N.ltb_lt, !N.eqb_eq.
  intros [Hxy|[-> Hab]] [Hyz|[-> Hbc]].
  - left. lia.
  - by left.
  - by left.
  - right. split; [done|]. by eapply IH.
Qed.

Lemma str_leb_antisym a b : str_leb a b = true -> str_leb b a = true -> a = b.
Proof.
  revert b. induction a as [|x a IH]; intros [|y b]; simpl; try done.
  rewrite !orb_true_iff, !andb_true_iff, !N.ltb_lt, !N.eqb_eq.
  intros [Hxy|[-> Hab]] [Hyx|[Heq Hba]]; try lia.
  f_equal. by apply IH.
Qed.

Section SortedFacts.
Context {A K : Type} (leb : K -> K -> bool) (key : A -> K).
Hypothesis leb_total : forall a b, leb a b = true \/ leb b a = true.
Hypothesis leb_trans : forall a b c, leb a b = true -> leb b c = true -> leb a c = true.

Local Abbreviation ordered := (fun x y => leb (key x) (key y) = true).

Lemma insert_sorted_perm x l : insert_sorted leb key x l ≡ₚ x :: l.
Proof.
induction l as [|y l IH]; simpl; [done|].
destruct (leb (key x) (key y)); [done|]. rewrite IH. apply Permutation_swap.
Qed.

Lemma insert_sorted_ordered x l :
StronglySorted ordered l -> StronglySorted ordered (insert_sorted leb key x l).
Proof.
induction 1 as [|y l Hl IH Hy]; simpl; [by repeat constructor|].
destruct (leb (key x) (key y)) eqn:Hxy.
- constructor; [by constructor|]. constructor; [done|].
  eapply Forall_impl; [exact Hy|]. intros z Hz. simpl in *. by eapply leb_trans.
- constructor; [done|]. rewrite insert_sorted_perm. constructor; [|done].
  simpl. destruct (leb_total (key x) (key y)) as [H|H]; [congruence|done].
Qed.

Lemma sorted_ordered l : StronglySorted ordered (sorted leb key l).
Proof.
induction l as [|x l IH]; [constructor|].
change (sorted leb key (x :: l)) with (insert_sorted leb key x (sorted leb key l)).
by apply insert_sorted_ordered.
Qed.

(** Sorting a list that is in order returns it. *)
Lemma sorted_fixed l : StronglySorted ordered l -> sorted leb key l = l.
Proof.
induction 1 as [|x l Hl IH Hx]; [done|].
change (sorted leb key (x :: l)) with (insert_sorted leb key x (sorted leb key l)).
rewrite IH. destruct l as [|y l]; [done|]. simpl.
apply Forall_cons in Hx as [Hxy _]. simpl in Hxy. by rewrite Hxy.
Qed.
End SortedFacts.

Lemma sorted_ext {A K} (leb : K -> K -> bool) (key key' : A -> K) (l : list A) :
  (forall x, key x = key' x) -> sorted leb key l = sorted leb key' l.
Proof.
  intros Hk. induction l as [|x l IH]; [done|].
  change (sorted leb key (x :: l)) with (insert_sorted leb key x (sorted leb key l)).
  change (sorted leb key' (x :: l)) with (insert_sorted leb key' x (sorted leb key' l)).
  rewrite IH. generalize (sorted leb key' l). intros l'.
  induction l' as [|y l' IH']; [done|]. simpl. by rewrite !Hk, IH'.
Qed.

Lemma elem_of_concat {A} (z : A) (gs : list (list A)) :
  z ∈ concat gs <-> exists g, g ∈ gs /\ z ∈ g.
Proof.
  induction gs as [|g gs IH]; simpl.
  - split; [by intros ?%elem_of_nil|by intros (g & ?%elem_of_nil & _)].
  - rewrite elem_of_app, IH. split.
    + intros [Hz|(g' & Hg' & Hz)]; [exists g; split; [by left|done]|].
      exists g'. split; [by right|done].
    + intros (g' & [->|Hg']%elem_of_cons & Hz); [by left|right; by exists g'].
Qed.

(** Runs of equal keys in a list that is in order: keys agree inside a
    run, and differ between two runs. *)
Lemma groupby_runs (key : addr -> str) (l : list addr) :
  StronglySorted (fun x y => str_leb (key x) (key y) = true) l ->
  StronglySorted (fun g1 g2 => forall x y, x ∈ g1 -> y ∈ g2 ->
                    str_leb (key x) (key y) = true /\ key x <> key y)
                 (groupby str_eqb key l)
  /\ Forall (fun g => forall x y, x ∈ g -> y ∈ g -> key x = key y)
            (groupby str_eqb key l).
Proof.
  induction 1 as [|x l Hl [IH1 IH2] Hx]; simpl; [by split; constructor|].
  pose proof (groupby_concat str_eqb key l) as Hcat.
  destruct (groupby str_eqb key l) as [|[|y g] gs] eqn:Hg.
  - split; repeat constructor. intros a b ->%list_elem_of_singleton
      ->%list_elem_of_singleton. done.
  - split; repeat constructor. intros a b ->%list_elem_of_singleton
      ->%list_elem_of_singleton. done.
  - apply StronglySorted_inv in IH1 as [IH1 Hfirst].
    apply Forall_cons in IH2 as [Hrun IH2].
    assert (Hin : forall g' z, g' ∈ (y :: g) :: gs -> z ∈ g' -> z ∈ l).
    { intros g' z Hg' Hz. rewrite <- Hcat. apply elem_of_concat. eauto. }
    assert (Hxz : forall g' z, g' ∈ (y :: g) :: gs -> z ∈ g' ->
                    str_leb (key x) (key z) = true).
    { intros g' z Hg' Hz. eapply Forall_forall in Hx; [exact Hx|]. by eapply Hin. }
    unfold str_eqb.
    destruct (bool_decide_reflect (key x = key y)) as [Heq|Hne].
    + split.
      * constructor; [done|].
        apply Forall_forall. intros g2 Hg2 a b Ha Hb.
        eapply Forall_forall in Hfirst; [|exact Hg2].
        apply elem_of_cons in Ha as [->|Ha].
        -- split; [eapply Hxz; [|exact Hb]; by right|].
           rewrite Heq. apply (Hfirst y b); [by left|done].
        -- by apply Hfirst.
      * constructor; [|done]. intros a b Ha Hb.
        assert (Hky : forall c, c ∈ x :: y :: g -> key c = key y).
        { intros c [->|Hc]%elem_of_cons; [done|]. apply Hrun; [done|by left]. }
        by rewrite (Hky a), (Hky b).
    + split.
      * constructor; [by constructor|].
        apply Forall_forall. intros g2 Hg2 a b ->%list_elem_of_singleton Hb.
        split; [by eapply Hxz|].
        intros Heq. apply Hne.
        assert (Hxy : str_leb (key x) (key y) = true).
        { eapply Hxz; [by left|by left]. }
        apply str_leb_antisym; [done|].
        apply elem_of_cons in Hg2 as [->|Hg2].
        -- rewrite Heq. rewrite (Hrun b y Hb ltac:(by left)). apply str_leb_refl.
        -- eapply Forall_forall in Hfirst; [|exact Hg2].
           rewrite Heq. apply (Hfirst y b); [by left|done].
      * constructor; [|by constructor].
        intros a b ->%list_elem_of_singleton ->%list_elem_of_singleton. done.
Qed.

Lemma index_of_parse L h a : index_of (fold_left parse_node L h) a = index_of h a.
Proof.
  unfold index_of. by destruct (fold_parse_node_same L h a) as (_ & _ & ->).
Qed.

Lemma forward_groups_exact h0 groups : forall h result,
  (forall a, index_of h a = index_of h0 a) ->
  fold_left forward_group groups (h, result)
  = (fold_left parse_node (concat (map (sorted Z.leb (index_of h0)) groups)) h,
     result ++ concat (map (sorted Z.leb (index_of h0)) groups)).
Proof.
  induction groups as [|g groups IH]; intros h result Hidx; simpl.
  - by rewrite app_nil_r.
  - unfold Layout._parse_nodes. rewrite parse_loop_spec. simpl.
    rewrite (sorted_ext Z.leb (index_of h) (index_of h0)) by done.
    rewrite IH.
    + by rewrite fold_left_app, app_assoc.
    + intros a. by rewrite index_of_parse.
Qed.

(** [forward] visits the blocks in [visit_order], then renumbers them. *)
Lemma forward_exact h document :
  Layout.forward h document
  = _reset_node_index (fold_left parse_node (visit_order h document) h)
                      (visit_order h document).
Proof.
  unfold Layout.forward, visit_order.
  by rewrite (forward_groups_exact h) by done.
Qed.

Lemma forward_output h document : (Layout.forward h document).2 = visit_order h document.
Proof.
  rewrite forward_exact. unfold _reset_node_index.
  destruct (reset_loop _ _ _ _) as [h' out] eqn:Hrun.
  by apply reset_loop_frame in Hrun as (-> & _).
Qed.

Lemma Z_leb_total a b : Z.leb a b = true \/ Z.leb b a = true.
Proof. destruct (Z.leb_spec a b); [by left|right]. apply Z.leb_le. lia. Qed.

Lemma Z_leb_trans a b c : Z.leb a b = true -> Z.leb b c = true -> Z.leb a c = true.
Proof. rewrite !Z.leb_le. lia. Qed.

Lemma visit_order_sorted h document :
  StronglySorted (file_then_index h) (visit_order h document).
Proof.
  unfold visit_order, file_then_index.
  set (fn := file_name_of h).
  pose proof (sorted_ordered str_leb fn str_leb_total str_leb_trans document) as Hs.
  destruct (groupby_runs fn _ Hs) as [Hruns Hsame].
  induction Hruns as [|g gs Hgs IH Hg]; simpl; [constructor|].
  apply Forall_cons in Hsame as [Hg_same Hsame].
  apply StronglySorted_app_2.
  - intros x y Hx Hy. rewrite sorted_perm in Hx.
    apply elem_of_concat in Hy as (g2' & Hg2' & Hy).
    apply list_elem_of_fmap in Hg2' as (g2 & -> & Hg2).
    rewrite sorted_perm in Hy.
    eapply Forall_forall in Hg; [|exact Hg2].
    destruct (Hg x y Hx Hy) as [Hle Hne]. split; [done|]. intros Heq. done.
  - pose proof (sorted_ordered Z.leb (index_of h) Z_leb_total Z_leb_trans g) as Hi.
    assert (Hin : forall x, x ∈ sorted Z.leb (index_of h) g -> x ∈ g).
    { intros x. by rewrite sorted_perm. }
    revert Hi Hin. generalize (sorted Z.leb (index_of h) g). intros g'.
    induction 1 as [|x g' Hg' IHg Hx]; intros Hin; [constructor|].
    constructor.
    + apply IHg. intros y Hy. apply Hin. by right.
    + apply Forall_forall. intros y Hy. split.
      * rewrite (Hg_same x y); [apply str_leb_refl| |].
        -- apply Hin. by left.
        -- apply Hin. by right.
      * intros _. eapply Forall_forall in Hx; [|exact Hy]. simpl in Hx.
        by apply Z.leb_le.
  - by apply IH.
Qed.

(** X10. The output of [forward] is ordered by file name and, within one file
    name, by the [index] the blocks had on entry; it holds the blocks of
    the input and no others. *)
Theorem layout_output_order (h : store) (document : list addr) :
  StronglySorted (file_then_index h) (Layout.forward h document).2
  /\ (Layout.forward h document).2 ≡ₚ document.
Proof.
  rewrite forward_output. split; [apply visit_order_sorted|].
  rewrite <- forward_output. apply forward_frame.
Qed.

Import Caption.
Import Layout.

(** * Running LayoutNodeParser on its own output *)

Lemma update_fixed h a f :
  with_metadata f (deref h a) = deref h a -> update h a f = h.
Proof.
  intros Hf. unfold update. apply list_eq. intros i.
  rewrite list_lookup_alter. case_decide as Hi; [|done]. subst i.
  unfold deref in Hf. destruct (h !! a) as [n|]; [|done]. simpl in *. by rewrite Hf.
Qed.

Lemma with_metadata_set_level_id v n :
  md_text_level (metadata n) = Some v -> with_metadata (set_text_level v) n = n.
Proof. destruct n as [t md g]. destruct md. simpl. intros ->. done. Qed.

(** A block that carries the level one visit gives it is left as it is. *)
Lemma parse_node_fixed h a :
  md_text_level (metadata (deref h a)) = level_after (deref h a) ->
  parse_node h a = h.
Proof.
  unfold parse_node, level_after.
  repeat match goal with
         | |- context [if ?c then _ else _] => destruct c
         end; try done;
    intros Hl; apply update_fixed; by apply with_metadata_set_level_id.
Qed.

Lemma fold_parse_fixed L : forall h,
  (forall a, a ∈ L -> md_text_level (metadata (deref h a)) = level_after (deref h a)) ->
  fold_left parse_node L h = h.
Proof.
  induction L as [|a L IH]; intros h Hfix; simpl; [done|].
  rewrite parse_node_fixed by (apply Hfix; by left).
  apply IH. intros b Hb. apply Hfix. by right.
Qed.

Lemma reset_loop_fixed todo : forall k h result,
  (forall j a, todo !! j = Some a ->
     md_index (metadata (deref h a)) = Some (Z.of_nat (k + j))) ->
  reset_loop k todo h result = (h, result ++ todo).
Proof.
  induction todo as [|a todo IH]; intros k h result Hpos; simpl.
  - by rewrite app_nil_r.
  - rewrite update_fixed.
    + rewrite IH; [by rewrite <- app_assoc|].
      intros j b Hj. rewrite (Hpos (S j) b Hj). do 2 f_equal. lia.
    + apply with_metadata_set_index_id. rewrite (Hpos 0%nat a eq_refl).
      do 2 f_equal. lia.
Qed.

Lemma groupby_ext {A K} (eqb : K -> K -> bool) (key key' : A -> K) (l : list A) :
  (forall x, key x = key' x) -> groupby eqb key l = groupby eqb key' l.
Proof.
  intros Hk. induction l as [|x l IH]; [done|]. simpl. rewrite IH.
  destruct (groupby eqb key' l) as [|[|y g] gs]; try done. by rewrite !Hk.
Qed.

Lemma groupby_run_app (key : addr -> str) (g : list addr) (gs : list (list addr)) :
  g <> [] ->
  (forall x y, x ∈ g -> y ∈ g -> key x = key y) ->
  Forall (fun g2 => g2 <> []) gs ->
  Forall (fun g2 => forall x y, x ∈ g -> y ∈ g2 -> key x <> key y) gs ->
  groupby str_eqb key (concat gs) = gs ->
  groupby str_eqb key (g ++ concat gs) = g :: gs.
Proof.
  intros Hg_ne Hg_same Hne Hg IH.
  induction g as [|x g IHg]; [done|]. clear Hg_ne.
  destruct g as [|x' g].
  - simpl. rewrite IH. destruct gs as [|[|y g2] gs].
    + done.
    + by apply Forall_cons in Hne as [? _].
    + apply Forall_cons in Hg as [Hg _].
      unfold str_eqb. rewrite bool_decide_eq_false_2; [done|].
      apply Hg; by left.
  - change (((x :: x' :: g) ++ concat gs))
      with (x :: ((x' :: g) ++ concat gs)).
    cbn [groupby]. rewrite IHg.
    + unfold str_eqb. rewrite bool_decide_eq_true_2; [done|].
      apply Hg_same; [by left|right; by left].
    + done.
    + intros a b Ha Hb. apply Hg_same; by right.
    + eapply Forall_impl; [exact Hg|]. intros g2 H2 a b Ha Hb. apply H2; [by right|done].
Qed.

(** Cutting a list of runs back into runs. *)
Lemma groupby_concat_runs (key : addr -> str) (gs : list (list addr)) :
  Forall (fun g => g <> []) gs ->
  Forall (fun g => forall x y, x ∈ g -> y ∈ g -> key x = key y) gs ->
  StronglySorted (fun g1 g2 => forall x y, x ∈ g1 -> y ∈ g2 -> key x <> key y) gs ->
  groupby str_eqb key (concat gs) = gs.
Proof.
  intros Hne Hsame Hdiff.
  induction Hdiff as [|g gs Hgs IH Hg]; [done|].
  apply Forall_cons in Hne as [Hg_ne Hne].
  apply Forall_cons in Hsame as [Hg_same Hsame].
  simpl. apply groupby_run_app; try done. by apply IH.
Qed.

Lemma StronglySorted_weaken {A} (R R' : A -> A -> Prop) (l : list A) :
  (forall x y, R x y -> R' x y) -> StronglySorted R l -> StronglySorted R' l.
Proof.
  intros HR. induction 1 as [|x l Hl IH Hx]; constructor; [done|].
  eapply Forall_impl; [exact Hx|]. intros y. apply HR.
Qed.

Lemma StronglySorted_concat {A} (R : A -> A -> Prop) (gs : list (list A)) :
  StronglySorted R (concat gs) -> Forall (StronglySorted R) gs.
Proof.
  induction gs as [|g gs IH]; simpl; [constructor|].
  intros (_ & Hg & Hrest)%StronglySorted_app. constructor; [done|by apply IH].
Qed.

Lemma positions_ordered (f : addr -> Z) (l : list addr) : forall k0,
  (forall k a, l !! k = Some a -> f a = Z.of_nat (k0 + k)) ->
  StronglySorted (fun x y => Z.leb (f x) (f y) = true) l.
Proof.
  induction l as [|x l IH]; intros k0 Hpos; constructor.
  - apply (IH (S k0)). intros k a Hk. rewrite (Hpos (S k) a Hk). f_equal. lia.
  - apply Forall_forall. intros y Hy. apply list_elem_of_lookup in Hy as [k Hk].
    rewrite (Hpos 0%nat x eq_refl), (Hpos (S k) y Hk). apply Z.leb_le. lia.
Qed.

Lemma map_fixed {A} (f : A -> A) (l : list A) :
  Forall (fun x => f x = x) l -> map f l = l.
Proof. induction 1 as [|x l Hx _ IH]; [done|]. simpl. by rewrite Hx, IH. Qed.

(** With pairwise distinct input blocks, a second run of [forward] on the
    output of the first returns that output and leaves every object as it
    is. *)
Lemma forward_fixed (h : store) (document : list addr) :
  NoDup document -> valid h document ->
  Layout.forward (Layout.forward h document).1 (Layout.forward h document).2
  = Layout.forward h document.
Proof.
  intros Hnd Hvalid.
  pose proof (forward_frame h document) as (Hperm & Hlen & Hframe).
  pose proof (forward_output h document) as Hout.
  assert (Hlevel : forall a, a ∈ document ->
            md_text_level (metadata (deref (Layout.forward h document).1 a))
            = level_after (deref (Layout.forward h document).1 a)).
  { intros a Ha. rewrite (forward_level_after h document a Hvalid Ha).
    symmetry. destruct (Hframe a) as (Ht & _ & Hm).
    apply level_after_idem; [done| |by apply forward_level_after].
    apply (f_equal md_type) in Hm. done. }
  assert (Hdense : positions_dense (Layout.forward h document).1
                                   (Layout.forward h document).2).
  { rewrite forward_exact. unfold _reset_node_index.
    destruct (reset_loop 0 _ _ _) as [h' out] eqn:Hrun.
    apply reset_loop_dense in Hrun; simpl.
    - tauto.
    - rewrite <- Hout. by rewrite Hperm.
    - destruct (fold_parse_node_same (visit_order h document) h 0%nat) as (-> & _).
      rewrite <- Hout. unfold valid in Hvalid. by rewrite Hperm.
    - intros k a Hk. done.
    - done. }
  destruct (Layout.forward h document) as [h2 L] eqn:Hrun. simpl in *. subst L.
  assert (Hfn : forall a, file_name_of h2 a = file_name_of h a).
  { intros a. unfold file_name_of. destruct (Hframe a) as (_ & _ & Hm).
    apply (f_equal md_file_name) in Hm. simpl in Hm. by rewrite Hm. }
  (* the second run visits the blocks in the same order *)
  assert (Horder : visit_order h2 (visit_order h document) = visit_order h document).
  { unfold visit_order at 1.
    rewrite (sorted_ext str_leb (file_name_of h2) (file_name_of h)) by done.
    rewrite (groupby_ext str_eqb (file_name_of h2) (file_name_of h)) by done.
    rewrite (sorted_fixed str_leb (file_name_of h)).
    2: { eapply StronglySorted_weaken; [|apply (visit_order_sorted h document)].
         by intros x y [? _]. }
    set (gs := groupby str_eqb (file_name_of h)
                 (sorted str_leb (file_name_of h) document)).
    pose proof (sorted_ordered str_leb (file_name_of h) str_leb_total str_leb_trans
                  document) as Hs.
    destruct (groupby_runs (file_name_of h) _ Hs) as [Hruns Hsame]. fold gs in Hruns, Hsame.
    pose proof (groupby_spec str_eqb (file_name_of h)
                  (sorted str_leb (file_name_of h) document)) as [_ Hne]. fold gs in Hne.
    unfold visit_order. fold gs.
    rewrite groupby_concat_runs.
    - f_equal. rewrite map_fixed; [done|].
      assert (Hall : Forall (StronglySorted
                (fun x y => Z.leb (index_of h2 x) (index_of h2 y) = true))
                (map (sorted Z.leb (index_of h)) gs)).
      { apply StronglySorted_concat.
        apply (positions_ordered (index_of h2) _ 0%nat).
        intros k a Hk. unfold index_of.
        unfold visit_order in Hdense. fold gs in Hdense.
        by rewrite (Hdense k a Hk). }
      eapply Forall_impl; [exact Hall|]. intros g Hg. by apply sorted_fixed.
    - apply Forall_fmap. eapply Forall_impl; [exact Hne|].
      intros g Hg Hnil. apply Hg.
      apply Permutation_nil_r. rewrite <- Hnil. by rewrite sorted_perm.
    - apply Forall_fmap. eapply Forall_impl; [exact Hsame|].
      intros g Hg x y Hx Hy. rewrite sorted_perm in Hx, Hy. by apply Hg.
    - clear -Hruns. induction Hruns as [|g gs' Hgs IH Hg]; simpl; constructor; [done|].
      apply Forall_fmap. eapply Forall_impl; [exact Hg|].
      intros g2 H2 x y Hx Hy. rewrite sorted_perm in Hx, Hy.
      by apply H2. }
  rewrite forward_exact, Horder.
  rewrite fold_parse_fixed.
  2: { intros a Ha. apply Hlevel. by rewrite <- Hperm. }
  unfold _reset_node_index. rewrite reset_loop_fixed; [done|].
  intros j a Hj. by rewrite (Hdense j a Hj).
Qed.

(** X11. Running LayoutNodeParser twice gives what running it once gives, when
    the input blocks are pairwise distinct: the same blocks in the same
    order, and every object left as the first run left it. *)
Theorem layout_forward_idempotent (h : store) (document : list addr) :
  NoDup document -> valid h document ->
  Layout.forward (Layout.forward h document).1 (Layout.forward h document).2
  = Layout.forward h document.
Proof. apply forward_fixed. Qed.

Lemma layout_forward_idempotent_witness :
  Layout.forward (Layout.forward h_date [0; 1]%nat).1 (Layout.forward h_date [0; 1]%nat).2
  = Layout.forward h_date [0; 1]%nat.
Proof.
  apply (layout_forward_idempotent h_date [0; 1]%nat).
  - apply (bool_decide_unpack _). vm_compute. exact I.
  - repeat constructor.
Defined.

(** * Footnote markers *)

Lemma search_class (items : list citem) (n0 : nat) (c : N) (s : str) :
  c ∈ s -> set_match false false items c = true ->
  is_Some_b (search_from false n0 (Set_ false items) s) = true.
Proof.
  intros Hin Hc. induction s as [|x s IH]; [by apply elem_of_nil in Hin|].
  cbn [search_from m].
  destruct (set_match false false items x) eqn:Hx; [done|].
  apply elem_of_cons in Hin as [->|Hin]; [congruence|].
  specialize (IH Hin).
  destruct (search_from false n0 (Set_ false items) s) as [[[? ?] ?]|]; done.
Qed.

Lemma existsb_true {A} (f : A -> bool) (l : list A) (x : A) :
  x ∈ l -> f x = true -> existsb f l = true.
Proof.
  intros Hin Hf. apply existsb_exists. exists x. split; [|done].
  by apply list_elem_of_In.
Qed.

(** X12. A text block that contains a footnote marker -- an asterisk, a star, a
    reference mark or a circled digit -- anywhere in its stripped text is a
    footnote, whatever its style name. *)
Theorem marked_text_is_footnote (n : DocNode) (c : N) :
  type_is n (u "text") = true ->
  c ∈ strip (text n) ->
  c ∈ u "*★☆※①②③④⑤⑥⑦⑧⑨⑩" ->
  _is_footnote n = true.
Proof.
  intros Hty Hin Hc. unfold _is_footnote. rewrite Hty. simpl negb. cbv iota.
  assert (Hcontent : content_of n = strip (text n)).
  { unfold content_of. destruct (text n); [|done]. by apply elem_of_nil in Hin. }
  rewrite Hcontent.
  destruct (strip (text n)) as [|x s] eqn:Hs; [by apply elem_of_nil in Hin|].
  assert (Hmark : existsb (fun pattern => re_search false pattern (x :: s))
                          marker_patterns = true).
  { assert (Hcases : c ∈ u "*★☆※" \/ c ∈ u "①②③④⑤⑥⑦⑧⑨⑩").
    { assert (Hsplit : u "*★☆※①②③④⑤⑥⑦⑧⑨⑩" = u "*★☆※" ++ u "①②③④⑤⑥⑦⑧⑨⑩")
        by (vm_compute; reflexivity).
      rewrite Hsplit in Hc. by apply elem_of_app in Hc. }
    destruct Hcases as [H1|H2].
    - apply (existsb_true _ _ (Set_ false (chars (u "*★☆※")))).
      + unfold marker_patterns. apply elem_of_cons. by left.
      + unfold re_search. apply (search_class _ _ c); [exact Hin|].
        rewrite mark_class. apply (existsb_true _ _ c); [exact H1|apply N.eqb_refl].
    - apply (existsb_true _ _ (Set_ false (chars (u "①②③④⑤⑥⑦⑧⑨⑩")))).
      + unfold marker_patterns. apply elem_of_cons. right. apply elem_of_cons. by left.
      + unfold re_search. apply (search_class _ _ c); [exact Hin|].
        rewrite mark_class. apply (existsb_true _ _ c); [exact H2|apply N.eqb_refl]. }
  rewrite Hmark, orb_true_r.
  destruct (md_style_name (metadata n)) as [sn|]; [|reflexivity].
  destruct (existsb _ footnote_style_keywords); reflexivity.
Qed.

Lemma marked_text_is_footnote_witness :
  _is_footnote (txt "p < 0.05 * significant") = true.
Proof.
  apply (marked_text_is_footnote (txt "p < 0.05 * significant") 42).
  - reflexivity.
  - apply (bool_decide_unpack _). vm_compute. exact I.
  - apply (bool_decide_unpack _). vm_compute. exact I.
Defined.

(** * Lines that end like an entry of a table of contents *)

Lemma match_any (n : DocNode) (pats : list regex) (r : regex) :
  r ∈ pats -> is_Some_b (re_match false r (strip (text n))) = true ->
  is_Some_b (_match n pats) = true.
Proof.
  intros Hin Hr. induction pats as [|p pats IH]; [by apply elem_of_nil in Hin|].
  simpl. destruct (re_match false p (strip (text n))) as [mo|] eqn:Hp; [done|].
  apply elem_of_cons in Hin as [->|Hin]; [by rewrite Hp in Hr|by apply IH].
Qed.

Lemma lang_any_run n0 w rest :
  lang false n0 (star Any) w rest <-> Forall (fun c => c <> NL) w.
Proof.
  unfold star. cbn [lang].
  rewrite (iter_class _ (fun x => negb (x =? NL))).
  - split.
    + intros (Hall & _). eapply Forall_impl; [exact Hall|].
      intros c Hc ->. done.
    + intros Hall. split; [|split; [lia|done]].
      eapply Forall_impl; [exact Hall|]. intros c Hc. simpl.
      apply negb_true_iff. by apply N.eqb_neq.
  - intros w' rest'. split.
    + intros (x & -> & Hx). exists x. by rewrite Hx.
    + intros (x & -> & Hx). exists x. split; [done|]. by apply negb_true_iff.
Qed.

Lemma digit_class x : set_match false false [CDigit] x = is_decimal x.
Proof. unfold set_match. simpl. by rewrite orb_false_r. Qed.

Lemma lang_decimal_run n0 w rest :
  lang false n0 (plus digit) w rest
  <-> Forall (fun c => is_decimal c = true) w /\ w <> [].
Proof.
  unfold plus, digit. cbn [lang].
  rewrite (iter_class _ is_decimal).
  - split.
    + intros (Hall & Hlo & _). split; [done|]. intros ->. simpl in Hlo. lia.
    + intros (Hall & Hne). split; [done|]. split; [|done].
      destruct w; [done|]. simpl. lia.
  - intros w' rest'. by setoid_rewrite digit_class.
Qed.

(** X13. A block at level 1 or below whose stripped text is one line that ends
    with a dot (full stop, full-width full stop or middle dot), optional
    white space and decimal digits is taken for an entry of a table of
    contents: its level becomes 0. *)
Theorem toc_line_demoted (h : store) (document : list addr) (a : addr)
    (pre : str) (d : N) (sp ds : str) :
  valid h document -> a ∈ document ->
  (text_level_of (deref h a) <= 1)%Z ->
  strip (text (deref h a)) = pre ++ d :: sp ++ ds ->
  Forall (fun c => c <> NL) pre -> d ∈ u ".．·" -> spaces sp ->
  Forall (fun c => is_decimal c = true) ds -> ds <> [] ->
  md_text_level (metadata (deref (Layout.forward h document).1 a)) = Some 0%Z.
Proof.
  intros Hvalid Hin Hle Hs Hpre Hd Hsp Hds Hne.
  rewrite (forward_level_after h document a Hvalid Hin).
  unfold level_after. apply Z.ltb_ge in Hle. rewrite Hle.
  assert (Hm : is_Some_b (_match (deref h a) (TIME_PATTERNS ++ TOC_PATTERNS)) = true);
    [|by rewrite Hm].
  apply (match_any _ _
           (seqs [star Any; Set_ false (chars (u ".．·")); star ws; plus digit;
                  star ws; Eol])).
  { apply elem_of_app. right. unfold TOC_PATTERNS. apply elem_of_cons. by left. }
  apply re_match_lang. exists (strip (text (deref h a))), [].
  split; [by rewrite app_nil_r|]. rewrite Hs.
  cbn [seqs lang].
  exists pre, (d :: sp ++ ds). split; [done|]. split; [by apply lang_any_run|].
  exists [d], (sp ++ ds). split; [done|]. split.
  { exists d. split; [done|]. rewrite mark_class.
    apply (existsb_true _ _ d); [done|apply N.eqb_refl]. }
  exists sp, ds. split; [done|]. split; [by apply lang_spaces|].
  exists ds, []. split; [by rewrite app_nil_r|]. split; [by apply lang_decimal_run|].
  exists [], []. split; [done|]. split; [apply lang_spaces; constructor|].
  split; [done|by left].
Qed.

Lemma toc_line_demoted_witness :
  md_text_level
    (metadata (deref (Layout.forward [heading "1.2 Release 2.0" 1] [0%nat]).1 0%nat))
  = Some 0%Z.
Proof.
  apply (toc_line_demoted [heading "1.2 Release 2.0" 1] [0%nat] 0%nat
           (u "1.2 Release 2") 46 [] (u "0")).
  - repeat constructor.
  - apply list_elem_of_singleton. reflexivity.
  - vm_compute. discriminate.
  - vm_compute. reflexivity.
  - apply (bool_decide_unpack _). vm_compute. exact I.
  - apply (bool_decide_unpack _). vm_compute. exact I.
  - constructor.
  - repeat constructor.
  - discriminate.
Defined.

(** * How many nodes a run allocates *)

Section MergeAlloc.
Variables (save_image : bool) (refs : list addr) (st : plan_state).

Lemma merge_loop_alloc todo : forall i h result h' out,
merge_loop save_image refs st i todo h result = (h', out) ->
length h'
= (length h
   + length (filter (fun k => k ∉ st.2 /\ k ∈ dom st.1) (seq i (length todo))))%nat.
Proof.
induction todo as [|a todo IH]; intros i h result h' out Hrun.
- simpl in Hrun. injection Hrun as <- _. simpl. lia.
- rewrite merge_loop_cons in Hrun. simpl length. simpl seq.
  destruct (bool_decide_reflect (i ∈ st.2)) as [Hin|Hout].
  + rewrite filter_cons_False by tauto. by eapply IH.
  + apply IH in Hrun. rewrite Hrun, length_update. unfold emit.
    destruct (st.1 !! i) as [[c f]|] eqn:Hi; simpl.
    * rewrite filter_cons_True by (split; [done|]; apply elem_of_dom; by eexists).
      rewrite length_app. simpl. lia.
    * rewrite filter_cons_False; [lia|].
      intros [_ Hd]. apply elem_of_dom in Hd as [? Hd]. congruence.
Qed.
End MergeAlloc.

(** X14. A run allocates one node for each anchor that has an entry in
    [merge_info], and no other. *)
Theorem merged_nodes_allocated (save_image : bool) (h : store) (refs : list addr) :
  length (Caption._parse_nodes save_image h refs).1
  = (length h + size (plan (map (deref h) refs)).1)%nat.
Proof.
  rewrite parse_nodes_unfold.
  destruct (merge_loop _ _ _ _ _ _ _) as [h' out] eqn:Hrun.
  apply merge_loop_alloc in Hrun. simpl. rewrite Hrun. f_equal.
  set (st := plan (map (deref h) refs)).
  destruct (plan_inv_final (map (deref h) refs)) as (I1 & _ & _ & I4). fold st in I1, I4.
  rewrite length_map in I1.
  assert (Hkeys : forall k, k ∈ dom st.1 -> (k < length refs)%nat /\ k ∉ st.2).
  { intros k [e He]%elem_of_dom. destruct (I1 k e He) as [Hlt (_ & _ & _ & Hanchor)].
    split; [done|]. intros Hin. destruct (I4 k Hin) as (n & Hn & Hty).
    destruct Hanchor as (node & Hnode & Ha). rewrite Hn in Hnode. injection Hnode as <-.
    apply text_not_anchor in Hty. congruence. }
  rewrite (list_filter_iff _ (fun k => k ∈ dom st.1)).
  2: { intros k. split; [tauto|]. intros Hk. split; [by apply Hkeys|done]. }
  pose proof (kept_count (dom st.1) (length refs)) as Hc.
  pose proof (filter_app_complement (fun k => k ∈ dom st.1) (seq 0 (length refs))) as Hp.
  apply Permutation_length in Hp. rewrite length_app, length_seq in Hp.
  rewrite size_dom in Hc.
  specialize (Hc ltac:(intros x Hx; by apply Hkeys)). lia.
Qed.

(** * The range of the computed level *)

Lemma lstrip_blank s : spaces s -> lstrip s = [].
Proof. induction 1 as [|c s Hc _ IH]; [done|]. simpl. by rewrite Hc. Qed.

Lemma strip_blank s : spaces s -> strip s = [].
Proof. intros Hs. unfold strip. by rewrite lstrip_blank. Qed.

Lemma first_level_range pats line l :
  first_level pats line = Some l -> l ∈ map snd pats.
Proof.
  induction pats as [|[p lv] pats IH]; simpl; [done|].
  destruct (is_Some_b (re_match false p line)).
  - intros [= <-]. by left.
  - intros H. right. by apply IH.
Qed.

(** X15. The computed level is never negative, and it is 0 for a text that is
    empty or white space only. *)
Theorem computed_level_range (txt : str) :
  (0 <= _calculate_level_by_regex txt)%Z
  /\ (spaces txt -> _calculate_level_by_regex txt = 0%Z).
Proof.
  destruct txt as [|c0 txt0] eqn:Htxt; [done|]. rewrite <- Htxt.
  assert (Hne : txt <> []) by (by subst).
  clear Htxt. rewrite calculate_level_unfold by done. split.
  - destruct (first_level NUMBER_PATTERNS_WITH_LEVEL (first_line txt)) as [l|] eqn:H1.
    { apply first_level_range in H1. rewrite number_patterns_table in H1. simpl in H1.
      repeat (apply elem_of_cons in H1 as [->|H1]; [lia|]). by apply elem_of_nil in H1. }
    destruct (first_letter LETTER_PATTERNS (first_line txt)) as [l|] eqn:H2.
    { unfold LETTER_PATTERNS, _generate_letter_number_patterns in H2.
      cbn [first_letter] in H2.
      destruct (re_match false _ (first_line txt)) as [mo|]; [|done].
      injection H2 as <-. unfold letter_level. lia. }
    destruct (first_level NORMAL_PATTERNS_WITH_LEVEL (first_line txt)) as [l|] eqn:H3;
      [|done].
    apply first_level_range in H3. rewrite normal_patterns_table in H3. simpl in H3.
    repeat (apply elem_of_cons in H3 as [->|H3]; [lia|]). by apply elem_of_nil in H3.
  - intros Hblank.
    assert (Hline : first_line txt = []).
    { unfold first_line. by rewrite (strip_blank txt). }
    rewrite Hline. by vm_compute.
Qed.

Import Caption.
Import Layout.

(** * Captions by content *)

(** [re.search] finds a word of the pattern wherever it starts. *)
Lemma search_lang ic n0 r (pre w rest : str) :
  lang ic n0 r w rest ->
  is_Some_b (search_from ic n0 r (pre ++ w ++ rest)) = true.
Proof.
  intros Hl.
  assert (Hhere : forall s, s = w ++ rest -> is_Some_b (search_from ic n0 r s) = true).
  { intros s ->.
    destruct (m_complete ic n0 r w rest [] (fun s' c => Some (s', c)) Hl) as [mo Hmo];
      [by eauto|].
    destruct (w ++ rest) as [|x s]; simpl; simpl in Hmo; by rewrite Hmo. }
  induction pre as [|x pre IH]; [by apply Hhere|].
  simpl. destruct (m ic n0 r (x :: pre ++ w ++ rest) [] _); [done|].
  destruct (search_from ic n0 r (pre ++ w ++ rest)) as [[[? ?] ?]|]; done.
Qed.

Lemma lang_lits ic n0 (kw kw' rest : str) :
  Forall2 (fun c x => lit_match ic c x = true) kw kw' ->
  lang ic n0 (lits kw) kw' rest.
Proof.
  unfold lits. intros H. revert rest.
  induction H as [|c x kw kw' Hc Hkw IH]; intros rest; [done|].
  destruct kw as [|c2 kw].
  - apply Forall2_nil_inv_l in Hkw. subst kw'. simpl. by exists x.
  - change (map Lit (c :: c2 :: kw)) with (Lit c :: map Lit (c2 :: kw)).
    rewrite seqs_cons by done. cbn [lang].
    exists [x], kw'. split; [done|]. split; [by exists x|]. apply IH.
Qed.

Lemma lang_class_run ic n0 neg items lo w rest :
  Forall (fun x => set_match ic neg items x = true) w -> (lo <= length w)%nat ->
  lang ic n0 (Rep true lo None (Set_ neg items)) w rest.
Proof.
  intros Hall Hlo. cbn [lang].
  apply (iter_class _ (set_match ic neg items)); [done|].
  split; [done|]. split; [simpl; lia|done].
Qed.

Lemma space_not_cased c : is_space c = true -> sre_lower c = c.
Proof.
  intros H. unfold sre_lower.
  assert (Hc : ((65 <=? c) && (c <=? 90) = false) /\ (c =? 304) = false
               /\ (c =? 8490) = false).
  { unfold is_space in H.
    rewrite ?orb_true_iff, ?andb_true_iff, ?N.leb_le, ?N.eqb_eq in H.
    rewrite andb_false_iff, !N.leb_gt, !N.eqb_neq. lia. }
  destruct Hc as (-> & -> & ->). done.
Qed.

Lemma decimal_not_cased c : is_decimal c = true -> sre_lower c = c.
Proof.
  intros H. unfold is_decimal in H. apply existsb_exists in H as (z & Hz & Hc).
  assert (Hall : forallb (fun z => ((z + 9 <? 65) || (90 <? z))
                                   && negb ((z <=? 304) && (304 <=? z + 9))
                                   && negb ((z <=? 8490) && (8490 <=? z + 9)))
                         decimal_zeros = true) by (vm_compute; reflexivity).
  rewrite forallb_forall in Hall. specialize (Hall z Hz).
  rewrite !andb_true_iff, !negb_true_iff, !andb_false_iff, orb_true_iff,
    !N.ltb_lt, !N.leb_gt in Hall.
  rewrite andb_true_iff, !N.leb_le in Hc.
  unfold sre_lower.
  assert (Hc' : ((65 <=? c) && (c <=? 90) = false) /\ (c =? 304) = false
                /\ (c =? 8490) = false).
  { rewrite andb_false_iff, !N.leb_gt, !N.eqb_neq. lia. }
  destruct Hc' as (-> & -> & ->). done.
Qed.

Lemma space_class_ic c : is_space c = true -> set_match true false [CSpace] c = true.
Proof.
  intros H. unfold set_match. rewrite space_not_cased by done.
  simpl. by rewrite H.
Qed.

Lemma digit_class_ic c : is_decimal c = true -> set_match true false [CDigit] c = true.
Proof.
  intros H. unfold set_match. rewrite decimal_not_cased by done.
  simpl. by rewrite H.
Qed.

(** A numbering label: the keyword, optional white space, a digit. *)
Lemma lang_numbering n0 (kw kw' sp : str) (d : N) (rest : str) :
  same_letters kw kw' -> spaces sp -> is_decimal d = true ->
  lang true n0 (Seq (lits kw) number_tail) (kw' ++ sp ++ [d]) rest.
Proof.
  intros Hkw Hsp Hd. cbn [lang].
  exists kw', (sp ++ [d]). split; [done|]. split; [by apply lang_lits|].
  unfold number_tail. cbn [seqs lang].
  exists sp, [d]. split; [done|]. split.
  { apply (iter_class _ (set_match true false [CSpace])); [done|].
    split; [|split; [lia|done]].
    eapply Forall_impl; [exact Hsp|]. intros c. apply space_class_ic. }
  exists [d], []. split; [done|]. split.
  { apply (iter_class _ (set_match true false [CDigit])); [done|].
    split; [|split; [simpl; lia|done]].
    constructor; [by apply digit_class_ic|constructor]. }
  constructor. lia.
Qed.

(** X16. A text block whose stripped text contains, anywhere, the keyword of a
    numbering pattern of the target type in any letter case, optional white
    space and a decimal digit is accepted by [_is_caption], unless its style
    name contains a keyword of another type. *)
Theorem numbered_text_is_caption (n : DocNode) (t kw : str)
    (pre kw' sp : str) (d : N) (rest : str) :
  type_is n (u "text") = true ->
  (t, kw) ∈ [ (u "image", u "图"); (u "image", u "Figure"); (u "image", u "Fig.");
              (u "table", u "表"); (u "table", u "Table"); (u "table", u "Tab.");
              (u "equation", u "公式"); (u "equation", u "Equation");
              (u "equation", u "Eq.") ] ->
  (forall sn, md_style_name (metadata n) = Some sn ->
     existsb (fun keyword => contains (lower sn) keyword)
             (style_exclude (get_config t)) = false) ->
  strip (text n) = pre ++ kw' ++ sp ++ d :: rest ->
  same_letters kw kw' -> spaces sp -> is_decimal d = true ->
  _is_caption n t = true.
Proof.
  intros Hty Hin Hstyle Hs Hkw Hsp Hd.
  unfold _is_caption. rewrite Hty. simpl negb. cbv iota.
  assert (Hcontent : content_of n = strip (text n)).
  { unfold content_of. destruct (text n); [|done].
    rewrite strip_nil in Hs. destruct pre, kw', sp; done. }
  rewrite Hcontent.
  assert (Hsearch : re_search true (Seq (lits kw) number_tail) (strip (text n)) = true).
  { unfold re_search. rewrite Hs.
    replace (pre ++ kw' ++ sp ++ d :: rest)
      with (pre ++ (kw' ++ sp ++ [d]) ++ rest) by (by rewrite <- !app_assoc).
    apply search_lang. by apply lang_numbering. }
  assert (Hpat : Seq (lits kw) number_tail ∈ patterns (get_config t)).
  { repeat (apply elem_of_cons in Hin as [[= -> ->]|Hin]);
      [..|by apply elem_of_nil in Hin].
    all: unfold get_config.
    - change (dict_get TYPE_CONFIG (u "image")) with (Some image_config).
      simpl. apply elem_of_cons. by left.
    - change (dict_get TYPE_CONFIG (u "image")) with (Some image_config).
      simpl. apply elem_of_cons. right. apply elem_of_cons. by left.
    - change (dict_get TYPE_CONFIG (u "image")) with (Some image_config).
      simpl. apply elem_of_cons. right. apply elem_of_cons. right.
      apply elem_of_cons. by left.
    - change (dict_get TYPE_CONFIG (u "table")) with (Some table_config).
      simpl. apply elem_of_cons. by left.
    - change (dict_get TYPE_CONFIG (u "table")) with (Some table_config).
      simpl. apply elem_of_cons. right. apply elem_of_cons. by left.
    - change (dict_get TYPE_CONFIG (u "table")) with (Some table_config).
      simpl. apply elem_of_cons. right. apply elem_of_cons. right.
      apply elem_of_cons. by left.
    - change (dict_get TYPE_CONFIG (u "equation")) with (Some equation_config).
      simpl. apply elem_of_cons. by left.
    - change (dict_get TYPE_CONFIG (u "equation")) with (Some equation_config).
      simpl. apply elem_of_cons. right. apply elem_of_cons. by left.
    - change (dict_get TYPE_CONFIG (u "equation")) with (Some equation_config).
      simpl. apply elem_of_cons. right. apply elem_of_cons. right.
      apply elem_of_cons. by left. }
  assert (Hby : existsb (fun pattern => re_search true pattern (strip (text n)))
                        (patterns (get_config t)) = true).
  { by apply (existsb_true _ _ (Seq (lits kw) number_tail)). }
  destruct (strip (text n)) as [|x s] eqn:Hstrip.
  { destruct pre, kw', sp; done. }
  rewrite Hby.
  destruct (md_style_name (metadata n)) as [sn|]; [|reflexivity].
  rewrite (Hstyle sn eq_refl).
  destruct (existsb _ (style_keywords (get_config t))); reflexivity.
Qed.

Lemma numbered_text_is_caption_witness :
  _is_caption (txt "see FIGURE 3 below") (u "image") = true.
Proof.
  apply (numbered_text_is_caption (txt "see FIGURE 3 below") (u "image") (u "Figure")
           (u "see ") (u "FIGURE") (u " ") 51 (u " below")).
  - reflexivity.
  - apply elem_of_cons. right. apply elem_of_cons. by left.
  - intros sn Hsn. discriminate Hsn.
  - vm_compute. reflexivity.
  - repeat constructor.
  - repeat constructor.
  - vm_compute. reflexivity.
Defined.
